(** * Character-consistent video generator: pipeline orchestrator

    A shallow embedding of the server-side generation pipeline
    (utils/errorHandler.ts, utils/retry.ts, services/sessionManager.ts,
    services/image.ts, services/openai.ts, services/ffmpeg.ts and
    services/videoGenerator.ts) and the properties proved about it.

    Conventions.
    - A JS [number] that the code uses as a count or a status is a [Z].
    - An optional field ([x?: T], or a key that may be missing from an
      object literal) is an [option].
    - An [async] function is a function in the state-and-exception monad
      [M S A]: [await] is sequencing, [throw] and a rejected promise are
      the [Throw] outcome; state written before a [throw] stays written.
    - Logging ([logger.*], [logError]) and [sleep] change nothing that
      the model keeps, and are left out. *)

From Stdlib Require Import ZArith QArith Qminmax Bool List.
From stdpp Require Import base option strings pretty list gmap.

Local Open Scope string_scope.
Local Open Scope Z_scope.

(** ** JavaScript helpers *)

(** [s.includes(pat)]. *)
Fixpoint includes (s pat : string) : bool :=
  String.prefix pat s
  || match s with
     | EmptyString => false
     | String _ s' => includes s' pat
     end.

(** Truthiness of a string: the empty string is falsy. *)
Definition truthy (s : string) : bool := negb (String.eqb s "").

(** Truthiness of an optional string ([undefined] and [""] are falsy). *)
Definition truthy_opt (o : option string) : bool :=
  match o with Some s => truthy s | None => false end.

(** [a === 'lit'] for an optional string field. *)
Definition opt_is (o : option string) (lit : string) : bool :=
  match o with Some s => String.eqb s lit | None => false end.

(** [o?.includes(pat)], [undefined] being falsy. *)
Definition opt_includes (o : option string) (pat : string) : bool :=
  match o with Some s => includes s pat | None => false end.

(** [path.join(a, b, ...)] on already normalised segments. *)
Fixpoint path_join (segments : list string) : string :=
  match segments with
  | [] => "."
  | [s] => s
  | s :: rest => s +:+ "/" +:+ path_join rest
  end.

(** ** utils/errorHandler.ts *)

Module ErrorHandler.

(** The subclasses of [AppError]; [CAppError] is the base class itself. *)
Inductive ErrorClass :=
| CAppError
| CValidationError
| CServiceUnavailableError
| CRateLimitError
| CAuthenticationError
| CResourceNotFoundError
| CProcessingTimeoutError.

(** [ErrorContext]. *)
Record ErrorContext := mkErrorContext {
  ec_sessionId : option string;
  ec_stage : option string;
  ec_service : option string;
  ec_attempt : option Z
}.

(** The [context?: any] of an [AppError]: the keys the code ever puts
    there. *)
Record Context := mkContext {
  ctx_reason : option string;
  ctx_originalError : option string;
  ctx_retryAfter : option Z;
  ctx_timeout : option Z;
  ctx_stage : option string;
  ctx_path : option string;
  ctx_service : option string;
  ctx_sessionId : option string;
  ctx_attempt : option Z
}.

Definition emptyContext : Context :=
  mkContext None None None None None None None None None.

(** An [ErrorContext] used as an [AppError] context. *)
Definition contextOf (c : ErrorContext) : Context :=
  mkContext None None None None (ec_stage c) None (ec_service c)
            (ec_sessionId c) (ec_attempt c).

Record AppError := mkAppError {
  cls : ErrorClass;
  message : string;
  statusCode : Z;
  isOperational : bool;
  retryable : bool;
  context : option Context
}.

(** An error value that is not an [AppError]: the fields the code reads. *)
Record RawError := mkRawError {
  code : option string;
  raw_message : option string;
  retry_after : option Z;
  raw_path : option string;
  response_status : option Z
}.

(** [new Error(msg)]. *)
Definition newError (msg : string) : RawError :=
  mkRawError None (Some msg) None None None.

(** What a [throw] carries. [TNullish] is [undefined] or [null]: the
    retry loops throw their [lastError] variable, which holds it when the
    loop body never ran. *)
Inductive Thrown :=
| TApp (e : AppError)
| TRaw (e : RawError)
| TNullish.

(** [error.message] as [error instanceof Error ? error.message :
    String(error)] reads it. *)
Definition messageOf (t : Thrown) : string :=
  match t with
  | TApp e => message e
  | TRaw e => default "undefined" (raw_message e)
  | TNullish => "undefined"
  end.

(** The constructors of the subclasses. *)
Definition ValidationError (msg : string) (ctx : option Context) : AppError :=
  mkAppError CValidationError msg 400 true false ctx.

Definition ServiceUnavailableError (service : string) (details : option Context) : AppError :=
  mkAppError CServiceUnavailableError
    (service +:+ " service is currently unavailable") 503 true true details.

Definition RateLimitError (service : string) (retryAfter : option Z) : AppError :=
  mkAppError CRateLimitError ("Rate limit exceeded for " +:+ service) 429 true true
    (Some (mkContext None None retryAfter None None None None None None)).

Definition AuthenticationError (service : string) : AppError :=
  mkAppError CAuthenticationError ("Authentication failed for " +:+ service)
    401 true false None.

Definition ResourceNotFoundError (resource : string) (id : option string) : AppError :=
  mkAppError CResourceNotFoundError
    (resource
     +:+ (match id with
          | Some i => if truthy i then " with ID " +:+ i else ""
          | None => ""
          end)
     +:+ " not found")
    404 true false None.

Definition ProcessingTimeoutError (stage : string) (timeout : Z) : AppError :=
  mkAppError CProcessingTimeoutError
    ("Processing timeout after " +:+ pretty timeout +:+ "ms in stage: " +:+ stage)
    408 true true
    (Some (mkContext None None None (Some timeout) (Some stage) None None None None)).

(** [{ reason, originalError: error.message }]. *)
Definition details (reason : string) (e : RawError) : option Context :=
  Some (mkContext (Some reason) (raw_message e) None None None None None None None).

(** [x || dflt] for an optional string. *)
Definition or_default (o : option string) (dflt : string) : string :=
  match o with
  | Some s => if truthy s then s else dflt
  | None => dflt
  end.

(** The conditions of [handleServiceError], in the order it tests them. *)
Definition isOpenAIQuota (e : RawError) : bool := opt_is (code e) "insufficient_quota".
Definition isOpenAIRateLimit (e : RawError) : bool := opt_is (code e) "rate_limit_exceeded".
Definition isPredictionFailed (e : RawError) : bool :=
  opt_includes (raw_message e) "prediction failed".
Definition isQuotaMessage (e : RawError) : bool := opt_includes (raw_message e) "quota".
Definition isNetworkError (e : RawError) : bool :=
  opt_is (code e) "ENOTFOUND" || opt_is (code e) "ECONNREFUSED".
Definition isTimeout (e : RawError) : bool :=
  opt_is (code e) "ETIMEDOUT" || opt_includes (raw_message e) "timeout".
Definition isFFmpegError (e : RawError) : bool :=
  opt_includes (raw_message e) "ffmpeg" || opt_includes (raw_message e) "ffprobe".
Definition isNotFound (e : RawError) : bool := opt_is (code e) "ENOENT".
Definition isPermissionError (e : RawError) : bool :=
  opt_is (code e) "EACCES" || opt_is (code e) "EPERM".
Definition isDiskFull (e : RawError) : bool := opt_is (code e) "ENOSPC".
Definition isGenericRetryable (e : RawError) : bool :=
  opt_includes (raw_message e) "502"
  || opt_includes (raw_message e) "503"
  || opt_includes (raw_message e) "504"
  || opt_includes (raw_message e) "temporary".

Definition handleServiceError (error : RawError) (context : ErrorContext) : AppError :=
  (* OpenAI specific errors *)
  if isOpenAIQuota error then
    ServiceUnavailableError "OpenAI" (details "quota_exceeded" error)
  else if isOpenAIRateLimit error then
    RateLimitError "OpenAI" (retry_after error)
  (* Replicate/Kling specific errors *)
  else if isPredictionFailed error then
    ServiceUnavailableError "Kling Video Generation" (details "prediction_failed" error)
  (* ElevenLabs specific errors *)
  else if isQuotaMessage error then
    ServiceUnavailableError "ElevenLabs" (details "quota_exceeded" error)
  (* Network/timeout errors *)
  else if isNetworkError error then
    ServiceUnavailableError (or_default (ec_service context) "External Service")
      (details "network_error" error)
  else if isTimeout error then
    ProcessingTimeoutError (or_default (ec_stage context) "unknown") 30000
  (* FFmpeg specific errors *)
  else if isFFmpegError error then
    mkAppError CAppError "Video processing failed" 500 true true
      (details "ffmpeg_error" error)
  (* File system errors *)
  else if isNotFound error then
    ResourceNotFoundError "File" (raw_path error)
  else if isPermissionError error then
    mkAppError CAppError "File permission denied" 500 true false
      (Some (mkContext (Some "permission_error") None None None None
                       (raw_path error) None None None))
  else if isDiskFull error then
    mkAppError CAppError "Insufficient disk space" 507 true false
      (Some (mkContext (Some "disk_full") None None None None None None None None))
  (* Generic retryable errors *)
  else if isGenericRetryable error then
    mkAppError CAppError (default "" (raw_message error)) 503 true true
      (Some (contextOf context))
  (* Default error handling *)
  else
    mkAppError CAppError (or_default (raw_message error) "An unexpected error occurred")
      500 true false (Some (contextOf context)).

Definition shouldRetry (error : AppError) (attempt maxRetries : Z) : bool :=
  if attempt >=? maxRetries then false
  else if negb (retryable error) then false
  (* Don't retry validation errors *)
  else if match cls error with CValidationError => true | _ => false end then false
  (* Don't retry authentication errors *)
  else if match cls error with CAuthenticationError => true | _ => false end then false
  else true.

Record ErrorSummary := mkErrorSummary {
  es_message : string;
  es_type : ErrorClass;
  es_retryable : bool;
  es_context : option Context;
  es_suggestions : option (list string)
}.

Definition createErrorSummary (error : AppError) : ErrorSummary :=
  let s1 := match cls error with
            | CServiceUnavailableError =>
                ["Check service status and API quotas"; "Try again in a few minutes"]
            | _ => []
            end in
  let s2 := match cls error with
            | CRateLimitError =>
                ["Wait for rate limit to reset"; "Consider upgrading your API plan"]
            | _ => []
            end in
  let s3 := match cls error with
            | CProcessingTimeoutError =>
                ["Try with fewer scenes or shorter content"; "Check your internet connection"]
            | _ => []
            end in
  let s4 := if includes (message error) "ffmpeg"
            then ["Ensure FFmpeg is properly installed"; "Check video file formats and codecs"]
            else [] in
  let s5 := if includes (message error) "quota" || includes (message error) "limit"
            then ["Check API key quotas and billing"; "Try again later when quotas reset"]
            else [] in
  let suggestions := (s1 ++ s2 ++ s3 ++ s4 ++ s5)%list in
  mkErrorSummary (message error) (cls error) (retryable error) (context error)
    (match suggestions with [] => None | _ => Some suggestions end).

(** [recoveryStrategies]: the [canRecover] tests. Each strategy's
    [recover] only logs, so it never throws. *)
Record RecoveryStrategy := mkRecoveryStrategy {
  rs_name : string;
  canRecover : AppError -> bool
}.

Definition recoveryStrategies : list RecoveryStrategy :=
  [ mkRecoveryStrategy "cleanup-temp-files"
      (fun error => includes (message error) "disk space" || includes (message error) "ENOSPC");
    mkRecoveryStrategy "fallback-generation"
      (fun error =>
         match cls error with
         | CServiceUnavailableError =>
             match context error with
             | Some c => opt_is (ctx_service c) "video"
             | None => false
             end
         | _ => false
         end);
    mkRecoveryStrategy "reduce-quality"
      (fun error => match cls error with CProcessingTimeoutError => true | _ => false end) ].

(** [attemptRecovery]: the first strategy that can recover runs (and,
    only logging, succeeds). *)
Fixpoint attemptRecovery_from (strategies : list RecoveryStrategy) (error : AppError) : bool :=
  match strategies with
  | [] => false
  | strategy :: rest =>
      if canRecover strategy error then true else attemptRecovery_from rest error
  end.

Definition attemptRecovery (error : AppError) : bool :=
  attemptRecovery_from recoveryStrategies error.

End ErrorHandler.
Export ErrorHandler.

(** ** Outcomes and the monad of effectful code *)

Inductive Outcome (A : Type) :=
| Ok (a : A)
| Throw (t : Thrown).

Arguments Ok {A} a.
Arguments Throw {A} t.

(** A computation over a state [S]: it returns or throws, and leaves a
    state either way. *)
Definition M (S A : Type) : Type := S -> Outcome A * S.

Definition ret {S A} (a : A) : M S A := fun s => (Ok a, s).

Definition throw {S A} (t : Thrown) : M S A := fun s => (Throw t, s).

Definition bind {S A B} (m : M S A) (k : A -> M S B) : M S B :=
  fun s =>
    match m s with
    | (Ok a, s') => k a s'
    | (Throw t, s') => (Throw t, s')
    end.

(** [try { m } catch (error) { handler(error) }]. *)
Definition try_catch {S A} (m : M S A) (handler : Thrown -> M S A) : M S A :=
  fun s =>
    match m s with
    | (Ok a, s') => (Ok a, s')
    | (Throw t, s') => handler t s'
    end.

Definition get {S} : M S S := fun s => (Ok s, s).

Definition modify {S} (f : S -> S) : M S unit := fun s => (Ok tt, f s).

Notation "'let*' x ':=' m 'in' k" := (bind m (fun x => k))
  (at level 10, x binder, m at level 100, k at level 200).

(** ** utils/retry.ts *)

Module Retry.

Record RetryOptions := mkRetryOptions {
  maxAttempts : Z;
  baseDelayMs : Z;
  maxDelayMs : Z;
  backoffMultiplier : Q;
  retryableErrors : option (Thrown -> bool)
}.

(** [Partial<RetryOptions>]: any key may be missing. *)
Record PartialRetryOptions := mkPartialRetryOptions {
  p_maxAttempts : option Z;
  p_baseDelayMs : option Z;
  p_maxDelayMs : option Z;
  p_backoffMultiplier : option Q;
  p_retryableErrors : option (Thrown -> bool)
}.

(** [error?.code] and [error?.response?.status]: an [AppError] has
    neither key. *)
Definition codeOf (error : Thrown) : option string :=
  match error with TRaw e => code e | _ => None end.

Definition responseStatusOf (error : Thrown) : option Z :=
  match error with TRaw e => response_status e | _ => None end.

(** [status >= n] and [status === n], false on [undefined]. *)
Definition status_ge (o : option Z) (n : Z) : bool :=
  match o with Some st => st >=? n | None => false end.

Definition status_is (o : option Z) (n : Z) : bool :=
  match o with Some st => st =? n | None => false end.

Definition DEFAULT_RETRY_OPTIONS : RetryOptions :=
  mkRetryOptions 3 1000 30000 2
    (Some (fun error =>
       (* Default: retry on network errors, timeouts, and 5xx status codes *)
       if opt_is (codeOf error) "ECONNRESET" || opt_is (codeOf error) "ETIMEDOUT" then true
       else if status_ge (responseStatusOf error) 500 then true
       else if status_is (responseStatusOf error) 429 then true
       else false)).

(** [{ ...DEFAULT_RETRY_OPTIONS, ...options }]. *)
Definition mergeOptions (options : PartialRetryOptions) : RetryOptions :=
  mkRetryOptions
    (default (maxAttempts DEFAULT_RETRY_OPTIONS) (p_maxAttempts options))
    (default (baseDelayMs DEFAULT_RETRY_OPTIONS) (p_baseDelayMs options))
    (default (maxDelayMs DEFAULT_RETRY_OPTIONS) (p_maxDelayMs options))
    (default (backoffMultiplier DEFAULT_RETRY_OPTIONS) (p_backoffMultiplier options))
    (match p_retryableErrors options with
     | Some p => Some p
     | None => retryableErrors DEFAULT_RETRY_OPTIONS
     end).

(** The delay before the next attempt, before jitter:
    [Math.min(baseDelayMs * Math.pow(backoffMultiplier, attempt - 1), maxDelayMs)]. *)
Definition backoffDelay (opts : RetryOptions) (attempt : Z) : Q :=
  Qmin (inject_Z (baseDelayMs opts) * Qpower (backoffMultiplier opts) (attempt - 1))
       (inject_Z (maxDelayMs opts)).

(** [opts.retryableErrors ? opts.retryableErrors(error) : true]. *)
Definition isRetryable (opts : RetryOptions) (error : Thrown) : bool :=
  match retryableErrors opts with
  | Some p => p error
  | None => true
  end.

(** The [for] loop of [withRetry], [n] iterations from [attempt] on;
    leaving the loop (by [break] or by its condition) is followed by
    [throw lastError]. *)
Fixpoint withRetry_loop {S T} (operation : M S T) (opts : RetryOptions)
    (n : nat) (attempt : Z) (lastError : Thrown) : M S T :=
  match n with
  | O => throw lastError
  | Datatypes.S n' =>
      try_catch operation (fun error =>
        let isLastAttempt := attempt =? maxAttempts opts in
        if negb (isRetryable opts error) || isLastAttempt then throw error
        else withRetry_loop operation opts n' (attempt + 1) error)
  end.

(** [for (let attempt = 1; attempt <= opts.maxAttempts; attempt++)] runs
    [maxAttempts] times (not at all when [maxAttempts < 1]). *)
Definition withRetry {S T} (operation : M S T) (options : PartialRetryOptions) : M S T :=
  let opts := mergeOptions options in
  withRetry_loop operation opts (Z.to_nat (maxAttempts opts)) 1 TNullish.

Definition noOptions : PartialRetryOptions :=
  mkPartialRetryOptions None None None None None.

Definition OPENAI_RETRY_OPTIONS : PartialRetryOptions :=
  mkPartialRetryOptions (Some 3) (Some 2000) None None
    (Some (fun error =>
       if status_is (responseStatusOf error) 429 then true (* Rate limit *)
       else if status_ge (responseStatusOf error) 500 then true (* Server errors *)
       else if opt_is (codeOf error) "ECONNRESET" then true (* Connection reset *)
       else false)).

Definition REPLICATE_RETRY_OPTIONS : PartialRetryOptions :=
  mkPartialRetryOptions (Some 3) (Some 5000) (Some 60000) None
    (Some (fun error =>
       if status_is (responseStatusOf error) 429 then true (* Rate limit *)
       else if status_ge (responseStatusOf error) 500 then true (* Server errors *)
       else if status_is (responseStatusOf error) 503 then true (* Service unavailable *)
       else false)).

Definition ELEVENLABS_RETRY_OPTIONS : PartialRetryOptions :=
  mkPartialRetryOptions (Some 3) (Some 3000) None None
    (Some (fun error =>
       if status_is (responseStatusOf error) 429 then true (* Rate limit *)
       else if status_ge (responseStatusOf error) 500 then true (* Server errors *)
       else false)).

End Retry.
Export Retry.

(** ** The stage-level retry of services/videoGenerator.ts *)

Module StageRetry.

(** [error instanceof AppError ? error : handleServiceError(error, context)].
    [handleServiceError] reads [error.message] first, which is a
    [TypeError] on [undefined] or [null]. *)
Definition classify {S} (error : Thrown) (context : ErrorContext) : M S AppError :=
  match error with
  | TApp appError => ret appError
  | TRaw e => ret (handleServiceError e context)
  | TNullish =>
      throw (TRaw (newError "Cannot read properties of undefined (reading 'message')"))
  end.

(** The [for] loop of [executeWithRetry], [n] iterations from [attempt]
    on, followed by [throw lastError]. *)
Fixpoint executeWithRetry_loop {S T} (operation : M S T) (stage sessionId : string)
    (maxRetries : Z) (n : nat) (attempt : Z) (lastError : Thrown) : M S T :=
  match n with
  | O => throw lastError
  | Datatypes.S n' =>
      try_catch operation (fun error =>
        let* appError :=
          classify error (mkErrorContext (Some sessionId) (Some stage) None (Some attempt)) in
        (* Check if we should retry *)
        if negb (shouldRetry appError attempt maxRetries) then throw (TApp appError)
        else executeWithRetry_loop operation stage sessionId maxRetries n' (attempt + 1)
               (TApp appError))
  end.

Definition executeWithRetry {S T} (operation : M S T) (stage sessionId : string)
    (maxRetries : Z) : M S T :=
  executeWithRetry_loop operation stage sessionId maxRetries (Z.to_nat maxRetries) 1 TNullish.

End StageRetry.
Export StageRetry.

(** ** types/index.ts and services/sessionManager.ts *)

Module SessionManager.

Inductive SessionStatus := pending | processing | completed | failed.

Inductive ProcessingStage := prompts | images | videos | audio | merge.

(** [StageStatus['status']]. *)
Inductive StageState := st_pending | st_processing | st_completed | st_error.

Inductive ImageProvider := ideogram | nano_banana.

Inductive OutputFormat := png | jpg.

Record ImageGenerationOptions := mkImageGenerationOptions {
  provider : ImageProvider;
  outputFormat : option OutputFormat;
  includeOriginalAnchor : option bool
}.

Record GenerationRequest := mkGenerationRequest {
  sceneCount : Z;
  description : string;
  includeVoiceover : bool;
  includeMusic : bool;
  imageOptions : option ImageGenerationOptions
}.

Record StageStatus := mkStageStatus {
  ss_stage : ProcessingStage;
  ss_status : StageState;
  ss_message : option string;
  ss_progress : option Z;
  startTime : option string;
  endTime : option string;
  ss_error : option string;
  retryCount : option Z
}.

(** [GenerationSession], with the [errorDetails] key that
    [updateSessionStatus] adds; [metadata] is never written and is left
    out. *)
Record GenerationSession := mkGenerationSession {
  sessionId : string;
  request : GenerationRequest;
  characterImagePath : string;
  status : SessionStatus;
  stages : list StageStatus;
  currentStage : option ProcessingStage;
  createdAt : string;
  updatedAt : string;
  error : option string;
  finalVideoPath : option string;
  errorDetails : option ErrorSummary
}.

Global Instance ProcessingStage_eq_dec : EqDecision ProcessingStage.
Proof. solve_decision. Defined.

Global Instance StageState_eq_dec : EqDecision StageState.
Proof. solve_decision. Defined.

Global Instance SessionStatus_eq_dec : EqDecision SessionStatus.
Proof. solve_decision. Defined.

(** [{ stage, status: 'pending' }]. *)
Definition pendingStage (stage : ProcessingStage) : StageStatus :=
  mkStageStatus stage st_pending None None None None None None.

(** [arr.findIndex(p)], [None] for [-1]. *)
Fixpoint findIndex {A} (p : A -> bool) (l : list A) : option nat :=
  match l with
  | [] => None
  | x :: rest => if p x then Some O else Datatypes.S <$> findIndex p rest
  end.

(** The session object that [createSession] builds, [sessionId] being
    [uuidv4()] and [timestamp] being [new Date().toISOString()]. *)
Definition newSession (sessionId timestamp : string) (request : GenerationRequest)
    (characterImagePath : string) : GenerationSession :=
  (* Initialize all stages as pending *)
  let stages := [pendingStage prompts; pendingStage images; pendingStage videos] in
  (* Add audio stage if either voiceover or music is requested *)
  let stages :=
    if includeVoiceover request || includeMusic request
    then (stages ++ [pendingStage audio])%list
    else stages in
  (* Merge is always last *)
  let stages := (stages ++ [pendingStage merge])%list in
  mkGenerationSession sessionId request characterImagePath pending stages None
    timestamp timestamp None None None.

Definition createSession (sessionId timestamp : string) (request : GenerationRequest)
    (characterImagePath : string) (sessions : gmap string GenerationSession)
    : GenerationSession * gmap string GenerationSession :=
  let session := newSession sessionId timestamp request characterImagePath in
  (session, <[sessionId := session]> sessions).

Definition getSession (sessionId : string) (sessions : gmap string GenerationSession)
    : option GenerationSession :=
  sessions !! sessionId.

(** [updateSessionStatus] at time [timestamp]. The session object is
    mutated in place: the map holds the new value under the same key. *)
Definition updateSessionStatus (sessionId : string) (newStatus : SessionStatus)
    (err : option string) (details : option ErrorSummary) (timestamp : string)
    (sessions : gmap string GenerationSession) : gmap string GenerationSession :=
  match sessions !! sessionId with
  | None => sessions
  | Some session =>
      let withError := truthy_opt err in
      <[sessionId :=
          mkGenerationSession (SessionManager.sessionId session) (request session)
            (characterImagePath session) newStatus (stages session)
            (currentStage session) (createdAt session) timestamp
            (if withError then err else error session)
            (finalVideoPath session)
            (if withError
             then match details with Some d => Some d | None => errorDetails session end
             else errorDetails session)]> sessions
  end.

(** The writes of [updateStageStatus] to the stage record found. *)
Definition updateStage (stageStatus : StageStatus) (newStatus : StageState)
    (message : option string) (progress : option Z) (err : option string)
    (timestamp : string) : StageStatus :=
  let setStart :=
    bool_decide (newStatus = st_processing) && negb (truthy_opt (startTime stageStatus)) in
  let setEnd :=
    negb setStart
    && (bool_decide (newStatus = st_completed) || bool_decide (newStatus = st_error)) in
  mkStageStatus (ss_stage stageStatus) newStatus message progress
    (if setStart then Some timestamp else startTime stageStatus)
    (if setEnd then Some timestamp else endTime stageStatus)
    err (retryCount stageStatus).

(** The writes of [updateStageStatus] to the session's [currentStage]. *)
Definition updateCurrentStage (session : GenerationSession) (stageStatus : StageStatus)
    (stage : ProcessingStage) (newStatus : StageState) : option ProcessingStage :=
  if bool_decide (newStatus = st_processing) && negb (truthy_opt (startTime stageStatus))
  then Some stage
  else if bool_decide (newStatus = st_completed) || bool_decide (newStatus = st_error)
  then
    (* Clear current stage if this stage is done *)
    if bool_decide (currentStage session = Some stage) then None else currentStage session
  else currentStage session.

Definition updateStageStatus (sessionId : string) (stage : ProcessingStage)
    (newStatus : StageState) (message : option string) (progress : option Z)
    (err : option string) (timestamp : string)
    (sessions : gmap string GenerationSession) : gmap string GenerationSession :=
  match sessions !! sessionId with
  | None => sessions
  | Some session =>
      match findIndex (fun s => bool_decide (ss_stage s = stage)) (stages session) with
      | None => sessions
      | Some stageIndex =>
          match stages session !! stageIndex with
          | None => sessions
          | Some stageStatus =>
              <[sessionId :=
                  mkGenerationSession (SessionManager.sessionId session) (request session)
                    (characterImagePath session) (status session)
                    (<[stageIndex :=
                         updateStage stageStatus newStatus message progress err timestamp]>
                       (stages session))
                    (updateCurrentStage session stageStatus stage newStatus)
                    (createdAt session) timestamp (error session)
                    (finalVideoPath session) (errorDetails session)]> sessions
          end
      end
  end.

Definition updateSessionFinalVideo (sessionId videoPath timestamp : string)
    (sessions : gmap string GenerationSession) : gmap string GenerationSession :=
  match sessions !! sessionId with
  | None => sessions
  | Some session =>
      <[sessionId :=
          mkGenerationSession (SessionManager.sessionId session) (request session)
            (characterImagePath session) (status session) (stages session)
            (currentStage session) (createdAt session) timestamp (error session)
            (Some videoPath) (errorDetails session)]> sessions
  end.

(** A JS number that may be [NaN]. *)
Inductive jsnum := JNum (z : Z) | JNaN.

(** [Math.round((completed / total) * 100)]: [NaN] for [0 / 0], and
    otherwise the integer nearest to the quotient, halves rounded up. *)
Definition roundPercent (completedStages totalStages : Z) : jsnum :=
  if totalStages =? 0 then JNaN
  else JNum ((200 * completedStages + totalStages) / (2 * totalStages)).

Record Progress := mkProgress {
  progress : jsnum;
  pg_currentStage : option ProcessingStage
}.

Definition getSessionProgress (sessionId : string)
    (sessions : gmap string GenerationSession) : Progress :=
  match sessions !! sessionId with
  | None => mkProgress (JNum 0) None
  | Some session =>
      let totalStages := Z.of_nat (length (stages session)) in
      let completedStages :=
        Z.of_nat (length (filter (fun s => ss_status s = st_completed) (stages session))) in
      mkProgress (roundPercent completedStages totalStages) (currentStage session)
  end.

Definition getSessionCount (sessions : gmap string GenerationSession) : nat :=
  size sessions.

(** The status record of [stage] in session [sessionId], as
    [session.stages.find(s => s.stage === stage)]. *)
Definition stageOf (sessions : gmap string GenerationSession) (sessionId : string)
    (stage : ProcessingStage) : option StageStatus :=
  match sessions !! sessionId with
  | None => None
  | Some session =>
      List.find (fun s => bool_decide (ss_stage s = stage)) (stages session)
  end.

End SessionManager.
Export SessionManager.

(** ** The world outside the process *)

Module World.

(** What [fs.readFile] returns, tagged with the path it was read from, so
    that a property can name the file a model input came from. *)
Record Buffer := mkBuffer {
  buf_path : string;
  buf_bytes : string
}.

(** The [input] of [client.run(model, { input })]. The constant keys of
    the Ideogram input are left out. *)
Inductive ModelInput :=
| NanoBananaInput (prompt : string) (image_input : list Buffer) (output_format : OutputFormat)
| IdeogramInput (prompt : string) (character_reference_image : Buffer).

(** What [client.run] resolves to, by the cases the code tells apart. *)
Inductive ModelOutput :=
| OutNullish
| OutString (s : string)
| OutArray (items : list string)
| OutFile (url : string)      (* an object whose [url] is a function *)
| OutUrl (url : string)       (* an object whose [url] is a value *)
| OutOther.

Record FetchResponse := mkFetchResponse {
  ok : bool;
  resp_status : Z;
  statusText : string;
  body : string
}.

(** [ScenePrompts] and [GeneratedPrompts] of types/index.ts. *)
Record ScenePrompts := mkScenePrompts {
  sceneNumber : Z;
  imagePrompt : string;
  videoPrompt : string
}.

Record GeneratedPrompts := mkGeneratedPrompts {
  scenePrompts : list ScenePrompts;
  voiceoverScript : option string;
  musicPrompt : option string
}.

(** The value of a JSON key that the code expects to hold a number. *)
Inductive JsVal := JUndefined | JNumber (z : Z) | JString (s : string).

(** What [JSON.parse(content)] may hold where [GeneratedPrompts] is
    expected: any key may be missing. [pj_scenePrompts] is [None] when
    the key is missing or is not an array. *)
Record SceneJson := mkSceneJson {
  sj_sceneNumber : JsVal;
  sj_imagePrompt : option string;
  sj_videoPrompt : option string
}.

Record PromptsJson := mkPromptsJson {
  pj_scenePrompts : option (list SceneJson);
  pj_voiceoverScript : option string;
  pj_musicPrompt : option string
}.

(** [JSON.parse(content)]: a [SyntaxError], [null], or a value. *)
Inductive ParseResult :=
| ParseError (msg : string)
| ParsedNull
| Parsed (value : PromptsJson).

(** The [audioPaths] object and the artifacts.json document. *)
Record AudioPaths := mkAudioPaths {
  voiceoverPaths : option (list string);
  musicPath : option string
}.

Record Artifacts := mkArtifacts {
  a_sessionId : option string;
  a_timestamp : option string;
  a_prompts : option GeneratedPrompts;
  a_imagePaths : option (list string);
  a_videoPaths : option (list string);
  a_audioPaths : option AudioPaths;
  a_finalVideoPath : option string
}.

Definition noArtifacts : Artifacts := mkArtifacts None None None None None None None.

(** One audio filter of the graph that [buildAudioMixFilter] writes. *)
Inductive AudioFilter :=
| FVolume (input : string) (volume : Q) (output : string)
    (* [input]aresample=async=1,volume=v[output] *)
| FAmix (inputs : list string) (output : string)
    (* inputs amix=inputs=n:normalize=0 [output] *)
| FAnull (input output : string).

(** One step of the crossfade chain:
    prev next xfade=transition=fade:duration=d:offset=o out. *)
Record XfadeStep := mkXfadeStep {
  xf_prev : string;
  xf_next : string;
  xf_duration : Q;
  xf_offset : Q;
  xf_output : string
}.

(** The video filter of [concatenateVideos]. *)
Inductive VideoFilter :=
| VConcat (inputs : list string) (n : nat)       (* inputs concat=n=N:v=1:a=0[outv] *)
| VNull                                           (* [0:v]null[outv] *)
| VXfade (steps : list XfadeStep).

(** The command handed to FFmpeg. *)
Record FFmpegCommand := mkFFmpegCommand {
  ff_inputs : list string;
  ff_videoFilter : option VideoFilter;
  ff_audioFilters : list AudioFilter;
  ff_maps : list string;
  ff_resolution : option string;
  ff_output : string
}.

Inductive FFmpegResult :=
| FFEnd (bytes : string)       (* the 'end' event: the output file is written *)
| FFError (msg : string).      (* the 'error' event *)

(** The input of the Fal.ai Kling call. *)
Record KlingInput := mkKlingInput {
  image_url : Buffer;
  kling_prompt : option string;
  kling_duration : string
}.

Inductive FsOp :=
| OpEnsureDir (path : string)
| OpReadFile (path : string)
| OpWriteFile (path : string)
| OpReadJson (path : string)
| OpWriteJson (path : string)
| OpCopy (src dst : string).

(** The calls made to the outside, as a fake of each collaborator would
    record them. *)
Inductive Event :=
| EvClock
| EvFs (op : FsOp)
| EvOpenAI (sceneCount : Z) (description : string) (includeVoiceover includeMusic : bool)
| EvImageModel (model : string) (input : ModelInput)
| EvFetch (url : string)
| EvKling (input : KlingInput)
| EvMusic (prompt : string) (musicLengthMs : Z)
| EvProbe (path : string)
| EvFFmpeg (command : FFmpegCommand).

(** The state outside the session store: binary files, JSON documents,
    and the calls made so far, newest first. *)
Record Ext := mkExt {
  files : gmap string string;
  docs : gmap string Artifacts;
  events : list Event
}.

(** The configuration and the behaviour of every collaborator. Each
    answer may depend on the state at the time of the call, so the same
    call may fail now and succeed later. *)
Record Env := mkEnv {
  imagesDir : string;
  videoDir : string;
  runsDir : string;
  cwd : string;
  sceneDurationSeconds : Z;
  uuidv4 : Ext -> string;
  toISOString : Ext -> string;
  fs_fault : Ext -> FsOp -> option RawError;
  chat_completions_create : Ext -> Z -> string -> bool -> bool -> RawError + option string;
  JSON_parse : string -> ParseResult;
  client_run : Ext -> string -> ModelInput -> RawError + ModelOutput;
  fetch : Ext -> string -> RawError + FetchResponse;
  fal_subscribe : Ext -> KlingInput -> RawError + option string;
  music_compose : Ext -> string -> Z -> RawError + option string;
  ffprobe : Ext -> string -> RawError + bool;
  ffmpeg_run : Ext -> FFmpegCommand -> FFmpegResult
}.

Definition logEvent (ev : Event) (x : Ext) : Ext :=
  mkExt (files x) (docs x) (ev :: events x).

Definition writeBytes (path bytes : string) (x : Ext) : Ext :=
  mkExt (<[path := bytes]> (files x)) (docs x) (events x).

Definition writeDoc (path : string) (doc : Artifacts) (x : Ext) : Ext :=
  mkExt (files x) (<[path := doc]> (docs x)) (events x).

(** The error of an fs call on a path that does not exist. *)
Definition ENOENT (path : string) : RawError :=
  mkRawError (Some "ENOENT")
    (Some ("ENOENT: no such file or directory, open '" +:+ path +:+ "'"))
    None (Some path) None.

Section Calls.
Context (env : Env).

(** A call whose answer the environment decides: it is logged, and the
    answer is read off the state before the call. *)
Definition call {A} (ev : Event) (answer : Ext -> RawError + A) : M Ext A :=
  fun x =>
    match answer x with
    | inl e => (Throw (TRaw e), logEvent ev x)
    | inr a => (Ok a, logEvent ev x)
    end.

(** [new Date().toISOString()] and [uuidv4()]. *)
Definition newTimestamp : M Ext string :=
  fun x => (Ok (toISOString env x), logEvent EvClock x).

Definition newUuid : M Ext string :=
  fun x => (Ok (uuidv4 env x), logEvent EvClock x).

(** An fs call: the environment may make it fail; otherwise it does
    [effect]. *)
Definition fsCall {A} (op : FsOp) (effect : Ext -> Outcome A * Ext) : M Ext A :=
  fun x =>
    match fs_fault env x op with
    | Some e => (Throw (TRaw e), logEvent (EvFs op) x)
    | None => effect (logEvent (EvFs op) x)
    end.

Definition ensureDir (path : string) : M Ext unit :=
  fsCall (OpEnsureDir path) (fun x => (Ok tt, x)).

Definition readFile (path : string) : M Ext Buffer :=
  fsCall (OpReadFile path) (fun x =>
    match files x !! path with
    | Some bytes => (Ok (mkBuffer path bytes), x)
    | None => (Throw (TRaw (ENOENT path)), x)
    end).

Definition writeFile (path bytes : string) : M Ext unit :=
  fsCall (OpWriteFile path) (fun x => (Ok tt, writeBytes path bytes x)).

Definition readJson (path : string) : M Ext Artifacts :=
  fsCall (OpReadJson path) (fun x =>
    match docs x !! path with
    | Some doc => (Ok doc, x)
    | None => (Throw (TRaw (ENOENT path)), x)
    end).

Definition writeJson (path : string) (doc : Artifacts) : M Ext unit :=
  fsCall (OpWriteJson path) (fun x => (Ok tt, writeDoc path doc x)).

Definition copy (src dst : string) : M Ext unit :=
  fsCall (OpCopy src dst) (fun x =>
    match files x !! src with
    | Some bytes => (Ok tt, writeBytes dst bytes x)
    | None => (Throw (TRaw (ENOENT src)), x)
    end).

(** [fs.existsSync(path)]. *)
Definition existsSync (x : Ext) (path : string) : bool :=
  bool_decide (is_Some (files x !! path)).

End Calls.

End World.
Export World.

(** ** services/image.ts *)

Module ImageService.

Section ImageService.
Context (env : Env).

(** [path.join(config.imagesDir, sessionId, `scene-${sceneNumber}.png`)]. *)
Definition sceneImagePath (sessionId : string) (sceneNumber : nat) : string :=
  path_join [imagesDir env; sessionId; "scene-" +:+ pretty sceneNumber +:+ ".png"].

(** [path.dirname(outputPath)]. *)
Definition sceneImageDir (sessionId : string) : string :=
  path_join [imagesDir env; sessionId].

(** The URL in the output of the image model. *)
Definition extractUrl (output : ModelOutput) : M Ext string :=
  match output with
  | OutNullish =>
      throw (TRaw (newError "Invalid output from image model API - no output received"))
  | OutString s =>
      if truthy s then ret s
      else throw (TRaw (newError "Invalid output from image model API - no output received"))
  | OutArray (first :: _) => ret first
  | OutFile url => ret url
  | OutUrl url =>
      if truthy url then ret url
      else throw (TRaw (newError "Unable to extract URL from image model API output"))
  | OutArray [] | OutOther =>
      throw (TRaw (newError "Unable to extract URL from image model API output"))
  end.

(** The operation that [generateSingleSceneImage] hands to [withRetry]. *)
Definition runImageModel (scenePrompt : ScenePrompts)
    (referenceImagePath originalCharacterImagePath : string)
    (options : ImageGenerationOptions) : M Ext string :=
  let* referenceImageBuffer := readFile env referenceImagePath in
  let* originalAnchorBuffer :=
    match includeOriginalAnchor options with
    | Some true =>
        let* b := readFile env originalCharacterImagePath in ret (Some b)
    | _ => ret None
    end in
  let '(model, input) :=
    match provider options with
    | nano_banana =>
        ("google/nano-banana",
         NanoBananaInput (imagePrompt scenePrompt)
           (match originalAnchorBuffer with
            | Some anchor => [referenceImageBuffer; anchor]
            | None => [referenceImageBuffer]
            end)
           (default png (outputFormat options)))
    | ideogram =>
        ("ideogram-ai/ideogram-character",
         IdeogramInput (imagePrompt scenePrompt) referenceImageBuffer)
    end in
  let* output := call (EvImageModel model input) (fun x => client_run env x model input) in
  extractUrl output.

Definition generateSingleSceneImage (scenePrompt : ScenePrompts)
    (referenceImagePath originalCharacterImagePath sessionId : string)
    (sceneNumber : nat) (options : ImageGenerationOptions) : M Ext string :=
  let outputPath := sceneImagePath sessionId sceneNumber in
  let* _ := ensureDir env (sceneImageDir sessionId) in
  let* imageUrl :=
    withRetry
      (runImageModel scenePrompt referenceImagePath originalCharacterImagePath options)
      REPLICATE_RETRY_OPTIONS in
  (* Download the generated image *)
  let* response := call (EvFetch imageUrl) (fun x => fetch env x imageUrl) in
  if negb (ok response) then
    throw (TRaw (newError ("Failed to download image: " +:+ pretty (resp_status response)
                           +:+ " " +:+ statusText response)))
  else
    let* _ := writeFile env outputPath (body response) in
    ret outputPath.

(** The loop of [generateSceneImages] from scene index [i] on, with the
    paths generated so far and the current rolling reference. *)
Fixpoint generateSceneImages_from (remaining : list ScenePrompts) (i : nat)
    (imagePaths : list string) (previousImagePath : string)
    (originalCharacterImagePath sessionId : string) (options : ImageGenerationOptions)
    : M Ext (list string) :=
  match remaining with
  | [] => ret imagePaths
  | scene :: rest =>
      let* sceneImagePath :=
        generateSingleSceneImage scene previousImagePath originalCharacterImagePath
          sessionId (i + 1) options in
      (* rolling reference *)
      generateSceneImages_from rest (i + 1) (imagePaths ++ [sceneImagePath])%list
        sceneImagePath originalCharacterImagePath sessionId options
  end.

Definition generateSceneImages (scenePrompts : list ScenePrompts)
    (originalCharacterImagePath sessionId : string) (options : ImageGenerationOptions)
    : M Ext (list string) :=
  (* Start with the uploaded/captured character image *)
  generateSceneImages_from scenePrompts 0 [] originalCharacterImagePath
    originalCharacterImagePath sessionId options.

End ImageService.

End ImageService.
Export ImageService.

(** ** services/openai.ts *)

Module OpenAIService.

(** [`${scene.sceneNumber}`]. *)
Definition renderJsVal (v : JsVal) : string :=
  match v with
  | JUndefined => "undefined"
  | JNumber z => pretty z
  | JString s => s
  end.

(** The loop that validates each scene prompt: the first malformed
    entry throws. *)
Fixpoint validateScenes (scenes : list SceneJson) : RawError + list ScenePrompts :=
  match scenes with
  | [] => inr []
  | scene :: rest =>
      match sj_sceneNumber scene with
      | JNumber n =>
          if truthy_opt (sj_imagePrompt scene) && truthy_opt (sj_videoPrompt scene)
          then
            match validateScenes rest with
            | inl e => inl e
            | inr validated =>
                inr (mkScenePrompts n (default "" (sj_imagePrompt scene))
                       (default "" (sj_videoPrompt scene)) :: validated)
            end
          else inl (newError ("Invalid scene prompt structure for scene "
                              +:+ renderJsVal (sj_sceneNumber scene)))
      | _ => inl (newError ("Invalid scene prompt structure for scene "
                            +:+ renderJsVal (sj_sceneNumber scene)))
      end
  end.

(** The validation of the response structure in [generatePrompts]. *)
Definition validatePrompts (sceneCount : Z) (includeVoiceover includeMusic : bool)
    (parsed : PromptsJson) : RawError + GeneratedPrompts :=
  match pj_scenePrompts parsed with
  | None => inl (newError "Invalid response structure: missing scenePrompts array")
  | Some scenes =>
      if negb (Z.of_nat (length scenes) =? sceneCount) then
        inl (newError ("Expected " +:+ pretty sceneCount +:+ " scenes, got "
                       +:+ pretty (length scenes)))
      else
        (* Validate each scene prompt *)
        match validateScenes scenes with
        | inl e => inl e
        | inr validated =>
            if includeVoiceover && negb (truthy_opt (pj_voiceoverScript parsed)) then
              inl (newError "Voiceover requested but not provided in response")
            else if includeMusic && negb (truthy_opt (pj_musicPrompt parsed)) then
              inl (newError "Music requested but not provided in response")
            else
              inr (mkGeneratedPrompts validated (pj_voiceoverScript parsed)
                     (pj_musicPrompt parsed))
        end
  end.

Section OpenAIService.
Context (env : Env).

(** [generatePrompts]; its outer [catch] logs and rethrows. *)
Definition generatePrompts (sceneCount : Z) (description : string)
    (includeVoiceover includeMusic : bool) (sessionId : string) : M Ext GeneratedPrompts :=
  let* content :=
    call (EvOpenAI sceneCount description includeVoiceover includeMusic)
      (fun x => chat_completions_create env x sceneCount description
                  includeVoiceover includeMusic) in
  if negb (truthy_opt content) then
    throw (TRaw (newError "No content received from OpenAI"))
  else
    match JSON_parse env (default "" content) with
    | ParseError msg =>
        throw (TRaw (newError ("Invalid JSON in OpenAI response: " +:+ msg)))
    | ParsedNull =>
        throw (TRaw (newError "Cannot read properties of null (reading 'scenePrompts')"))
    | Parsed parsed =>
        match validatePrompts sceneCount includeVoiceover includeMusic parsed with
        | inl e => throw (TRaw e)
        | inr generated => ret generated
        end
    end.

End OpenAIService.

End OpenAIService.
Export OpenAIService.

(** ** services/kling.ts *)

Module KlingService.

Section KlingService.
Context (env : Env).

(** The options of the [withRetry] in [generateVideo]. *)
Definition KLING_RETRY_OPTIONS : PartialRetryOptions :=
  mkPartialRetryOptions (Some 3) (Some 3000) (Some 10000) (Some (3 # 2)%Q) None.

(** [generateVideo]: the video URL of the Fal.ai result. *)
Definition generateVideo (imageUrl : Buffer) (prompt : option string) (duration : Z)
    : M Ext string :=
  withRetry
    (let input :=
       mkKlingInput imageUrl prompt
         (if duration =? 5 then "5" else "10") in
     let* url := call (EvKling input) (fun x => fal_subscribe env x input) in
     if truthy_opt url then ret (default "" url)
     else throw (TRaw (newError "No video URL returned from Fal.ai Kling API")))
    KLING_RETRY_OPTIONS.

Definition downloadVideo (videoUrl outputPath : string) : M Ext unit :=
  let* response := call (EvFetch videoUrl) (fun x => fetch env x videoUrl) in
  if negb (ok response) then
    throw (TRaw (newError ("Failed to download video: " +:+ statusText response)))
  else writeFile env outputPath (body response).

Definition videosDir (sessionId : string) : string :=
  path_join [runsDir env; sessionId; "videos"].

Definition sceneVideoPath (sessionId : string) (sceneNumber : nat) : string :=
  path_join [videosDir sessionId; "scene_" +:+ pretty sceneNumber +:+ ".mp4"].

(** The loop of [generateSceneVideos] from scene index [i] on. An
    error of a scene is thrown again as a new [Error] naming the scene. *)
Fixpoint generateSceneVideos_from (remaining : list (option string)) (i : nat)
    (videoUrls : list string) (sceneImagePaths : list string) (sessionId : string)
    (duration : Z) : M Ext (list string) :=
  match remaining with
  | [] => ret videoUrls
  | videoPrompt :: rest =>
      let* videoPath :=
        try_catch
          (let* imageBuffer :=
             match sceneImagePaths !! i with
             | Some imagePath => readFile env imagePath
             | None =>
                 throw (TRaw (newError
                   "The path argument must be of type string. Received undefined"))
             end in
           let* videoUrl := generateVideo imageBuffer videoPrompt duration in
           let videoPath := sceneVideoPath sessionId (i + 1) in
           let* _ := downloadVideo videoUrl videoPath in
           ret videoPath)
          (fun error =>
             throw (TRaw (newError ("Scene " +:+ pretty (i + 1)%nat
                                    +:+ " video generation failed: " +:+ messageOf error))))
      in
      generateSceneVideos_from rest (i + 1) (videoUrls ++ [videoPath])%list
        sceneImagePaths sessionId duration
  end.

(** [generateSceneVideos]; each entry of [scenePrompts] is the scene's
    [videoPrompt], if it has one. *)
Definition generateSceneVideos (scenePrompts : list (option string))
    (sceneImagePaths : list string) (sessionId : string) (duration : Z)
    : M Ext (list string) :=
  let* _ := ensureDir env (videosDir sessionId) in
  generateSceneVideos_from scenePrompts 0 [] sceneImagePaths sessionId duration.

End KlingService.

End KlingService.
Export KlingService.

(** ** services/elevenlabs.ts *)

Module ElevenLabsService.

Section ElevenLabsService.
Context (env : Env).

(** The options of the [withRetry] in [generateMusic]. *)
Definition MUSIC_RETRY_OPTIONS : PartialRetryOptions :=
  mkPartialRetryOptions (Some 3) (Some 2000) (Some 10000) (Some 2%Q) None.

Definition audioDir (sessionId : string) : string :=
  path_join [runsDir env; sessionId; "audio"].

Definition generateMusic (prompt : string) (duration : Z) (outputDir outputPath : string)
    : M Ext string :=
  withRetry
    (let* musicTrack :=
       call (EvMusic prompt (duration * 1000))
         (fun x => music_compose env x prompt (duration * 1000)) in
     match musicTrack with
     | None => throw (TRaw (newError "No audio data returned from music generation"))
     | Some audioBuffer =>
         let* _ := ensureDir env outputDir in
         let* _ := writeFile env outputPath audioBuffer in
         ret outputPath
     end)
    MUSIC_RETRY_OPTIONS.

Definition generateBackgroundMusic (musicPrompt : string) (duration : Z)
    (sessionId : string) : M Ext string :=
  let outputPath := path_join [audioDir sessionId; "background_music.mp3"] in
  let* _ := generateMusic musicPrompt duration (audioDir sessionId) outputPath in
  ret outputPath.

End ElevenLabsService.

End ElevenLabsService.
Export ElevenLabsService.

(** ** services/ffmpeg.ts *)

Module FFmpegService.

Record VideoMergeOptions := mkVideoMergeOptions {
  videoPaths : list string;
  vm_outputPath : string;
  resolution : option string;
  fadeTransition : option bool;
  transitionDuration : option Q;
  sceneDuration : option Q
}.

Record AudioMixOptions := mkAudioMixOptions {
  voiceoverPath : option string;
  am_musicPath : option string;
  am_outputPath : string;
  musicVolume : option Q;
  voiceVolume : option Q
}.

(** [x || dflt] for an optional number: [undefined] and [0] are falsy. *)
Definition num_or (o : option Q) (dflt : Q) : Q :=
  match o with
  | Some q => if Qeq_bool q 0 then dflt else q
  | None => dflt
  end.

(** [`[${i}:v]`] for each input. *)
Definition buildConcatVideoInputs (videoCount : nat) : list string :=
  (fun i : nat => "[" +:+ pretty i +:+ ":v]") <$> seq 0 videoCount.

Definition buildCrossfadeVideoFilter (videoCount : nat) (transitionDuration sceneDuration : Q)
    : VideoFilter :=
  if (videoCount <? 2)%nat then VNull
  else
    VXfade
      ((fun i : nat =>
          mkXfadeStep
            (if (i =? 0)%nat then "[0:v]" else "[v" +:+ pretty i +:+ "]")
            ("[" +:+ pretty (i + 1)%nat +:+ ":v]")
            transitionDuration
            (inject_Z (Z.of_nat i) * sceneDuration)
            (if (i =? videoCount - 2)%nat then "[outv]"
             else "[v" +:+ pretty (i + 1)%nat +:+ "]"))
         <$> seq 0 (videoCount - 1)).

Definition buildAudioMixFilter (options : AudioMixOptions) (hasOriginalAudio : bool)
    : list AudioFilter :=
  let voiceVolume := num_or (voiceVolume options) 1 in
  let musicVolume := num_or (musicVolume options) (3 # 10) in
  (* Handle original audio with resampling *)
  let original :=
    if hasOriginalAudio then [(FVolume "[0:a]" (1 # 2) "[original]", "[original]")] else [] in
  (* Handle voiceover *)
  let voice :=
    if truthy_opt (voiceoverPath options)
    then [(FVolume "[1:a]" voiceVolume "[voice]", "[voice]")] else [] in
  (* Handle music *)
  let music :=
    if truthy_opt (am_musicPath options)
    then [(FVolume (if truthy_opt (voiceoverPath options) then "[2:a]" else "[1:a]")
             musicVolume "[music]", "[music]")]
    else [] in
  let chains := (original ++ voice ++ music)%list in
  let inputs := snd <$> chains in
  (* Build the final amix filter *)
  ((fst <$> chains)
   ++ match inputs with
      | [] => []
      | [single] => [FAnull single "[outa]"]
      | _ => [FAmix inputs "[outa]"]
      end)%list.

Section FFmpegService.
Context (env : Env).

(** [fluent-ffmpeg] running a command: on 'end' the output file is
    written. *)
Definition runCommand (command : FFmpegCommand) : M Ext FFmpegResult :=
  fun x =>
    let x' := logEvent (EvFFmpeg command) x in
    match ffmpeg_run env x command with
    | FFEnd bytes => (Ok (FFEnd bytes), writeBytes (ff_output command) bytes x')
    | FFError msg => (Ok (FFError msg), x')
    end.

(** [fluent-ffmpeg] starting a command whose end the caller does not
    wait for. *)
Definition startCommand (command : FFmpegCommand) : M Ext unit :=
  fun x => (Ok tt, logEvent (EvFFmpeg command) x).

(** [concatenateVideos]. A missing input rejects the promise at once,
    for the first missing path; the command is still built from the
    inputs that exist and started, but the caller sees the rejection
    first: when it resumes, FFmpeg has written nothing yet. What the
    process left running writes later is outside this model. *)
Definition concatenateVideos (options : VideoMergeOptions) : M Ext string :=
  let* x := get in
  let missing := List.find (fun videoPath => negb (existsSync x videoPath)) (videoPaths options) in
  let inputs := List.filter (existsSync x) (videoPaths options) in
  let videoCount := length (videoPaths options) in
  let filter :=
    match fadeTransition options with
    | Some true =>
        buildCrossfadeVideoFilter videoCount (num_or (transitionDuration options) (1 # 2))
          (num_or (sceneDuration options) 5)
    | _ => VConcat (buildConcatVideoInputs videoCount) videoCount
    end in
  let command :=
    mkFFmpegCommand inputs (Some filter) [] ["[outv]"] (resolution options)
      (vm_outputPath options) in
  match missing with
  | Some videoPath =>
      let* _ := startCommand command in
      throw (TRaw (newError ("Video file not found: " +:+ videoPath)))
  | None =>
      let* result := runCommand command in
      match result with
      | FFEnd _ => ret (vm_outputPath options)
      | FFError msg => throw (TRaw (newError ("Video concatenation failed: " +:+ msg)))
      end
  end.

(** [checkVideoHasAudio]: an [ffprobe] failure counts as no audio. *)
Definition checkVideoHasAudio (videoPath : string) : M Ext bool :=
  try_catch (call (EvProbe videoPath) (fun x => ffprobe env x videoPath))
    (fun _ => ret false).

(** [p && fs.existsSync(p)]. *)
Definition provided (x : Ext) (path : option string) : list string :=
  match path with
  | Some p => if truthy p && existsSync x p then [p] else []
  | None => []
  end.

Definition addAudioToVideo (videoPath : string) (audioOptions : AudioMixOptions)
    : M Ext string :=
  (* Check if input video has audio *)
  let* hasAudio := checkVideoHasAudio videoPath in
  let* x := get in
  let audioInputs :=
    (provided x (voiceoverPath audioOptions) ++ provided x (am_musicPath audioOptions))%list in
  (* Build audio mixing filter with proper handling of missing audio *)
  let filters :=
    match audioInputs with
    | [] => []
    | _ => buildAudioMixFilter audioOptions hasAudio
    end in
  let maps :=
    match audioInputs with
    | [] => ["0:v"; "0:a?"]   (* No audio mixing needed, just copy streams *)
    | _ => ["0:v"; "[outa]"]
    end in
  let* result :=
    runCommand (mkFFmpegCommand (videoPath :: audioInputs) None filters maps None
                  (am_outputPath audioOptions)) in
  match result with
  | FFEnd _ => ret (am_outputPath audioOptions)
  | FFError msg => throw (TRaw (newError ("Audio mixing failed: " +:+ msg)))
  end.

End FFmpegService.

End FFmpegService.
Export FFmpegService.

(** ** services/videoGenerator.ts, with the file-system methods of
    services/sessionManager.ts *)

Module VideoGenerator.

(** The state of the process and of the world around it. *)
Record World := mkWorld {
  store : gmap string GenerationSession;
  ext : Ext
}.

(** A call into a service, which does not see the session store. *)
Definition liftExt {A} (m : M Ext A) : M World A :=
  fun w =>
    let '(o, x') := m (ext w) in
    (o, mkWorld (store w) x').

(** [{ ...artifacts, ...update }] on artifacts documents. *)
Definition spread (artifacts update : Artifacts) : Artifacts :=
  mkArtifacts
    (match a_sessionId update with Some v => Some v | None => a_sessionId artifacts end)
    (match a_timestamp update with Some v => Some v | None => a_timestamp artifacts end)
    (match a_prompts update with Some v => Some v | None => a_prompts artifacts end)
    (match a_imagePaths update with Some v => Some v | None => a_imagePaths artifacts end)
    (match a_videoPaths update with Some v => Some v | None => a_videoPaths artifacts end)
    (match a_audioPaths update with Some v => Some v | None => a_audioPaths artifacts end)
    (match a_finalVideoPath update with
     | Some v => Some v
     | None => a_finalVideoPath artifacts
     end).

Section VideoGenerator.
Context (env : Env).

(** *** The session manager as the orchestrator calls it: each method
    reads the clock when it writes. *)

Definition sm_createSession (request : GenerationRequest) (characterImagePath : string)
    : M World GenerationSession :=
  let* sessionId := liftExt (newUuid env) in
  let* timestamp := liftExt (newTimestamp env) in
  fun w =>
    let '(session, sessions) :=
      createSession sessionId timestamp request characterImagePath (store w) in
    (Ok session, mkWorld sessions (ext w)).

Definition sm_updateSessionStatus (sessionId : string) (newStatus : SessionStatus)
    (err : option string) (details : option ErrorSummary) : M World unit :=
  let* w := get in
  match store w !! sessionId with
  | None => ret tt
  | Some _ =>
      let* timestamp := liftExt (newTimestamp env) in
      modify (fun w =>
        mkWorld (updateSessionStatus sessionId newStatus err details timestamp (store w))
                (ext w))
  end.

Definition sm_updateStageStatus (sessionId : string) (stage : ProcessingStage)
    (newStatus : StageState) (message : option string) (progress : option Z)
    (err : option string) : M World unit :=
  let* w := get in
  match stageOf (store w) sessionId stage with
  | None => ret tt
  | Some _ =>
      let* timestamp := liftExt (newTimestamp env) in
      modify (fun w =>
        mkWorld (updateStageStatus sessionId stage newStatus message progress err timestamp
                   (store w))
                (ext w))
  end.

Definition sm_updateSessionFinalVideo (sessionId videoPath : string) : M World unit :=
  let* w := get in
  match store w !! sessionId with
  | None => ret tt
  | Some _ =>
      let* timestamp := liftExt (newTimestamp env) in
      modify (fun w =>
        mkWorld (updateSessionFinalVideo sessionId videoPath timestamp (store w)) (ext w))
  end.

Definition ensureSessionDirectories (sessionId : string) : M World unit :=
  let* _ := liftExt (ensureDir env (path_join [imagesDir env; sessionId])) in
  let* _ := liftExt (ensureDir env (path_join [videoDir env; sessionId])) in
  liftExt (ensureDir env (path_join [runsDir env; sessionId])).

Definition artifactsPath (sessionId : string) : string :=
  path_join [runsDir env; sessionId; "artifacts.json"].

(** [saveSessionArtifacts]: a failed write is logged and swallowed. *)
Definition saveSessionArtifacts (sessionId : string) (artifacts : Artifacts) : M World unit :=
  try_catch
    (let* timestamp := liftExt (newTimestamp env) in
     liftExt (writeJson env (artifactsPath sessionId)
                (spread (mkArtifacts (Some sessionId) (Some timestamp) None None None None None)
                        artifacts)))
    (fun _ => ret tt).

(** *** The stages *)

(** A stage body between its 'processing' write and its [catch], which
    marks the stage 'error' and rethrows. *)
Definition stageBody (sessionId : string) (stage : ProcessingStage)
    (startMessage failMessage : string) (work : M World unit) : M World unit :=
  let* _ := sm_updateStageStatus sessionId stage st_processing (Some startMessage) None None in
  try_catch work (fun error =>
    let* _ := sm_updateStageStatus sessionId stage st_error (Some failMessage) None
                (Some (messageOf error)) in
    throw error).

Definition generatePrompts (session : GenerationSession) : M World unit :=
  let sessionId := sessionId session in
  let request := request session in
  stageBody sessionId prompts "Generating scene prompts..." "Failed to generate prompts"
    (let* generated :=
       liftExt (OpenAIService.generatePrompts env (sceneCount request) (description request)
                  false (* Disable voiceover prompts for now *)
                  (includeMusic request) sessionId) in
     (* Save prompts to session artifacts *)
     let* _ := saveSessionArtifacts sessionId
                 (mkArtifacts None None (Some generated) None None None None) in
     sm_updateStageStatus sessionId prompts st_completed
       (Some ("Generated prompts for " +:+ pretty (length (scenePrompts generated))
              +:+ " scenes")) None None).

Definition defaultImageOptions : ImageGenerationOptions :=
  mkImageGenerationOptions nano_banana (Some png) (Some true).

Definition generateImages (session : GenerationSession) : M World unit :=
  let sessionId := sessionId session in
  stageBody sessionId images "Generating scene images..." "Failed to generate images"
    ((* Read prompts from artifacts *)
     let* artifacts :=
       liftExt (readJson env (path_join [cwd env; "runs"; sessionId; "artifacts.json"])) in
     match a_prompts artifacts with
     | None => throw (TRaw (newError "No scene prompts found in artifacts"))
     | Some generated =>
         (* Generate images with rolling reference using selected provider *)
         let* imagePaths :=
           liftExt (generateSceneImages env (scenePrompts generated)
                      (characterImagePath session) sessionId
                      (default defaultImageOptions (imageOptions (request session)))) in
         (* Update artifacts with image paths *)
         let* _ := saveSessionArtifacts sessionId
                     (spread artifacts
                        (mkArtifacts None None None (Some imagePaths) None None None)) in
         sm_updateStageStatus sessionId images st_completed
           (Some ("Generated " +:+ pretty (length imagePaths)
                  +:+ " scene images with character consistency")) None None
     end).

Definition generateVideos (session : GenerationSession) : M World unit :=
  let sessionId := sessionId session in
  stageBody sessionId videos "Generating scene videos..." "Failed to generate videos"
    ((* Read artifacts to get prompts and image paths *)
     let* artifacts := liftExt (readJson env (artifactsPath sessionId)) in
     match a_prompts artifacts, a_imagePaths artifacts with
     | Some generated, Some imagePaths =>
         (* Generate videos for each scene *)
         let* videoPaths :=
           liftExt (generateSceneVideos env
                      ((fun scene =>
                          if truthy (videoPrompt scene) then Some (videoPrompt scene) else None)
                         <$> scenePrompts generated)
                      imagePaths sessionId (sceneDurationSeconds env)) in
         (* Update artifacts with video paths *)
         let* _ := saveSessionArtifacts sessionId
                     (spread artifacts
                        (mkArtifacts None None None None (Some videoPaths) None None)) in
         sm_updateStageStatus sessionId videos st_completed
           (Some ("Generated " +:+ pretty (length videoPaths) +:+ " scene videos")) None None
     | _, _ => throw (TRaw (newError "Missing prompts or image paths in artifacts"))
     end).

Definition generateAudio (session : GenerationSession) : M World unit :=
  let sessionId := sessionId session in
  let request := request session in
  stageBody sessionId audio "Generating audio content..." "Failed to generate audio"
    ((* Read artifacts to get prompts *)
     let* artifacts := liftExt (readJson env (artifactsPath sessionId)) in
     match a_prompts artifacts with
     | None => throw (TRaw (newError "No prompts found in artifacts"))
     | Some generated =>
         (* Generate background music if requested *)
         let* audioPaths :=
           if includeMusic request && truthy_opt (musicPrompt generated) then
             let totalDuration := sceneCount request * sceneDurationSeconds env in
             let* musicPath :=
               liftExt (generateBackgroundMusic env (default "" (musicPrompt generated))
                          totalDuration sessionId) in
             ret (mkAudioPaths None (Some musicPath))
           else ret (mkAudioPaths None None) in
         (* Update artifacts with audio paths *)
         let* _ := saveSessionArtifacts sessionId
                     (spread artifacts
                        (mkArtifacts None None None None None (Some audioPaths) None)) in
         sm_updateStageStatus sessionId audio st_completed
           (Some "Audio generation completed") None None
     end).

Definition mergedScenesPath (sessionId : string) : string :=
  path_join [runsDir env; sessionId; "merged_scenes.mp4"].

Definition finalVideoPathOf (sessionId : string) : string :=
  path_join [runsDir env; sessionId; "final_video.mp4"].

(** [audioPaths && (audioPaths.voiceoverPaths || audioPaths.musicPath)]:
    an array is truthy even when empty. *)
Definition hasAudioPaths (audioPaths : option AudioPaths) : bool :=
  match audioPaths with
  | Some paths =>
      bool_decide (is_Some (voiceoverPaths paths)) || truthy_opt (musicPath paths)
  | None => false
  end.

Definition mergeVideoContent (session : GenerationSession) : M World unit :=
  let sessionId := sessionId session in
  stageBody sessionId merge "Merging videos and audio..." "Failed to merge video content"
    ((* Read artifacts to get video and audio paths *)
     let* artifacts := liftExt (readJson env (artifactsPath sessionId)) in
     match a_videoPaths artifacts with
     | None | Some [] => throw (TRaw (newError "No video paths found for merging"))
     | Some videoPaths =>
         let finalVideoPath := finalVideoPathOf sessionId in
         (* Step 1: Concatenate videos *)
         let mergedVideoPath := mergedScenesPath sessionId in
         let* _ :=
           liftExt (concatenateVideos env
                      (mkVideoMergeOptions videoPaths mergedVideoPath None (Some false)
                         None None)) in
         (* Step 2: Add audio if available *)
         let* _ :=
           if hasAudioPaths (a_audioPaths artifacts) then
             match a_audioPaths artifacts ≫= musicPath with
             | Some music =>
                 if truthy music then
                   let* _ :=
                     liftExt (addAudioToVideo env mergedVideoPath
                                (mkAudioMixOptions None (Some music) finalVideoPath
                                   (Some (1 # 2)%Q) None)) in
                   ret tt
                 else ret tt
             | None => ret tt
             end
           else
             (* No audio, just copy the merged video as final *)
             liftExt (copy env mergedVideoPath finalVideoPath) in
         (* Update session with final video path *)
         let* _ := sm_updateSessionFinalVideo sessionId finalVideoPath in
         (* Update artifacts with final video path *)
         let* _ := saveSessionArtifacts sessionId
                     (spread artifacts
                        (mkArtifacts None None None None None None (Some finalVideoPath))) in
         sm_updateStageStatus sessionId merge st_completed
           (Some "Video merging completed successfully") None None
     end).

(** *** The pipeline *)

Definition executeGenerationPipeline (session : GenerationSession) : M World unit :=
  let request := request session in
  let sessionId := sessionId session in
  (* Step 1: Generate prompts with OpenAI *)
  let* _ := executeWithRetry (generatePrompts session) "prompts" sessionId 3 in
  (* Step 2: Generate scene images *)
  let* _ := executeWithRetry (generateImages session) "images" sessionId 3 in
  (* Step 3: Generate videos with Kling *)
  let* _ := executeWithRetry (generateVideos session) "videos" sessionId 3 in
  (* Step 4: Generate audio if requested *)
  let* _ :=
    if includeVoiceover request || includeMusic request
    then executeWithRetry (generateAudio session) "audio" sessionId 3
    else ret tt in
  (* Step 5: Merge videos and audio *)
  executeWithRetry (mergeVideoContent session) "merge" sessionId 3.

(** How one run of the body of [generateVideo] ends. *)
Inductive AttemptResult :=
| Completed (sessionId : string)                  (* [return sessionId] *)
| Failed (appError : AppError) (recovered : bool) (* the [catch] block ran *)
| Crashed (t : Thrown).                           (* the [catch] block itself threw *)

(** The body of [generateVideo] up to its recursive call. *)
Definition attemptGeneration (request : GenerationRequest) (characterImagePath : string)
    (w : World) : string * AttemptResult * World :=
  (* Create session *)
  match sm_createSession request characterImagePath w with
  | (Throw t, w0) => ("", Crashed t, w0)
  | (Ok session, w0) =>
      let sessionId := sessionId session in
      match
        (let* _ := ensureSessionDirectories sessionId in
         (* Update session to processing *)
         let* _ := sm_updateSessionStatus sessionId processing None None in
         (* Execute generation pipeline with error handling *)
         let* _ := executeGenerationPipeline session in
         sm_updateSessionStatus sessionId completed None None) w0
      with
      | (Ok _, w1) => (sessionId, Completed sessionId, w1)
      | (Throw error, w1) =>
          match
            (let* appError :=
               classify error (mkErrorContext (Some sessionId) None None None) in
             let errorSummary := createErrorSummary appError in
             (* Update session with detailed error information *)
             let* _ := sm_updateSessionStatus sessionId failed
                         (Some (es_message errorSummary)) (Some errorSummary) in
             (* Attempt recovery if possible *)
             ret (appError, attemptRecovery appError)) w1
          with
          | (Ok (appError, recovered), w2) => (sessionId, Failed appError recovered, w2)
          | (Throw t, w2) => (sessionId, Crashed t, w2)
          end
      end
  end.

(** [generateVideo]. It calls itself when a recovery strategy applies,
    so a run is followed for at most [fuel] attempts; [None] is a run
    that takes more. *)
Fixpoint generateVideo (fuel : nat) (request : GenerationRequest)
    (characterImagePath : string) (w : World) : option (Outcome string * World) :=
  match fuel with
  | O => None
  | Datatypes.S fuel' =>
      match attemptGeneration request characterImagePath w with
      | (_, Completed sessionId, w') => Some (Ok sessionId, w')
      | (_, Failed appError true, w') =>
          (* Error recovery successful, retrying generation *)
          generateVideo fuel' request characterImagePath w'
      | (_, Failed appError false, w') => Some (Throw (TApp appError), w')
      | (_, Crashed t, w') => Some (Throw t, w')
      end
  end.

End VideoGenerator.

End VideoGenerator.
Export VideoGenerator.

(** ** Vocabulary of the properties *)

(** An operation instrumented with the number of times it was invoked. *)
Definition counted {S T} (operation : M S T) : M (S * nat) T :=
  fun sn =>
    let '(o, s') := operation (fst sn) in
    (o, (s', Datatypes.S (snd sn))).

(** One call of [updateStageStatus]: its arguments and the time it ran. *)
Record StageWrite := mkStageWrite {
  w_stage : ProcessingStage;
  w_status : StageState;
  w_message : option string;
  w_progress : option Z;
  w_error : option string;
  w_time : string
}.

Definition applyWrite (sessionId : string) (sessions : gmap string GenerationSession)
    (w : StageWrite) : gmap string GenerationSession :=
  updateStageStatus sessionId (w_stage w) (w_status w) (w_message w) (w_progress w)
    (w_error w) (w_time w) sessions.

Definition applyWrites (sessionId : string) (ws : list StageWrite)
    (sessions : gmap string GenerationSession) : gmap string GenerationSession :=
  foldl (applyWrite sessionId) sessions ws.

(** How many of the writes [ws] changed the field [field] of [stage]'s
    record. *)
Fixpoint fieldSets (field : StageStatus -> option string) (sessionId : string)
    (stage : ProcessingStage) (ws : list StageWrite)
    (sessions : gmap string GenerationSession) : nat :=
  match ws with
  | [] => O
  | w :: rest =>
      let sessions' := applyWrite sessionId sessions w in
      ((if bool_decide (field <$> stageOf sessions' sessionId stage
                        = field <$> stageOf sessions sessionId stage)
        then 0 else 1)
       + fieldSets field sessionId stage rest sessions')%nat
  end.

(** The files whose bytes a model input carries as references. *)
Definition referencePaths (input : ModelInput) : list string :=
  match input with
  | NanoBananaInput _ image_input _ => buf_path <$> image_input
  | IdeogramInput _ character_reference_image => [buf_path character_reference_image]
  end.

(** The reference input of scene [k] (counted from 0): the original
    upload for the first scene, the path generated for scene [k - 1]
    after that. *)
Definition rollingReference (original : string) (imagePaths : list string) (k : nat)
    : option string :=
  match k with
  | O => Some original
  | Datatypes.S j => imagePaths !! j
  end.

(** The reference files a model call of the image stage is to carry,
    [reference] being the rolling reference. *)
Definition expectedReferences (options : ImageGenerationOptions)
    (reference original : string) : list string :=
  match provider options, includeOriginalAnchor options with
  | nano_banana, Some true => [reference; original]
  | _, _ => [reference]
  end.

Definition isImageModelCall (ev : Event) : Prop :=
  match ev with EvImageModel _ _ => True | _ => False end.

(** Every image-model call among [evs] carries the references [refs]. *)
Definition modelCallsUse (refs : list string) (evs : list Event) : Prop :=
  Forall (fun ev =>
            match ev with
            | EvImageModel _ input => referencePaths input = refs
            | _ => True
            end) evs.

(** [m] only adds events, and its outcome and the events it added
    satisfy [R]. *)
Definition emits {A} (m : M Ext A) (R : Outcome A -> list Event -> Prop) : Prop :=
  forall x o x', m x = (o, x') -> exists new, events x' = (new ++ events x)%list /\ R o new.

(** The condition of [handleServiceError] that decides the result: the
    first one that holds. *)
Inductive Rule :=
| ROpenAIQuota | ROpenAIRateLimit | RPredictionFailed | RQuotaMessage | RNetworkError
| RTimeout | RFFmpegError | RNotFound | RPermissionError | RDiskFull
| RGenericRetryable | RDefault.

Definition ruleOf (e : RawError) : Rule :=
  if isOpenAIQuota e then ROpenAIQuota
  else if isOpenAIRateLimit e then ROpenAIRateLimit
  else if isPredictionFailed e then RPredictionFailed
  else if isQuotaMessage e then RQuotaMessage
  else if isNetworkError e then RNetworkError
  else if isTimeout e then RTimeout
  else if isFFmpegError e then RFFmpegError
  else if isNotFound e then RNotFound
  else if isPermissionError e then RPermissionError
  else if isDiskFull e then RDiskFull
  else if isGenericRetryable e then RGenericRetryable
  else RDefault.

(** ** Vocabulary of the run of a session *)

(** [m] keeps the invariant [I], however it ends. *)
Definition preserves {S A} (I : S -> Prop) (m : M S A) : Prop :=
  forall s o s', I s -> m s = (o, s') -> I s'.

(** An artifacts document that names no voiceover files. *)
Definition ArtifactsOk (a : Artifacts) : Prop :=
  (a_audioPaths a ≫= voiceoverPaths) = None.

Definition DocsOk (d : gmap string Artifacts) : Prop :=
  forall path a, d !! path = Some a -> ArtifactsOk a.

(** Session [sid] is in the store and has a merge stage. *)
Definition HasMerge (sid : string) (sessions : gmap string GenerationSession) : Prop :=
  is_Some (stageOf sessions sid merge).

(** The invariant of a run for session [sid]. *)
Definition RunInv (sid : string) (w : World) : Prop :=
  HasMerge sid (store w) /\ DocsOk (docs (ext w)).

(** What one attempt of [generateVideo] leaves of its session. *)
Definition attemptSpec (env : Env) (sid : string) (result : AttemptResult) (w' : World) : Prop :=
  match result with
  | Completed sid' =>
      sid' = sid
      /\ exists s,
           store w' !! sid = Some s
           /\ status s = completed
           /\ ss_status <$> stageOf (store w') sid merge = Some st_completed
           /\ finalVideoPath s = Some (finalVideoPathOf env sid)
           /\ is_Some (files (ext w') !! finalVideoPathOf env sid)
  | Failed appError recovered =>
      recovered = attemptRecovery appError
      /\ exists s, store w' !! sid = Some s /\ status s = failed
  | Crashed t => False
  end.

(** ** Vocabulary of the stages *)


(** An event that is a call of the prompt generator. *)
Definition isOpenAICall (ev : Event) : bool :=
  match ev with EvOpenAI _ _ _ _ => true | _ => false end.

(** An event of a run that stops at the prompts stage. *)
Definition promptsOnly (ev : Event) : Prop :=
  match ev with
  | EvClock | EvOpenAI _ _ _ _ | EvFs (OpEnsureDir _) => True
  | _ => False
  end.

#[global] Instance Rule_eq_dec : EqDecision Rule.
Proof. solve_decision. Defined.

(** A message that matches no pattern of the classifier and no recovery
    strategy. *)
Definition plainMessage (msg : string) : bool :=
  bool_decide (ruleOf (newError msg) = RDefault)
  && negb (attemptRecovery (handleServiceError (newError msg)
                              (mkErrorContext None None None None))).

(** The prompt generator answers [content], which parses to [parsed],
    which the validation rejects with [err]. *)
Definition rejectedPrompts (env : Env) (request : GenerationRequest) (content : string)
    (parsed : PromptsJson) (err : RawError) : Prop :=
  (forall x, chat_completions_create env x (sceneCount request) (description request)
               false (includeMusic request) = inr (Some content))
  /\ truthy content = true
  /\ JSON_parse env content = Parsed parsed
  /\ validatePrompts (sceneCount request) false (includeMusic request) parsed = inl err.

(** ** services/sessionManager.ts: the sweep of old sessions *)

Module SessionSweep.

Section SessionSweep.
(** [new Date(s).getTime()], [None] for an invalid date. *)
Context (Date_parse : string -> option Z).

(** [sessionTime < cutoffTime]: false when either date is invalid. *)
Definition olderThan (cutoffTime : option Z) (session : GenerationSession) : bool :=
  match Date_parse (createdAt session), cutoffTime with
  | Some sessionTime, Some cutoff => sessionTime <? cutoff
  | _, _ => false
  end.

(** [cleanupOldSessions], [cutoffTime] being the time value of the date
    that the code computes from the clock and [maxAgeHours]: the loop
    over the entries of the map, which deletes and counts. *)
Definition cleanupOldSessions (cutoffTime : option Z)
    (sessions : gmap string GenerationSession) : nat * gmap string GenerationSession :=
  map_fold
    (fun sessionId session '(cleanedCount, remaining) =>
       if olderThan cutoffTime session
       then (Datatypes.S cleanedCount, delete sessionId remaining)
       else (cleanedCount, remaining))
    (O, sessions) sessions.

End SessionSweep.

End SessionSweep.
Export SessionSweep.

(** ** Vocabulary of the session store *)

(** One write of the session manager to the store, with the time at
    which it ran. *)
Inductive SessionWrite :=
| WSessionStatus (sessionId : string) (newStatus : SessionStatus) (err : option string)
    (details : option ErrorSummary) (time : string)
| WStageStatus (sessionId : string) (write : StageWrite)
| WFinalVideo (sessionId videoPath time : string).

Definition applySessionWrite (sessions : gmap string GenerationSession) (w : SessionWrite)
    : gmap string GenerationSession :=
  match w with
  | WSessionStatus sessionId newStatus err details time =>
      updateSessionStatus sessionId newStatus err details time sessions
  | WStageStatus sessionId write => applyWrite sessionId sessions write
  | WFinalVideo sessionId videoPath time =>
      updateSessionFinalVideo sessionId videoPath time sessions
  end.

Definition applySessionWrites (ws : list SessionWrite)
    (sessions : gmap string GenerationSession) : gmap string GenerationSession :=
  foldl applySessionWrite sessions ws.

(** What a session is created with and keeps: its id, request, image,
    creation time, and the names of its stages in order. *)
Definition identityOf (session : GenerationSession)
    : string * GenerationRequest * string * string * list ProcessingStage :=
  (sessionId session, request session, characterImagePath session, createdAt session,
   ss_stage <$> stages session).

(** ** Vocabulary of the video stage *)

(** A Kling call that animates scene [k]: it carries the image read
    from the image path of scene [k] together with the video prompt of
    scene [k], for [duration] seconds as Fal.ai spells them. *)
Definition sceneCall (scenePrompts : list (option string)) (sceneImagePaths : list string)
    (duration : Z) (k : nat) (ev : Event) : Prop :=
  match ev with
  | EvKling input =>
      sceneImagePaths !! k = Some (buf_path (image_url input))
      /\ scenePrompts !! k = Some (kling_prompt input)
      /\ kling_duration input = (if duration =? 5 then "5" else "10")
  | _ => False
  end.

Definition isKlingCall (ev : Event) : bool :=
  match ev with EvKling _ => true | _ => false end.

(** The Kling calls among the events [evs], in the order they were
    made. *)
Definition klingCalls (evs : list Event) : list Event :=
  rev (List.filter isKlingCall evs).

(** ** Vocabulary of the stages of a run *)

(** [m], run from a store that satisfies [J], leaves a store that
    satisfies [J], and [P] when it returns. *)
Definition ends {A} (J P : gmap string GenerationSession -> Prop) (m : M World A) : Prop :=
  forall w o w', J (store w) -> m w = (o, w') ->
    J (store w') /\ (forall a, o = Ok a -> P (store w')).

(** The stage methods of the orchestrator, each with the stage it runs. *)
Definition stageMethods (env : Env) (session : GenerationSession)
    : list (ProcessingStage * M World unit) :=
  [ (prompts, generatePrompts env session);
    (images, generateImages env session);
    (videos, generateVideos env session);
    (audio, generateAudio env session);
    (merge, mergeVideoContent env session) ].

(** The stages [done] of session [sessionId] are completed, and the
    session has the stage names [names]. *)
Definition stagesDone (sessionId : string) (names done : list ProcessingStage)
    (sessions : gmap string GenerationSession) : Prop :=
  (exists s, sessions !! sessionId = Some s /\ ss_stage <$> stages s = names)
  /\ forall stage, stage ∈ done ->
       ss_status <$> stageOf sessions sessionId stage = Some st_completed.

(** The artifacts file that a stage reads before it does anything
    else: the image stage looks under the working directory, the later
    stages under the configured runs directory. *)
Definition artifactsRead (env : Env) (sessionId : string) (stage : ProcessingStage) : string :=
  match stage with
  | images => path_join [cwd env; "runs"; sessionId; "artifacts.json"]
  | _ => artifactsPath env sessionId
  end.


(** ** Example inputs *)

(** Fails with HTTP 503 on its first two calls, then returns; the state
    is the number of calls so far. *)
Definition flaky : M nat string :=
  fun calls =>
    if (calls <? 2)%nat
    then (Throw (TRaw (mkRawError None (Some "Service Unavailable") None None (Some 503))),
          Datatypes.S calls)
    else (Ok "https://replicate.delivery/out.png", Datatypes.S calls).

(** Always fails with the given [AppError]. *)
Definition failing (a : AppError) : M nat string :=
  fun calls => (Throw (TApp a), Datatypes.S calls).

(** A policy whose predicate accepts every error. *)
Definition retryEverything : PartialRetryOptions :=
  mkPartialRetryOptions (Some 3) None None None (Some (fun _ => true)).

Definition exampleRequest : GenerationRequest :=
  mkGenerationRequest 3 "a calm morning" false true None.

Definition exampleStore : gmap string GenerationSession :=
  snd (createSession "session-1" "2025-01-01T00:00:00.000Z" exampleRequest
         "uploads/face.png" ∅).

(** The writes to the merge stage when its first attempt fails with a
    retryable error and [executeWithRetry] runs it again. *)
Definition retriedMergeWrites : list StageWrite :=
  [ mkStageWrite merge st_processing (Some "Merging videos and audio...") None None
      "2025-01-01T00:05:00.000Z";
    mkStageWrite merge st_error (Some "Failed to merge video content") None
      (Some "Audio mixing failed: ffmpeg exited with code 1") "2025-01-01T00:05:10.000Z";
    mkStageWrite merge st_processing (Some "Merging videos and audio...") None None
      "2025-01-01T00:05:12.000Z";
    mkStageWrite merge st_completed (Some "Video merging completed successfully") None None
      "2025-01-01T00:05:30.000Z" ].

Definition exampleExt : Ext :=
  mkExt {[ "uploads/face.png" := "face" ]} ∅ [].

(** An environment in which every collaborator answers at once, except
    that the image model fails with HTTP 503 on the first call made for
    each scene. *)
Definition exampleEnv : Env :=
  mkEnv "/app/images" "/app/video" "/app/runs" "/app" 5
    (fun _ => "session-1")
    (fun _ => "2025-01-01T00:00:00.000Z")
    (fun _ _ => None)
    (fun _ _ _ _ _ => inr (Some "{ }"))
    (fun _ =>
       Parsed (mkPromptsJson
                 (Some [mkSceneJson (JNumber 1) (Some "a face at dawn") (Some "slow zoom");
                        mkSceneJson (JNumber 2) (Some "a face at noon") (Some "pan left")])
                 None (Some "calm piano")))
    (fun x _ _ =>
       match events x with
       | EvFs (OpReadFile _) :: EvFs (OpReadFile _) :: EvFs (OpEnsureDir _) :: _ =>
           inl (mkRawError None (Some "Service Unavailable") None None (Some 503))
       | _ => inr (OutFile "https://replicate.delivery/out.png")
       end)
    (fun _ _ => inr (mkFetchResponse true 200 "OK" "bytes"))
    (fun _ _ => inr (Some "https://fal.media/out.mp4"))
    (fun _ _ _ => inr (Some "mp3"))
    (fun _ _ => inr false)
    (fun _ command => FFEnd "mp4").

Definition exampleScenes : list ScenePrompts :=
  [ mkScenePrompts 1 "a face at dawn" "slow zoom";
    mkScenePrompts 2 "a face at noon" "pan left" ].

Definition exampleImageOptions : ImageGenerationOptions :=
  mkImageGenerationOptions nano_banana (Some png) (Some true).

Definition twoSceneRequest : GenerationRequest :=
  mkGenerationRequest 2 "a calm morning" false true None.

(** [exampleEnv], except that the response numbers its second scene 503
    and gives it no image prompt. *)
Definition mislabelledEnv : Env :=
  mkEnv (imagesDir exampleEnv) (videoDir exampleEnv) (runsDir exampleEnv) (cwd exampleEnv)
    (sceneDurationSeconds exampleEnv) (uuidv4 exampleEnv) (toISOString exampleEnv)
    (fs_fault exampleEnv) (chat_completions_create exampleEnv)
    (fun _ =>
       Parsed (mkPromptsJson
                 (Some [mkSceneJson (JNumber 1) (Some "a face at dawn") (Some "slow zoom");
                        mkSceneJson (JNumber 503) None (Some "pan left")])
                 None (Some "calm piano")))
    (client_run exampleEnv) (fetch exampleEnv) (fal_subscribe exampleEnv)
    (music_compose exampleEnv) (ffprobe exampleEnv) (ffmpeg_run exampleEnv).

(** A session that asked for no audio, its two scene videos generated:
    the world in which its merge stage starts. *)
Definition silentSession : GenerationSession :=
  newSession "session-1" "2025-01-01T00:00:00.000Z"
    (mkGenerationRequest 2 "a calm morning" false false None) "uploads/face.png".

Definition silentArtifacts : Artifacts :=
  mkArtifacts (Some "session-1") (Some "2025-01-01T00:04:00.000Z") None None
    (Some ["/app/video/session-1/scene-1.mp4"; "/app/video/session-1/scene-2.mp4"])
    None None.

Definition silentWorld : World :=
  mkWorld {[ "session-1" := silentSession ]}
    (mkExt {[ "/app/video/session-1/scene-1.mp4" := "clip 1";
              "/app/video/session-1/scene-2.mp4" := "clip 2" ]}
           {[ "/app/runs/session-1/artifacts.json" := silentArtifacts ]}
           []).




(** ** Further example inputs *)

(** [exampleEnv], except that every call of the prompt generator fails
    with a connection timeout. *)
Definition timeoutEnv : Env :=
  mkEnv (imagesDir exampleEnv) (videoDir exampleEnv) (runsDir exampleEnv) (cwd exampleEnv)
    (sceneDurationSeconds exampleEnv) (uuidv4 exampleEnv) (toISOString exampleEnv)
    (fs_fault exampleEnv)
    (fun _ _ _ _ _ => inl (mkRawError (Some "ETIMEDOUT") (Some "connect ETIMEDOUT") None None None))
    (JSON_parse exampleEnv)
    (client_run exampleEnv) (fetch exampleEnv) (fal_subscribe exampleEnv)
    (music_compose exampleEnv) (ffprobe exampleEnv) (ffmpeg_run exampleEnv).

(** The time values of two dates; any other string is an invalid date. *)
Definition exampleDates (s : string) : option Z :=
  if String.eqb s "2025-01-01T00:00:00.000Z" then Some 1735689600000
  else if String.eqb s "2025-01-03T00:00:00.000Z" then Some 1735862400000
  else None.

(** Three sessions: one created on January 1st, one on January 3rd,
    and one whose creation time does not parse. *)
Definition sweepStore : gmap string GenerationSession :=
  {[ "old" := newSession "old" "2025-01-01T00:00:00.000Z" exampleRequest "uploads/a.png";
     "new" := newSession "new" "2025-01-03T00:00:00.000Z" exampleRequest "uploads/b.png";
     "odd" := newSession "odd" "yesterday" exampleRequest "uploads/c.png" ]}.

(** [silentWorld] without the clip of its second scene. *)
Definition gapExt : Ext :=
  mkExt (delete "/app/video/session-1/scene-2.mp4" (files (ext silentWorld)))
        (docs (ext silentWorld)) [].

(** [exampleEnv], except that Fal.ai answers without a video URL. *)
Definition noVideoEnv : Env :=
  mkEnv (imagesDir exampleEnv) (videoDir exampleEnv) (runsDir exampleEnv) (cwd exampleEnv)
    (sceneDurationSeconds exampleEnv) (uuidv4 exampleEnv) (toISOString exampleEnv)
    (fs_fault exampleEnv) (chat_completions_create exampleEnv) (JSON_parse exampleEnv)
    (client_run exampleEnv) (fetch exampleEnv)
    (fun _ _ => inr None)
    (music_compose exampleEnv) (ffprobe exampleEnv) (ffmpeg_run exampleEnv).

(** The disk after the image stage of a two-scene session. *)
Definition imagesExt : Ext :=
  mkExt {[ "/app/images/session-1/scene-1.png" := "image 1";
           "/app/images/session-1/scene-2.png" := "image 2" ]} ∅ [].

(** [exampleEnv] with its runs directory configured outside the working
    directory. *)
Definition relocatedEnv : Env :=
  mkEnv (imagesDir exampleEnv) (videoDir exampleEnv) "/data/runs" (cwd exampleEnv)
    (sceneDurationSeconds exampleEnv) (uuidv4 exampleEnv) (toISOString exampleEnv)
    (fs_fault exampleEnv) (chat_completions_create exampleEnv) (JSON_parse exampleEnv)
    (client_run exampleEnv) (fetch exampleEnv) (fal_subscribe exampleEnv)
    (music_compose exampleEnv) (ffprobe exampleEnv) (ffmpeg_run exampleEnv).

(** The world after the prompt stage of [silentSession] under
    [relocatedEnv]: the prompts are saved under the runs directory. *)
Definition relocatedWorld : World :=
  mkWorld {[ "session-1" := silentSession ]}
    (mkExt {[ "uploads/face.png" := "face" ]}
           {[ "/data/runs/session-1/artifacts.json" :=
                mkArtifacts (Some "session-1") (Some "2025-01-01T00:00:00.000Z")
                  (Some (mkGeneratedPrompts exampleScenes None None)) None None None None ]}
           []).



(** * Properties *)

(** ** Retry executors *)

Section RetryLemmas.
Context {S T : Type}.
Implicit Types (operation : M S T) (opts : RetryOptions) (s : S) (error : Thrown).

Lemma counted_run operation s (n : nat) :
  counted operation (s, n) = (fst (operation s), (snd (operation s), Datatypes.S n)).
Proof. unfold counted; simpl. by destruct (operation s). Qed.

Lemma withRetry_loop_returns operation opts n attempt last s r s' :
  operation s = (Ok r, s') ->
  withRetry_loop operation opts (Datatypes.S n) attempt last s = (Ok r, s').
Proof. intros Hop. simpl. unfold try_catch. by rewrite Hop. Qed.

Lemma withRetry_loop_gives_up operation opts n attempt last s error s' :
  operation s = (Throw error, s') ->
  isRetryable opts error = false \/ attempt = maxAttempts opts ->
  withRetry_loop operation opts (Datatypes.S n) attempt last s = (Throw error, s').
Proof.
  intros Hop Hstop. simpl. unfold try_catch. rewrite Hop.
  destruct Hstop as [-> | ->]; [done |].
  by rewrite Z.eqb_refl, orb_true_r.
Qed.

Lemma withRetry_loop_retries operation opts n attempt last s error s' :
  operation s = (Throw error, s') ->
  isRetryable opts error = true ->
  attempt <> maxAttempts opts ->
  withRetry_loop operation opts (Datatypes.S n) attempt last s
  = withRetry_loop operation opts n (attempt + 1) error s'.
Proof.
  intros Hop Hretry Hne. simpl. unfold try_catch. rewrite Hop, Hretry.
  by apply Z.eqb_neq in Hne as ->.
Qed.

Lemma executeWithRetry_loop_returns operation stage sid maxRetries n attempt last s r s' :
  operation s = (Ok r, s') ->
  executeWithRetry_loop operation stage sid maxRetries (Datatypes.S n) attempt last s
  = (Ok r, s').
Proof. intros Hop. simpl. unfold try_catch. by rewrite Hop. Qed.

Lemma executeWithRetry_loop_gives_up operation stage sid maxRetries n attempt last s a s' :
  operation s = (Throw (TApp a), s') ->
  shouldRetry a attempt maxRetries = false ->
  executeWithRetry_loop operation stage sid maxRetries (Datatypes.S n) attempt last s
  = (Throw (TApp a), s').
Proof.
  intros Hop Hstop. simpl. unfold try_catch. rewrite Hop.
  unfold bind, classify, ret. by rewrite Hstop.
Qed.

End RetryLemmas.

(** The hard rule of [shouldRetry]: whatever the [retryable] flag says. *)
Lemma shouldRetry_hard_rule (a : AppError) (attempt maxRetries : Z) :
  cls a = CValidationError \/ cls a = CAuthenticationError ->
  shouldRetry a attempt maxRetries = false.
Proof.
  intros Hcls. unfold shouldRetry.
  destruct (attempt >=? maxRetries); [done |].
  destruct (retryable a); [simpl | done].
  by destruct Hcls as [-> | ->].
Qed.

(** Every predicate of the repository's policies looks at [error.code]
    and [error.response.status] only, which an [AppError] does not have. *)
Lemma repository_policies_reject_AppError (a : AppError) (options : PartialRetryOptions) :
  p_retryableErrors options = None
  \/ options = OPENAI_RETRY_OPTIONS
  \/ options = REPLICATE_RETRY_OPTIONS
  \/ options = ELEVENLABS_RETRY_OPTIONS ->
  isRetryable (mergeOptions options) (TApp a) = false.
Proof.
  unfold isRetryable, mergeOptions.
  intros [-> | [-> | [-> | ->]]]; reflexivity.
Qed.

Lemma counted_once_gives_up {S T} (operation : M S T) (options : PartialRetryOptions)
    (s s' : S) (error : Thrown) :
  1 <= maxAttempts (mergeOptions options) ->
  operation s = (Throw error, s') ->
  isRetryable (mergeOptions options) error = false ->
  withRetry (counted operation) options (s, O) = (Throw error, (s', 1%nat)).
Proof.
  intros Hmax Hop Hno. unfold withRetry.
  destruct (Z.to_nat (maxAttempts (mergeOptions options))) as [| n] eqn:Hn; [lia |].
  apply withRetry_loop_gives_up; [| by left].
  by rewrite counted_run, Hop.
Qed.

Lemma counted_once_stage {S T} (operation : M S T) (stage sid : string) (maxRetries : Z)
    (s s' : S) (a : AppError) :
  1 <= maxRetries ->
  operation s = (Throw (TApp a), s') ->
  cls a = CValidationError \/ cls a = CAuthenticationError ->
  executeWithRetry (counted operation) stage sid maxRetries (s, O)
  = (Throw (TApp a), (s', 1%nat)).
Proof.
  intros Hmax Hop Hcls. unfold executeWithRetry.
  destruct (Z.to_nat maxRetries) as [| n] eqn:Hn; [lia |].
  apply executeWithRetry_loop_gives_up; [| by apply shouldRetry_hard_rule].
  by rewrite counted_run, Hop.
Qed.

(** C3, as stated, fails on [withRetry]: it never looks at the class of
    the error, so under a policy with [maxAttempts = 3] whose predicate
    accepts every error, an operation that always throws an
    [AuthenticationError] is invoked three times, not once. *)
Lemma withRetry_retries_authentication_error :
  maxAttempts (mergeOptions retryEverything) = 3
  /\ cls (AuthenticationError "OpenAI") = CAuthenticationError
  /\ withRetry (counted (failing (AuthenticationError "OpenAI"))) retryEverything (O, O)
     = (Throw (TApp (AuthenticationError "OpenAI")), (3%nat, 3%nat)).
Proof. repeat split. Qed.

(** C3, amended. With [maxAttempts = 3], an operation that fails twice
    with errors the policy calls retryable and then succeeds is invoked
    exactly three times by [withRetry], which returns its result. An
    operation failing with an [AuthenticationError] is invoked exactly
    once, whatever the number of attempts allowed (at least one): by the
    stage executor [executeWithRetry], and by [withRetry] whenever the
    predicate of the policy rejects the error, as the default predicate
    and the predicates of the repository's policies do for every
    [AppError]. *)
Theorem retry_invocation_counts :
  (forall (S T : Type) (operation : M S T) (options : PartialRetryOptions)
          (s0 s1 s2 s3 : S) (e1 e2 : Thrown) (r : T),
      maxAttempts (mergeOptions options) = 3 ->
      operation s0 = (Throw e1, s1) ->
      operation s1 = (Throw e2, s2) ->
      operation s2 = (Ok r, s3) ->
      isRetryable (mergeOptions options) e1 = true ->
      isRetryable (mergeOptions options) e2 = true ->
      withRetry (counted operation) options (s0, O) = (Ok r, (s3, 3%nat)))
  /\ (forall (S T : Type) (operation : M S T) (stage sid : string) (maxRetries : Z)
             (s0 s1 : S) (a : AppError),
      1 <= maxRetries ->
      cls a = CAuthenticationError ->
      operation s0 = (Throw (TApp a), s1) ->
      executeWithRetry (counted operation) stage sid maxRetries (s0, O)
      = (Throw (TApp a), (s1, 1%nat)))
  /\ (forall (S T : Type) (operation : M S T) (options : PartialRetryOptions)
             (s0 s1 : S) (a : AppError),
      1 <= maxAttempts (mergeOptions options) ->
      isRetryable (mergeOptions options) (TApp a) = false ->
      cls a = CAuthenticationError ->
      operation s0 = (Throw (TApp a), s1) ->
      withRetry (counted operation) options (s0, O) = (Throw (TApp a), (s1, 1%nat)))
  /\ (forall (options : PartialRetryOptions) (a : AppError),
      p_retryableErrors options = None
      \/ options = OPENAI_RETRY_OPTIONS
      \/ options = REPLICATE_RETRY_OPTIONS
      \/ options = ELEVENLABS_RETRY_OPTIONS ->
      isRetryable (mergeOptions options) (TApp a) = false).
Proof.
  split; [| split; [| split]].
  - intros S T operation options s0 s1 s2 s3 e1 e2 r Hmax H1 H2 H3 Hr1 Hr2.
    unfold withRetry. rewrite Hmax.
    change (Z.to_nat 3) with 3%nat.
    rewrite (withRetry_loop_retries _ _ _ _ _ _ e1 (s1, 1%nat));
      [| by rewrite counted_run, H1 | done | lia].
    rewrite (withRetry_loop_retries _ _ _ _ _ _ e2 (s2, 2%nat));
      [| by rewrite counted_run, H2 | done | lia].
    apply withRetry_loop_returns. by rewrite counted_run, H3.
  - intros S T operation stage sid maxRetries s0 s1 a Hmax Hcls Hop.
    apply counted_once_stage; auto.
  - intros S T operation options s0 s1 a Hmax Hrejects Hcls Hop.
    by apply counted_once_gives_up.
  - intros options a Hpolicy. by apply repository_policies_reject_AppError.
Qed.

Lemma retry_invocation_counts_witness :
  withRetry (counted flaky) REPLICATE_RETRY_OPTIONS (O, O)
  = (Ok "https://replicate.delivery/out.png", (3%nat, 3%nat))
  /\ executeWithRetry (counted (failing (AuthenticationError "OpenAI"))) "prompts" "session-1"
       5 (O, O)
     = (Throw (TApp (AuthenticationError "OpenAI")), (1%nat, 1%nat))
  /\ withRetry (counted (failing (AuthenticationError "ElevenLabs")))
       (mkPartialRetryOptions (Some 7) (Some 1000) (Some 5000) (Some 2%Q) None) (O, O)
     = (Throw (TApp (AuthenticationError "ElevenLabs")), (1%nat, 1%nat))
  /\ isRetryable (mergeOptions OPENAI_RETRY_OPTIONS) (TApp (AuthenticationError "OpenAI"))
     = false.
Proof.
  destruct retry_invocation_counts as (Hthree & Hstage & Honce & Hpolicies).
  split; [| split; [| split]].
  - apply (Hthree nat string flaky REPLICATE_RETRY_OPTIONS 0%nat 1%nat 2%nat 3%nat
             (TRaw (mkRawError None (Some "Service Unavailable") None None (Some 503)))
             (TRaw (mkRawError None (Some "Service Unavailable") None None (Some 503))));
      reflexivity.
  - apply (Hstage nat string); [simpl; lia | reflexivity | reflexivity].
  - apply (Honce nat string); [simpl; lia | reflexivity | reflexivity | reflexivity].
  - apply Hpolicies. right. left. reflexivity.
Defined.

(** C4, as stated, fails on [withRetry]: under a policy whose predicate
    accepts every error, an operation that always throws a
    [ValidationError] is invoked on all three attempts. *)
Lemma withRetry_retries_validation_error :
  withRetry (counted (failing (ValidationError "sceneCount must be 1-5" None)))
    retryEverything (O, O)
  = (Throw (TApp (ValidationError "sceneCount must be 1-5" None)), (3%nat, 3%nat)).
Proof. reflexivity. Qed.

(** C4, amended. [shouldRetry] refuses every [ValidationError] and
    [AuthenticationError] whatever their [retryable] flag, so the stage
    executor [executeWithRetry] invokes the operation once and throws the
    error at once. [withRetry] has no such rule: it stops after one
    invocation exactly when the policy's predicate rejects the error,
    which the default predicate and those of the three service policies
    do for every [AppError]. *)
Theorem no_retry_of_validation_or_authentication (a : AppError) :
  cls a = CValidationError \/ cls a = CAuthenticationError ->
  (forall attempt maxRetries, shouldRetry a attempt maxRetries = false)
  /\ (forall (S T : Type) (operation : M S T) (stage sid : string) (maxRetries : Z)
             (s0 s1 : S),
      1 <= maxRetries ->
      operation s0 = (Throw (TApp a), s1) ->
      executeWithRetry (counted operation) stage sid maxRetries (s0, O)
      = (Throw (TApp a), (s1, 1%nat)))
  /\ (forall (S T : Type) (operation : M S T) (options : PartialRetryOptions) (s0 s1 : S),
      1 <= maxAttempts (mergeOptions options) ->
      isRetryable (mergeOptions options) (TApp a) = false ->
      operation s0 = (Throw (TApp a), s1) ->
      withRetry (counted operation) options (s0, O) = (Throw (TApp a), (s1, 1%nat)))
  /\ (forall options : PartialRetryOptions,
      p_retryableErrors options = None
      \/ options = OPENAI_RETRY_OPTIONS
      \/ options = REPLICATE_RETRY_OPTIONS
      \/ options = ELEVENLABS_RETRY_OPTIONS ->
      isRetryable (mergeOptions options) (TApp a) = false).
Proof.
  intros Hcls. repeat split.
  - intros. by apply shouldRetry_hard_rule.
  - intros. by apply counted_once_stage.
  - intros. by apply counted_once_gives_up.
  - intros. by apply repository_policies_reject_AppError.
Qed.

Lemma no_retry_of_validation_or_authentication_witness :
  shouldRetry (ValidationError "Expected 3 scenes, got 2" None) 1 3 = false
  /\ executeWithRetry (counted (failing (ValidationError "Expected 3 scenes, got 2" None)))
       "prompts" "session-1" 3 (O, O)
     = (Throw (TApp (ValidationError "Expected 3 scenes, got 2" None)), (1%nat, 1%nat))
  /\ withRetry (counted (failing (ValidationError "Expected 3 scenes, got 2" None)))
       OPENAI_RETRY_OPTIONS (O, O)
     = (Throw (TApp (ValidationError "Expected 3 scenes, got 2" None)), (1%nat, 1%nat)).
Proof.
  destruct (no_retry_of_validation_or_authentication
              (ValidationError "Expected 3 scenes, got 2" None) (or_introl eq_refl))
    as (Hrule & Hstage & Hpolicy & Hrepo).
  split; [apply Hrule | split].
  - apply (Hstage nat string); [simpl; lia | reflexivity].
  - apply (Hpolicy nat string); [simpl; lia | apply Hrepo; auto | reflexivity].
Defined.

(** ** Error classifier *)

(** The error classes of the subclasses' constructors. *)
Lemma constructor_flags (msg service resource : string) (ctx : option Context)
    (id : option string) (n : option Z) (timeout : Z) :
  retryable (ValidationError msg ctx) = false
  /\ retryable (AuthenticationError service) = false
  /\ retryable (ResourceNotFoundError resource id) = false
  /\ retryable (RateLimitError service n) = true
  /\ retryable (ServiceUnavailableError service ctx) = true
  /\ retryable (ProcessingTimeoutError service timeout) = true.
Proof. by repeat split. Qed.

(** C7. For every raw error the output of [handleServiceError] is tagged
    by its class: not retryable for [ResourceNotFoundError], a denied
    permission, a full disk (ENOSPC) and the default fallback; retryable
    for [RateLimitError] (which keeps the error's [retry_after]),
    [ServiceUnavailableError] and [ProcessingTimeoutError].
    [ValidationError] and [AuthenticationError], which the classifier
    passes through and never builds, are not retryable by construction. *)
Theorem classifier_retryable_tagging (e : RawError) (c : ErrorContext) :
  let r := handleServiceError e c in
  match cls r with
  | CValidationError | CAuthenticationError => False
  | CResourceNotFoundError => retryable r = false
  | CRateLimitError =>
      retryable r = true /\ (context r ≫= ctx_retryAfter) = retry_after e
  | CServiceUnavailableError | CProcessingTimeoutError => retryable r = true
  | CAppError => True
  end
  /\ match ruleOf e with
     | ROpenAIQuota | RPredictionFailed | RQuotaMessage | RNetworkError =>
         cls r = CServiceUnavailableError /\ retryable r = true
     | ROpenAIRateLimit =>
         r = RateLimitError "OpenAI" (retry_after e) /\ retryable r = true
     | RTimeout => cls r = CProcessingTimeoutError /\ retryable r = true
     | RFFmpegError | RGenericRetryable => cls r = CAppError /\ retryable r = true
     | RNotFound => cls r = CResourceNotFoundError /\ retryable r = false
     | RPermissionError =>
         (context r ≫= ctx_reason) = Some "permission_error" /\ retryable r = false
     | RDiskFull =>
         statusCode r = 507 /\ (context r ≫= ctx_reason) = Some "disk_full"
         /\ retryable r = false
     | RDefault => cls r = CAppError /\ statusCode r = 500 /\ retryable r = false
     end
  /\ (forall (S : Type) (a : AppError) (s : S), @classify S (TApp a) c s = (Ok a, s))
  /\ (forall msg ctx service,
        retryable (ValidationError msg ctx) = false
        /\ retryable (AuthenticationError service) = false).
Proof.
  unfold handleServiceError, ruleOf; simpl.
  repeat split;
    repeat match goal with
           | |- context [if ?b then _ else _] => destruct b
           end; simpl; auto.
Qed.

(** ** Session store *)

(** C9. The stage list is fixed by [createSession]: prompts, images,
    videos and merge, with audio before merge exactly when voiceover or
    music is requested; every stage starts with status 'pending' and no
    other key set, and the session, itself 'pending', is stored under
    its id. *)
Theorem createSession_stage_list (sessionId timestamp : string) (request : GenerationRequest)
    (characterImagePath : string) (sessions : gmap string GenerationSession) :
  let session := fst (createSession sessionId timestamp request characterImagePath sessions) in
  let sessions' := snd (createSession sessionId timestamp request characterImagePath sessions) in
  ss_stage <$> stages session
  = (if includeVoiceover request || includeMusic request
     then [prompts; images; videos; audio; merge]
     else [prompts; images; videos; merge])
  /\ (audio ∈ (ss_stage <$> stages session)
      <-> includeVoiceover request = true \/ includeMusic request = true)
  /\ last (ss_stage <$> stages session) = Some merge
  /\ Forall (fun s =>
               ss_status s = st_pending
               /\ s = mkStageStatus (ss_stage s) st_pending None None None None None None)
            (stages session)
  /\ status session = pending
  /\ sessions' !! sessionId = Some session.
Proof.
  simpl. unfold newSession.
  split; [by destruct (includeVoiceover request), (includeMusic request) |].
  split.
  { destruct (includeVoiceover request), (includeMusic request); simpl;
      rewrite ?elem_of_cons, elem_of_nil; intuition congruence. }
  split; [by destruct (includeVoiceover request), (includeMusic request) |].
  split.
  { destruct (includeVoiceover request), (includeMusic request); simpl;
      repeat constructor. }
  split; [done | apply lookup_insert_eq].
Qed.

(** C10. Operations on a session id that is not in the store change
    nothing: the three updates return the store as it was, [getSession]
    finds nothing, and [getSessionProgress] reports progress 0 with no
    current stage. *)
Theorem absent_session_noop (sessions : gmap string GenerationSession) (sessionId : string)
    (newStatus : SessionStatus) (err : option string) (details : option ErrorSummary)
    (stage : ProcessingStage) (stageStatus : StageState) (message : option string)
    (pct : option Z) (stageErr : option string) (videoPath timestamp : string) :
  sessions !! sessionId = None ->
  updateSessionStatus sessionId newStatus err details timestamp sessions = sessions
  /\ updateStageStatus sessionId stage stageStatus message pct stageErr timestamp sessions
     = sessions
  /\ updateSessionFinalVideo sessionId videoPath timestamp sessions = sessions
  /\ getSession sessionId sessions = None
  /\ getSessionProgress sessionId sessions = mkProgress (JNum 0) None.
Proof.
  intros Habsent.
  unfold updateSessionStatus, updateStageStatus, updateSessionFinalVideo, getSession,
    getSessionProgress.
  by rewrite Habsent.
Qed.

Lemma absent_session_noop_witness :
  updateSessionStatus "no-such-session" failed (Some "boom") None
    "2025-01-01T00:00:01.000Z" exampleStore = exampleStore
  /\ updateStageStatus "no-such-session" merge st_completed None None None
       "2025-01-01T00:00:01.000Z" exampleStore = exampleStore
  /\ updateSessionFinalVideo "no-such-session" "runs/x/final_video.mp4"
       "2025-01-01T00:00:01.000Z" exampleStore = exampleStore
  /\ getSession "no-such-session" exampleStore = None
  /\ getSessionProgress "no-such-session" exampleStore = mkProgress (JNum 0) None.
Proof.
  apply absent_session_noop. vm_compute. reflexivity.
Defined.

(** *** Stage timestamps *)

Lemma findIndex_find {A} (p : A -> bool) (l : list A) :
  match findIndex p l with
  | Some i => exists x, l !! i = Some x /\ List.find p l = Some x /\ p x = true
  | None => List.find p l = None
  end.
Proof.
  induction l as [| y l IH]; simpl; [done |].
  destruct (p y) eqn:Hy; simpl; [by exists y |].
  destruct (findIndex p l); simpl; [| done].
  destruct IH as (x & ? & ? & ?). by exists x.
Qed.

Lemma find_insert_found {A} (p : A -> bool) (l : list A) (i : nat) (y : A) :
  findIndex p l = Some i -> p y = true -> List.find p (<[i := y]> l) = Some y.
Proof.
  revert i. induction l as [| x l IH]; intros i; simpl; [done |].
  destruct (p x) eqn:Hx.
  - intros [= <-] Hy. simpl. by rewrite Hy.
  - destruct (findIndex p l) as [j |] eqn:Hj; simpl; [| done].
    intros [= <-] Hy. simpl. rewrite Hx. by apply IH.
Qed.

Lemma find_insert_other {A} (q : A -> bool) (l : list A) (i : nat) (x y : A) :
  l !! i = Some x -> q x = false -> q y = false ->
  List.find q (<[i := y]> l) = List.find q l.
Proof.
  revert i. induction l as [| z l IH]; intros [| i]; simpl; try done.
  - intros [= ->] -> ->. done.
  - intros Hx Hqx Hqy. destruct (q z); [done |]. by eapply IH.
Qed.

(** What [updateStageStatus] does to the record of each stage. *)
Lemma stageOf_updateStageStatus sessions sid stage newStatus message pct err timestamp stage' :
  stageOf (updateStageStatus sid stage newStatus message pct err timestamp sessions) sid stage'
  = if bool_decide (stage' = stage)
    then (fun st => updateStage st newStatus message pct err timestamp)
           <$> stageOf sessions sid stage'
    else stageOf sessions sid stage'.
Proof.
  unfold updateStageStatus, stageOf.
  destruct (sessions !! sid) as [session |] eqn:Hs; [| rewrite Hs; by case_bool_decide].
  pose proof (findIndex_find (fun s => bool_decide (ss_stage s = stage)) (stages session))
    as Hfind.
  destruct (findIndex _ (stages session)) as [i |] eqn:Hi.
  - destruct Hfind as (st & Hst & Hfound & Hp). rewrite Hst, lookup_insert_eq. simpl.
    apply bool_decide_eq_true in Hp.
    case_bool_decide as Hstage.
    + subst stage'. rewrite Hfound. simpl.
      apply find_insert_found; [done |]. by apply bool_decide_eq_true.
    + eapply find_insert_other; [done | |]; apply bool_decide_eq_false; simpl; congruence.
  - rewrite Hs. case_bool_decide; [subst; by rewrite Hfind | done].
Qed.

Lemma stageOf_applyWrite sessions sid w stage :
  stageOf (applyWrite sid sessions w) sid stage
  = if bool_decide (stage = w_stage w)
    then (fun st => updateStage st (w_status w) (w_message w) (w_progress w) (w_error w)
                      (w_time w))
           <$> stageOf sessions sid stage
    else stageOf sessions sid stage.
Proof. apply stageOf_updateStageStatus. Qed.

(** A start time once written stays: no later write changes it. *)
Lemma startTime_kept sessions sid stage ws (t0 : string) :
  t0 <> "" ->
  startTime <$> stageOf sessions sid stage = Some (Some t0) ->
  startTime <$> stageOf (applyWrites sid ws sessions) sid stage = Some (Some t0)
  /\ fieldSets startTime sid stage ws sessions = O.
Proof.
  intros Ht0. revert sessions. induction ws as [| w ws IH]; intros sessions Hstart; [done |].
  assert (startTime <$> stageOf (applyWrite sid sessions w) sid stage = Some (Some t0))
    as Hnext.
  { rewrite stageOf_applyWrite. case_bool_decide; [| done].
    destruct (stageOf sessions sid stage) as [st |]; [| done].
    simpl in *. injection Hstart as Hstart. unfold updateStage. rewrite Hstart. simpl.
    assert (truthy t0 = true) as ->; [| by rewrite andb_false_r].
    unfold truthy. by apply negb_true_iff, String.eqb_neq. }
  destruct (IH _ Hnext) as [Hfinal Hcount].
  split; [done |]. simpl. rewrite Hcount, Hnext, Hstart.
  by rewrite bool_decide_eq_true_2.
Qed.

Lemma startTime_set_at_most_once sessions sid stage ws :
  Forall (fun w => w_time w <> "") ws ->
  (fieldSets startTime sid stage ws sessions <= 1)%nat.
Proof.
  intros Htimes. revert sessions.
  induction Htimes as [| w ws Hw _ IH]; intros sessions; simpl; [lia |].
  case_bool_decide as Hsame; [specialize (IH (applyWrite sid sessions w)); lia |].
  enough (fieldSets startTime sid stage ws (applyWrite sid sessions w) = O) as -> by lia.
  rewrite stageOf_applyWrite in Hsame.
  case_bool_decide; [| done].
  destruct (stageOf sessions sid stage) as [st |] eqn:Hst; [| done].
  apply (startTime_kept _ _ _ _ (w_time w)); [done |].
  rewrite stageOf_applyWrite, bool_decide_eq_true_2, Hst by done.
  simpl in *. unfold updateStage in *.
  destruct (bool_decide (w_status w = st_processing)
            && negb (truthy_opt (startTime st))); [done | congruence].
Qed.

(** C5, as stated, fails for [endTime]: when a stage is run again after
    an error, each of its two ends writes [endTime]. *)
Lemma endTime_set_twice :
  fieldSets endTime "session-1" merge retriedMergeWrites exampleStore = 2%nat
  /\ fieldSets startTime "session-1" merge retriedMergeWrites exampleStore = 1%nat
  /\ endTime <$> stageOf (applyWrites "session-1" (take 2 retriedMergeWrites) exampleStore)
                   "session-1" merge
     = Some (Some "2025-01-01T00:05:10.000Z")
  /\ endTime <$> stageOf (applyWrites "session-1" retriedMergeWrites exampleStore)
                   "session-1" merge
     = Some (Some "2025-01-01T00:05:30.000Z").
Proof. vm_compute. repeat split. Qed.

(** C5, amended. With non-empty timestamps, any sequence of writes sets
    a stage's [startTime] at most once: the first 'processing' write
    that finds none sets it, and two 'processing' writes in a row leave
    it as the first one set it. [endTime] is written by every
    'completed' or 'error' write, with the time of that write. *)
Theorem stage_timestamp_discipline (sessions : gmap string GenerationSession)
    (sid : string) (stage : ProcessingStage) :
  (forall ws, Forall (fun w => w_time w <> "") ws ->
     (fieldSets startTime sid stage ws sessions <= 1)%nat)
  /\ (forall st w,
        stageOf sessions sid stage = Some st ->
        truthy_opt (startTime st) = false ->
        w_stage w = stage -> w_status w = st_processing ->
        startTime <$> stageOf (applyWrite sid sessions w) sid stage
        = Some (Some (w_time w)))
  /\ (forall w1 w2,
        w_stage w1 = stage -> w_status w1 = st_processing -> w_time w1 <> "" ->
        w_stage w2 = stage -> w_status w2 = st_processing ->
        startTime <$> stageOf (applyWrites sid [w1; w2] sessions) sid stage
        = startTime <$> stageOf (applyWrite sid sessions w1) sid stage)
  /\ (forall st w,
        stageOf sessions sid stage = Some st ->
        w_stage w = stage -> w_status w = st_completed \/ w_status w = st_error ->
        endTime <$> stageOf (applyWrite sid sessions w) sid stage
        = Some (Some (w_time w))).
Proof.
  split; [intros ws Hws; by apply startTime_set_at_most_once |].
  split.
  { intros st w Hst Hnone <- Hproc.
    rewrite stageOf_applyWrite, bool_decide_eq_true_2, Hst by done.
    simpl. unfold updateStage. by rewrite Hproc, Hnone. }
  split.
  { intros w1 w2 <- Hp1 Ht1 Hs2 Hp2. simpl.
    rewrite (stageOf_applyWrite _ _ w2), bool_decide_eq_true_2 by done.
    destruct (stageOf (applyWrite sid sessions w1) sid (w_stage w1)) as [st1 |] eqn:Hst1;
      [| done].
    simpl. f_equal. unfold updateStage. rewrite Hp2.
    rewrite stageOf_applyWrite, bool_decide_eq_true_2 in Hst1 by done.
    destruct (stageOf sessions sid (w_stage w1)) as [st |]; [| done].
    injection Hst1 as <-. unfold updateStage. rewrite Hp1. simpl.
    destruct (truthy_opt (startTime st)) eqn:Htruthy; simpl; rewrite ?Htruthy; [done |].
    assert (truthy (w_time w1) = true) as ->; [| done].
    by apply negb_true_iff, String.eqb_neq. }
  intros st w Hst <- Hend.
  rewrite stageOf_applyWrite, bool_decide_eq_true_2, Hst by done.
  simpl. unfold updateStage. by destruct Hend as [-> | ->].
Qed.

Lemma stage_timestamp_discipline_witness :
  (fieldSets startTime "session-1" merge retriedMergeWrites exampleStore <= 1)%nat
  /\ startTime <$> stageOf (applyWrites "session-1" (take 3 retriedMergeWrites) exampleStore)
                     "session-1" merge
     = Some (Some "2025-01-01T00:05:00.000Z").
Proof.
  destruct (stage_timestamp_discipline exampleStore "session-1" merge)
    as (Honce & _ & _ & _).
  split; [| vm_compute; reflexivity].
  apply Honce. unfold retriedMergeWrites. repeat constructor; discriminate.
Defined.

(** ** Image stage: the rolling reference *)

Section Emits.
Context (env : Env).

Lemma emits_weaken {A} (m : M Ext A) (R R' : Outcome A -> list Event -> Prop) :
  emits m R -> (forall o new, R o new -> R' o new) -> emits m R'.
Proof. intros Hm HR x o x' Hrun. destruct (Hm _ _ _ Hrun) as (new & ? & ?). eauto. Qed.

Lemma emits_ret {A} (a : A) (R : Outcome A -> list Event -> Prop) :
  R (Ok a) [] -> emits (ret a) R.
Proof. intros HR x o x' [= <- <-]. by exists []. Qed.

Lemma emits_throw {A} (t : Thrown) (R : Outcome A -> list Event -> Prop) :
  R (Throw t) [] -> emits (@throw Ext A t) R.
Proof. intros HR x o x' [= <- <-]. by exists []. Qed.

Lemma emits_bind {A B} (m : M Ext A) (k : A -> M Ext B)
    (R1 : Outcome A -> list Event -> Prop) (R : Outcome B -> list Event -> Prop) :
  emits m R1 ->
  (forall t new, R1 (Throw t) new -> R (Throw t) new) ->
  (forall a new1, R1 (Ok a) new1 -> emits (k a) (fun o new2 => R o (new2 ++ new1)%list)) ->
  emits (bind m k) R.
Proof.
  intros Hm Hthrow Hk x o x'. unfold bind.
  destruct (m x) as [[a | t] x1] eqn:Hrun; destruct (Hm _ _ _ Hrun) as (new1 & Hev1 & HR1).
  - intros Hrun2. destruct (Hk _ _ HR1 _ _ _ Hrun2) as (new2 & Hev2 & HR2).
    exists (new2 ++ new1)%list. by rewrite Hev2, Hev1, app_assoc.
  - intros [= <- <-]. eauto.
Qed.

Lemma emits_try_catch {A} (m : M Ext A) (h : Thrown -> M Ext A)
    (R1 R : Outcome A -> list Event -> Prop) :
  emits m R1 ->
  (forall a new, R1 (Ok a) new -> R (Ok a) new) ->
  (forall t new1, R1 (Throw t) new1 -> emits (h t) (fun o new2 => R o (new2 ++ new1)%list)) ->
  emits (try_catch m h) R.
Proof.
  intros Hm Hok Hh x o x'. unfold try_catch.
  destruct (m x) as [[a | t] x1] eqn:Hrun; destruct (Hm _ _ _ Hrun) as (new1 & Hev1 & HR1).
  - intros [= <- <-]. eauto.
  - intros Hrun2. destruct (Hh _ _ HR1 _ _ _ Hrun2) as (new2 & Hev2 & HR2).
    exists (new2 ++ new1)%list. by rewrite Hev2, Hev1, app_assoc.
Qed.

Lemma emits_call {A} (ev : Event) (answer : Ext -> RawError + A)
    (R : Outcome A -> list Event -> Prop) :
  (forall o, R o [ev]) -> emits (call ev answer) R.
Proof.
  intros HR x o x'. unfold call.
  destruct (answer x); intros [= <- <-]; by exists [ev].
Qed.

Lemma emits_readFile (path : string) (R : Outcome Buffer -> list Event -> Prop) :
  (forall t, R (Throw t) [EvFs (OpReadFile path)]) ->
  (forall bytes, R (Ok (mkBuffer path bytes)) [EvFs (OpReadFile path)]) ->
  emits (readFile env path) R.
Proof.
  intros Hthrow Hok x o x'. unfold readFile, fsCall.
  destruct (fs_fault env x _); [intros [= <- <-]; by eexists [_] |].
  simpl. destruct (files x !! path); intros [= <- <-]; by eexists [_].
Qed.

Lemma emits_fs_unit (m : M Ext unit) (op : FsOp) (R : Outcome unit -> list Event -> Prop) :
  (exists effect, m = fsCall env op effect
                  /\ forall x o x', effect x = (o, x') -> events x' = events x) ->
  (forall o, R o [EvFs op]) ->
  emits m R.
Proof.
  intros (effect & -> & Heffect) HR x o x'. unfold fsCall.
  destruct (fs_fault env x op); [intros [= <- <-]; by eexists [_] |].
  intros Hrun. apply Heffect in Hrun. simpl in Hrun. by eexists [_].
Qed.

Lemma emits_ensureDir (path : string) (R : Outcome unit -> list Event -> Prop) :
  (forall o, R o [EvFs (OpEnsureDir path)]) -> emits (ensureDir env path) R.
Proof.
  apply emits_fs_unit. eexists. split; [reflexivity |]. by intros x o x' [= <- <-].
Qed.

Lemma emits_writeFile (path bytes : string) (R : Outcome unit -> list Event -> Prop) :
  (forall o, R o [EvFs (OpWriteFile path)]) -> emits (writeFile env path bytes) R.
Proof.
  apply emits_fs_unit. eexists. split; [reflexivity |]. by intros x o x' [= <- <-].
Qed.

Lemma emits_withRetry_loop {A} (operation : M Ext A) (opts : RetryOptions)
    (R : Outcome A -> list Event -> Prop) (n : nat) (attempt : Z) (last : Thrown)
    (P : list Event -> Prop) :
  P [] ->
  (forall new1 new2, P new1 -> P new2 -> P (new2 ++ new1)%list) ->
  emits operation (fun o new => P new /\ (forall a, o = Ok a -> R (Ok a) new)) ->
  (forall a new1 new2, R (Ok a) new2 -> P new1 -> R (Ok a) (new2 ++ new1)%list) ->
  emits (withRetry_loop operation opts n attempt last)
    (fun o new => P new /\ (forall a, o = Ok a -> R (Ok a) new)).
Proof.
  intros Hnil Happ Hop Hext. revert attempt last.
  induction n as [| n IH]; intros attempt last; simpl.
  - apply emits_throw. by split.
  - eapply emits_try_catch; [exact Hop | by intros a new [? ?] | ].
    intros t new1 [HP1 _].
    destruct (negb (isRetryable opts t) || (attempt =? maxAttempts opts)).
    + apply emits_throw. by split.
    + eapply emits_weaken; [apply IH |].
      intros o new2 [HP2 HR2]. split; [by apply Happ |].
      intros a ->. apply Hext; eauto.
Qed.

End Emits.

Ltac events_done :=
  unfold modelCallsUse;
  repeat first [apply Forall_nil | apply Forall_cons; split | apply Forall_app; split];
  simpl; try done; try (by intros []).

Lemma modelCallsUse_none (refs : list string) (evs : list Event) :
  Forall (fun ev => ~ isImageModelCall ev) evs -> modelCallsUse refs evs.
Proof.
  intros Hnone. eapply Forall_impl; [exact Hnone |].
  intros [] Hev; try done; by destruct Hev.
Qed.

Section ImageStage.
Context (env : Env).

Lemma extractUrl_emits (output : ModelOutput) (new : list Event)
    (R : Outcome string -> list Event -> Prop) :
  (forall o, R o []) -> emits (extractUrl output) R.
Proof.
  intros HR. unfold extractUrl.
  destruct output as [| s | [| first rest] | url | url |];
    try destruct (truthy _); (apply emits_ret || apply emits_throw); apply HR.
Qed.

Lemma runImageModel_emits scene reference original options :
  emits (runImageModel env scene reference original options)
    (fun o new =>
       modelCallsUse (expectedReferences options reference original) new
       /\ (forall url, o = Ok url -> Exists isImageModelCall new)).
Proof.
  unfold runImageModel.
  eapply emits_bind.
  { apply (emits_readFile env reference
             (fun o new => new = [EvFs (OpReadFile reference)]
                           /\ forall b, o = Ok b -> buf_path b = reference)).
    - intros t. by split.
    - intros bytes. split; [done |]. by intros b [= <-]. }
  { intros t new [-> _]. split; [by repeat constructor | done]. }
  intros referenceImageBuffer new1 [-> Href]. specialize (Href _ eq_refl).
  eapply emits_bind with
    (R1 := fun o new =>
             modelCallsUse [] new /\ Forall (fun ev => ~ isImageModelCall ev) new
             /\ forall a, o = Ok a ->
                  match includeOriginalAnchor options with
                  | Some true => exists b, a = Some b /\ buf_path b = original
                  | _ => a = None
                  end).
  { destruct (includeOriginalAnchor options) as [[|] |].
    - eapply emits_bind.
      + apply (emits_readFile env original
             (fun o new => new = [EvFs (OpReadFile original)]
                           /\ forall b, o = Ok b -> buf_path b = original)).
        * intros t. by split.
        * intros bytes. split; [done |]. by intros b [= <-].
      + intros t new [-> _]. repeat split; try events_done.
      + intros b new [-> Hb]. apply emits_ret. simpl.
        repeat split; try events_done. intros a [= <-]. eauto.
    - apply emits_ret. repeat split; try events_done; try by intros a [= <-].
    - apply emits_ret. repeat split; try events_done; try by intros a [= <-]. }
  { intros t new (Huse & Hnone & _). split; [| done].
    apply Forall_app. split; [by apply modelCallsUse_none | events_done]. }
  intros anchor new1 (_ & Hnone & Hanchor). specialize (Hanchor _ eq_refl).
  assert (modelCallsUse (expectedReferences options reference original)
            (new1 ++ [EvFs (OpReadFile reference)])) as Hbefore.
  { apply Forall_app. split; [by apply modelCallsUse_none | events_done]. }
  destruct (provider options) eqn:Hprovider.
  - eapply emits_bind.
    + apply (emits_call _ _ (fun o new =>
               new = [EvImageModel "ideogram-ai/ideogram-character"
                        (IdeogramInput (imagePrompt scene) referenceImageBuffer)])).
      done.
    + intros t new ->. split; [| done].
      rewrite <- app_assoc. apply Forall_app. split; [| done].
      repeat constructor. simpl. unfold expectedReferences. by rewrite Hprovider, Href.
    + intros output new ->. apply extractUrl_emits; [exact [] |].
      intros o. split.
      * rewrite <- app_assoc. apply Forall_app. split; [| done].
        repeat constructor. simpl. unfold expectedReferences. by rewrite Hprovider, Href.
      * intros _ _. by apply Exists_cons_hd.
  - eapply emits_bind.
    + apply (emits_call _ _ (fun o new =>
               exists input, new = [EvImageModel "google/nano-banana" input]
                 /\ referencePaths input = expectedReferences options reference original)).
      intros o. eexists. split; [reflexivity |].
      unfold expectedReferences. rewrite Hprovider. simpl.
      destruct (includeOriginalAnchor options) as [[|] |].
      * destruct Hanchor as (b & -> & Hb). simpl. by rewrite Href, Hb.
      * subst anchor. simpl. by rewrite Href.
      * subst anchor. simpl. by rewrite Href.
    + intros t new (input & -> & Hrefs). split; [| done].
      rewrite <- app_assoc. apply Forall_app. split; [| done]. by repeat constructor.
    + intros output new (input & -> & Hrefs). apply extractUrl_emits; [exact [] |].
      intros o. split.
      * rewrite <- app_assoc. apply Forall_app. split; [| done]. by repeat constructor.
      * intros _ _. by apply Exists_cons_hd.
Qed.

Lemma generateSingleSceneImage_emits scene reference original sid (n : nat) options :
  emits (generateSingleSceneImage env scene reference original sid n options)
    (fun o new =>
       modelCallsUse (expectedReferences options reference original) new
       /\ (forall p, o = Ok p ->
              p = sceneImagePath env sid n /\ Exists isImageModelCall new)).
Proof.
  unfold generateSingleSceneImage.
  eapply emits_bind.
  { apply (emits_ensureDir env _ (fun o new => new = [EvFs (OpEnsureDir (sceneImageDir env sid))])).
    done. }
  { intros t new ->. split; [events_done | done]. }
  intros _ new0 ->.
  eapply emits_bind.
  { unfold withRetry.
    apply (emits_withRetry_loop _ _
             (fun o new => Exists isImageModelCall new) _ _ _
             (modelCallsUse (expectedReferences options reference original))).
    - events_done.
    - intros new1 new2 H1 H2. by apply Forall_app.
    - eapply emits_weaken; [apply runImageModel_emits |].
      intros o new [Huse Hcall]. eauto.
    - intros a new1 new2 Hcall _. apply Exists_app. by left. }
  { intros t new [Huse _]. split; [| done].
    apply Forall_app. split; [done | events_done]. }
  intros imageUrl new1 [Huse Hcall]. specialize (Hcall _ eq_refl).
  eapply emits_bind.
  { apply (emits_call _ _ (fun o new => new = [EvFetch imageUrl])). done. }
  { intros t new ->. split; [| done].
    rewrite <- app_assoc. simpl. constructor; [done |].
    apply Forall_app. split; [done | events_done]. }
  intros response new ->.
  assert (modelCallsUse (expectedReferences options reference original)
            (([EvFetch imageUrl] ++ new1) ++ [EvFs (OpEnsureDir (sceneImageDir env sid))]))
    as Hsofar.
  { rewrite <- app_assoc. simpl. constructor; [done |].
    apply Forall_app. split; [done | events_done]. }
  destruct (negb (ok response)).
  { apply emits_throw. by split. }
  eapply emits_bind.
  { apply (emits_writeFile env _ _
             (fun o new => new = [EvFs (OpWriteFile (sceneImagePath env sid n))])).
    done. }
  { intros t new ->. split; [| done]. simpl. by constructor. }
  intros _ new ->. apply emits_ret. split.
  - simpl. by constructor.
  - intros p [= <-]. split; [done |].
    simpl. apply Exists_cons_tl, Exists_cons_tl, Exists_app. by left.
Qed.

(** The loop of [generateSceneImages]: the worlds between the scenes. *)
Lemma generateSceneImages_from_chain original sid options remaining :
  forall (i : nat) acc prev x paths x',
  generateSceneImages_from env remaining i acc prev original sid options x = (Ok paths, x') ->
  paths = (acc ++ ((fun k => sceneImagePath env sid (Datatypes.S k))
                     <$> seq i (length remaining)))%list
  /\ exists worlds : list Ext,
       length worlds = Datatypes.S (length remaining)
       /\ worlds !! O = Some x /\ last worlds = Some x'
       /\ forall (k : nat) scene, remaining !! k = Some scene ->
            exists xk xk' new,
              worlds !! k = Some xk /\ worlds !! Datatypes.S k = Some xk'
              /\ let reference :=
                   match k with
                   | O => prev
                   | Datatypes.S j => sceneImagePath env sid (Datatypes.S (i + j))
                   end in
                 generateSingleSceneImage env scene reference original sid
                   (Datatypes.S (i + k)) options xk
                 = (Ok (sceneImagePath env sid (Datatypes.S (i + k))), xk')
                 /\ events xk' = (new ++ events xk)%list
                 /\ modelCallsUse (expectedReferences options reference original) new
                 /\ Exists isImageModelCall new.
Proof.
  induction remaining as [| scene rest IH]; intros i acc prev x paths x'; simpl.
  - intros [= <- <-]. split; [by rewrite app_nil_r |].
    exists [x]. repeat split. intros k scene Hk. by destruct k.
  - unfold bind at 1.
    destruct (generateSingleSceneImage env scene prev original sid (i + 1) options x)
      as [[p | t] x1] eqn:Hscene; [| done].
    destruct (generateSingleSceneImage_emits _ _ _ _ _ _ _ _ _ Hscene)
      as (new & Hnew & Huse & Hp).
    destruct (Hp _ eq_refl) as [-> Hcall]. clear Hp.
    replace (i + 1)%nat with (Datatypes.S i) in * by lia.
    intros Hrest. destruct (IH _ _ _ _ _ _ Hrest) as (-> & worlds & Hlen & Hhead & Hlast & Hk).
    split; [by rewrite <- app_assoc |].
    exists (x :: worlds). repeat split; simpl.
    + by rewrite Hlen.
    + destruct worlds; [done | by rewrite last_cons_cons].
    + intros [| k] scene' Hscene'; simpl in *.
      * injection Hscene' as <-. exists x, x1, new.
        rewrite Nat.add_0_r. by repeat split.
      * destruct (Hk _ _ Hscene') as (xk & xk' & new' & Hw1 & Hw2 & Hstep).
        exists xk, xk', new'. split; [done | split; [done |]].
        replace (i + Datatypes.S k)%nat with (Datatypes.S (i + k)) by lia.
        destruct k as [| j]; simpl in *.
        -- rewrite Nat.add_0_r in *. exact Hstep.
        -- replace (i + Datatypes.S j)%nat with (Datatypes.S (i + j)) in * by lia.
           exact Hstep.
Qed.

(** C1. When [generateSceneImages] returns, it returns the paths of
    scenes 1..N in scene order, and the run is N single-scene generations
    one after the other: scene 1 is generated with the original upload as
    its reference, scene k > 1 with exactly the path returned for scene
    k - 1. Every call of the image model made for a scene carries that
    reference file (followed by the original upload when the provider is
    nano-banana and [includeOriginalAnchor] is set), and at least one such
    call is made per scene. *)
Theorem rolling_reference_chain (scenePrompts : list ScenePrompts)
    (original sid : string) (options : ImageGenerationOptions) (x x' : Ext)
    (imagePaths : list string) :
  scenePrompts <> [] ->
  generateSceneImages env scenePrompts original sid options x = (Ok imagePaths, x') ->
  imagePaths = (fun k => sceneImagePath env sid (Datatypes.S k))
                 <$> seq 0 (length scenePrompts)
  /\ exists worlds : list Ext,
       length worlds = Datatypes.S (length scenePrompts)
       /\ worlds !! O = Some x /\ last worlds = Some x'
       /\ forall (k : nat) scene, scenePrompts !! k = Some scene ->
            exists reference xk xk' new,
              rollingReference original imagePaths k = Some reference
              /\ worlds !! k = Some xk /\ worlds !! Datatypes.S k = Some xk'
              /\ generateSingleSceneImage env scene reference original sid
                   (Datatypes.S k) options xk
                 = (Ok (sceneImagePath env sid (Datatypes.S k)), xk')
              /\ events xk' = (new ++ events xk)%list
              /\ modelCallsUse (expectedReferences options reference original) new
              /\ Exists isImageModelCall new.
Proof.
  intros _ Hrun. unfold generateSceneImages in Hrun.
  destruct (generateSceneImages_from_chain _ _ _ _ _ _ _ _ _ _ Hrun)
    as (-> & worlds & Hlen & Hhead & Hlast & Hk).
  split; [done |]. exists worlds. repeat split; try done.
  intros k scene Hscene.
  destruct (Hk _ _ Hscene) as (xk & xk' & new & ? & ? & Hstep).
  simpl in Hstep.
  exists (match k with
          | O => original
          | Datatypes.S j => sceneImagePath env sid (Datatypes.S j)
          end), xk, xk', new.
  split; [| done].
  destruct k as [| j]; [done |]. simpl.
  apply lookup_lt_Some in Hscene.
  rewrite list_lookup_fmap, lookup_seq_lt by lia. done.
Qed.

End ImageStage.

Lemma rolling_reference_chain_witness :
  fst (generateSceneImages exampleEnv exampleScenes "uploads/face.png" "session-1"
         exampleImageOptions exampleExt)
  = Ok ["/app/images/session-1/scene-1.png"; "/app/images/session-1/scene-2.png"]
  /\ ["/app/images/session-1/scene-1.png"; "/app/images/session-1/scene-2.png"]
     = (fun k => sceneImagePath exampleEnv "session-1" (Datatypes.S k)) <$> seq 0 2.
Proof.
  assert (fst (generateSceneImages exampleEnv exampleScenes "uploads/face.png" "session-1"
                 exampleImageOptions exampleExt)
          = Ok ["/app/images/session-1/scene-1.png"; "/app/images/session-1/scene-2.png"]) as Hrun.
  { vm_compute. reflexivity. }
  split; [exact Hrun |].
  refine (proj1 (rolling_reference_chain exampleEnv exampleScenes "uploads/face.png"
                   "session-1" exampleImageOptions exampleExt
                   (snd (generateSceneImages exampleEnv exampleScenes "uploads/face.png"
                           "session-1" exampleImageOptions exampleExt))
                   _ _ _)).
  - discriminate.
  - rewrite <- Hrun. apply surjective_pairing.
Defined.

(** ** Reasoning rules for the monad *)



Section MonadRules.
Context {S : Type}.
Implicit Types (I : S -> Prop).

Lemma bind_Ok_inv {A B} (m : M S A) (k : A -> M S B) s b s' :
  bind m k s = (Ok b, s') -> exists a s1, m s = (Ok a, s1) /\ k a s1 = (Ok b, s').
Proof. unfold bind. destruct (m s) as [[a | t] s1]; [eauto | done]. Qed.

Lemma bind_Throw_inv {A B} (m : M S A) (k : A -> M S B) s t s' :
  bind m k s = (Throw t, s') ->
  m s = (Throw t, s') \/ exists a s1, m s = (Ok a, s1) /\ k a s1 = (Throw t, s').
Proof. unfold bind. destruct (m s) as [[a | t'] s1]; [eauto | intros [= <- <-]; eauto]. Qed.

Lemma bind_run {A B} (m : M S A) (k : A -> M S B) s a s1 :
  m s = (Ok a, s1) -> bind m k s = k a s1.
Proof. unfold bind. by intros ->. Qed.

Lemma bind_run_throw {A B} (m : M S A) (k : A -> M S B) s t s1 :
  m s = (Throw t, s1) -> bind m k s = (Throw t, s1).
Proof. unfold bind. by intros ->. Qed.

Lemma preserves_ret {A} I (a : A) : preserves I (ret a).
Proof. by intros s o s' HI [= <- <-]. Qed.

Lemma preserves_throw {A} I (t : Thrown) : preserves I (@throw S A t).
Proof. by intros s o s' HI [= <- <-]. Qed.

Lemma preserves_get I : preserves I (@get S).
Proof. by intros s o s' HI [= <- <-]. Qed.

Lemma preserves_bind {A B} I (m : M S A) (k : A -> M S B) :
  preserves I m -> (forall a, preserves I (k a)) -> preserves I (bind m k).
Proof.
  intros Hm Hk s o s' HI. unfold bind.
  destruct (m s) as [[a | t] s1] eqn:Hrun.
  - apply (Hk a). eapply Hm; eauto.
  - intros [= <- <-]. eapply Hm; eauto.
Qed.

Lemma preserves_try_catch {A} I (m : M S A) (h : Thrown -> M S A) :
  preserves I m -> (forall t, preserves I (h t)) -> preserves I (try_catch m h).
Proof.
  intros Hm Hh s o s' HI. unfold try_catch.
  destruct (m s) as [[a | t] s1] eqn:Hrun.
  - intros [= <- <-]. eapply Hm; eauto.
  - apply (Hh t). eapply Hm; eauto.
Qed.

Lemma preserves_withRetry {A} I (operation : M S A) (options : PartialRetryOptions) :
  preserves I operation -> preserves I (withRetry operation options).
Proof.
  intros Hop. unfold withRetry.
  generalize (Z.to_nat (maxAttempts (mergeOptions options))) 1 TNullish.
  induction n as [| n IH]; intros attempt last; simpl.
  - apply preserves_throw.
  - apply preserves_try_catch; [done |]. intros t.
    destruct (_ || _); [apply preserves_throw | apply IH].
Qed.

Lemma preserves_classify I (error : Thrown) (context : ErrorContext) :
  preserves I (@classify S error context).
Proof. destruct error; simpl; [apply preserves_ret .. | apply preserves_throw]. Qed.

Lemma preserves_executeWithRetry {A} I (operation : M S A) (stage sid : string)
    (maxRetries : Z) :
  preserves I operation -> preserves I (executeWithRetry operation stage sid maxRetries).
Proof.
  intros Hop. unfold executeWithRetry.
  generalize (Z.to_nat maxRetries) 1 TNullish.
  induction n as [| n IH]; intros attempt last; simpl.
  - apply preserves_throw.
  - apply preserves_try_catch; [done |]. intros t.
    apply preserves_bind; [apply preserves_classify |]. intros a.
    destruct (negb _); [apply preserves_throw | apply IH].
Qed.

(** A result of [executeWithRetry] is the result of one run of the
    operation, from a state that the earlier runs left. *)
Lemma executeWithRetry_Ok_inv {A} I (operation : M S A) (stage sid : string)
    (maxRetries : Z) s a s' :
  preserves I operation -> I s ->
  executeWithRetry operation stage sid maxRetries s = (Ok a, s') ->
  exists s0, I s0 /\ operation s0 = (Ok a, s').
Proof.
  intros Hop. unfold executeWithRetry.
  generalize (Z.to_nat maxRetries) 1 TNullish. intros n. revert s.
  induction n as [| n IH]; intros s attempt last HI; simpl; [done |].
  unfold try_catch. destruct (operation s) as [[a' | t] s1] eqn:Hrun.
  - intros [= <- <-]. eauto.
  - assert (I s1) as HI1 by (eapply Hop; eauto).
    unfold bind. destruct (classify t _ s1) as [[e | t'] s2] eqn:Hcls; [| done].
    assert (s2 = s1) as -> by (destruct t; simpl in Hcls; by injection Hcls).
    destruct (negb _); [done |]. by apply IH.
Qed.

Lemma shouldRetry_attempt (a : AppError) (attempt maxRetries : Z) :
  shouldRetry a attempt maxRetries = true -> attempt < maxRetries.
Proof. unfold shouldRetry. destruct (attempt >=? maxRetries) eqn:Hge; [done | lia]. Qed.

(** With at least one attempt allowed, what [executeWithRetry] throws is
    an [AppError], or the [TypeError] of classifying a thrown
    [undefined]: the [throw lastError] after its loop is never reached. *)
Lemma executeWithRetry_throws {A} (operation : M S A) (stage sid : string)
    (maxRetries : Z) s t s' :
  1 <= maxRetries ->
  executeWithRetry operation stage sid maxRetries s = (Throw t, s') -> t <> TNullish.
Proof.
  intros Hmax. unfold executeWithRetry.
  enough (forall (n : nat) s attempt last,
             attempt + Z.of_nat n = maxRetries + 1 -> n <> O ->
             executeWithRetry_loop operation stage sid maxRetries n attempt last s
             = (Throw t, s') -> t <> TNullish) as Hloop
    by (apply Hloop; lia).
  clear s. induction n as [| n IH]; intros s attempt last Hsum Hpos; [done |]. simpl.
  unfold try_catch. destruct (operation s) as [[a' | t0] s1]; [done |].
  unfold bind, classify, throw, ret.
  destruct t0 as [e | e |]; [| | by intros [= <- <-]].
  - destruct (shouldRetry e attempt maxRetries) eqn:Hretry; simpl; [| by intros [= <- <-]].
    apply shouldRetry_attempt in Hretry. apply IH; lia.
  - destruct (shouldRetry _ attempt maxRetries) eqn:Hretry; simpl; [| by intros [= <- <-]].
    apply shouldRetry_attempt in Hretry. apply IH; lia.
Qed.

End MonadRules.

(** ** What the services and the stages keep *)

Section Keeps.
Context (env : Env).

Implicit Types (P : gmap string Artifacts -> Prop).

Lemma preserves_bind_post {S A B} (I : S -> Prop) (Q : A -> Prop) (m : M S A)
    (k : A -> M S B) :
  preserves I m ->
  (forall s a s', I s -> m s = (Ok a, s') -> Q a) ->
  (forall a, Q a -> preserves I (k a)) ->
  preserves I (bind m k).
Proof.
  intros Hm HQ Hk s o s' HI. unfold bind.
  destruct (m s) as [[a | t] s1] eqn:Hrun.
  - apply (Hk a); [eapply HQ | eapply Hm]; eauto.
  - intros [= <- <-]. eapply Hm; eauto.
Qed.

Lemma preserves_call {A} P (ev : Event) (answer : Ext -> RawError + A) :
  preserves (fun x => P (docs x)) (call ev answer).
Proof. intros x o x' HP. unfold call. by destruct (answer x); intros [= <- <-]. Qed.

Lemma preserves_newTimestamp P : preserves (fun x => P (docs x)) (newTimestamp env).
Proof. by intros x o x' HP [= <- <-]. Qed.

Lemma preserves_newUuid P : preserves (fun x => P (docs x)) (newUuid env).
Proof. by intros x o x' HP [= <- <-]. Qed.

Lemma preserves_fsCall {A} P (op : FsOp) (effect : Ext -> Outcome A * Ext) :
  preserves (fun x => P (docs x)) effect ->
  preserves (fun x => P (docs x)) (fsCall env op effect).
Proof.
  intros Heffect x o x' HP. unfold fsCall.
  destruct (fs_fault env x op); [by intros [= <- <-] |].
  by apply Heffect.
Qed.

Lemma preserves_ensureDir P path : preserves (fun x => P (docs x)) (ensureDir env path).
Proof. apply preserves_fsCall. by intros x o x' HP [= <- <-]. Qed.

Lemma preserves_readFile P path : preserves (fun x => P (docs x)) (readFile env path).
Proof.
  apply preserves_fsCall. intros x o x' HP.
  by destruct (files x !! path); intros [= <- <-].
Qed.

Lemma preserves_writeFile P path bytes :
  preserves (fun x => P (docs x)) (writeFile env path bytes).
Proof. apply preserves_fsCall. by intros x o x' HP [= <- <-]. Qed.

Lemma preserves_copy P src dst : preserves (fun x => P (docs x)) (copy env src dst).
Proof.
  apply preserves_fsCall. intros x o x' HP.
  by destruct (files x !! src); intros [= <- <-].
Qed.

Lemma preserves_readJson P path : preserves (fun x => P (docs x)) (readJson env path).
Proof.
  apply preserves_fsCall. intros x o x' HP.
  by destruct (docs x !! path); intros [= <- <-].
Qed.

Lemma preserves_runCommand P command :
  preserves (fun x => P (docs x)) (runCommand env command).
Proof.
  intros x o x' HP. unfold runCommand.
  by destruct (ffmpeg_run env x command); intros [= <- <-].
Qed.

End Keeps.

(** Breaks a goal [preserves I m] along the structure of [m]. *)
Ltac keeps :=
  repeat first
    [ apply preserves_ret
    | apply preserves_throw
    | apply preserves_get
    | apply preserves_call
    | apply preserves_newTimestamp
    | apply preserves_newUuid
    | apply preserves_ensureDir
    | apply preserves_readFile
    | apply preserves_writeFile
    | apply preserves_copy
    | apply preserves_readJson
    | apply preserves_runCommand
    | apply preserves_withRetry
    | apply preserves_executeWithRetry
    | apply preserves_classify
    | apply preserves_bind; [| intros ?]
    | apply preserves_try_catch; [| intros ?]
    | match goal with
      | |- preserves _ (match ?d with _ => _ end) => destruct d
      | |- preserves _ (if ?b then _ else _) => destruct b
      | |- preserves _ (let '(_, _) := ?p in _) => destruct p
      end ].

Section Services.
Context (env : Env).
Implicit Types (P : gmap string Artifacts -> Prop).

Lemma preserves_extractUrl P output : preserves (fun x => P (docs x)) (extractUrl output).
Proof. unfold extractUrl. keeps. Qed.

Lemma preserves_generateSceneImages P scenePrompts original sid options :
  preserves (fun x => P (docs x))
    (generateSceneImages env scenePrompts original sid options).
Proof.
  unfold generateSceneImages.
  enough (forall (i : nat) acc prev,
             preserves (fun x => P (docs x))
               (generateSceneImages_from env scenePrompts i acc prev original sid options))
    as Hloop by apply Hloop.
  induction scenePrompts as [| scene rest IH]; intros i acc prev; simpl; [keeps |].
  apply preserves_bind; [| intros p; apply IH].
  unfold generateSingleSceneImage, runImageModel. keeps; apply preserves_extractUrl.
Qed.

Lemma preserves_generateSceneVideos P scenePrompts sceneImagePaths sid duration :
  preserves (fun x => P (docs x))
    (generateSceneVideos env scenePrompts sceneImagePaths sid duration).
Proof.
  unfold generateSceneVideos. apply preserves_bind; [keeps | intros _].
  generalize O (@nil string).
  induction scenePrompts as [| scene rest IH]; intros i acc; simpl; [keeps |].
  apply preserves_bind; [| intros p; apply IH].
  unfold KlingService.generateVideo, downloadVideo. keeps.
Qed.

Lemma preserves_generateBackgroundMusic P musicPrompt duration sid :
  preserves (fun x => P (docs x)) (generateBackgroundMusic env musicPrompt duration sid).
Proof. unfold generateBackgroundMusic, generateMusic. keeps. Qed.

Lemma preserves_concatenateVideos P options :
  preserves (fun x => P (docs x)) (concatenateVideos env options).
Proof.
  unfold concatenateVideos. apply preserves_bind; [apply preserves_get | intros x].
  destruct (List.find _ _).
  - apply preserves_bind; [| intros _; apply preserves_throw].
    intros x1 o x2 HP. unfold startCommand. by intros [= <- <-].
  - keeps.
Qed.

Lemma preserves_addAudioToVideo P videoPath audioOptions :
  preserves (fun x => P (docs x)) (addAudioToVideo env videoPath audioOptions).
Proof. unfold addAudioToVideo, checkVideoHasAudio. keeps. Qed.

Lemma preserves_openai_generatePrompts P sceneCount description voiceover music sid :
  preserves (fun x => P (docs x))
    (OpenAIService.generatePrompts env sceneCount description voiceover music sid).
Proof. unfold OpenAIService.generatePrompts. keeps. Qed.

End Services.

(** ** The orchestrator *)




Lemma updateStageStatus_lookup sessions sid stage newStatus message pct err timestamp sid' :
  match sessions !! sid' with
  | Some s =>
      exists s', updateStageStatus sid stage newStatus message pct err timestamp sessions
                 !! sid' = Some s'
                 /\ status s' = status s /\ finalVideoPath s' = finalVideoPath s
                 /\ error s' = error s
  | None =>
      updateStageStatus sid stage newStatus message pct err timestamp sessions !! sid' = None
  end.
Proof.
  unfold updateStageStatus.
  destruct (sessions !! sid) as [session |] eqn:Hs.
  2: { destruct (sessions !! sid'); eauto. }
  destruct (findIndex _ _) as [i |].
  2: { destruct (sessions !! sid'); eauto. }
  destruct (stages session !! i).
  2: { destruct (sessions !! sid'); eauto. }
  destruct (decide (sid = sid')) as [<- | Hne].
  - rewrite Hs, lookup_insert_eq. eauto.
  - rewrite lookup_insert_ne by done. destruct (sessions !! sid'); eauto.
Qed.

Lemma HasMerge_updateStageStatus sid sessions sid' stage newStatus message pct err timestamp :
  HasMerge sid sessions ->
  HasMerge sid (updateStageStatus sid' stage newStatus message pct err timestamp sessions).
Proof.
  unfold HasMerge. intros Hmerge.
  destruct (decide (sid' = sid)) as [-> | Hne].
  - rewrite stageOf_updateStageStatus. case_bool_decide; [| done].
    by apply fmap_is_Some.
  - unfold stageOf in *. unfold updateStageStatus.
    destruct (sessions !! sid') as [session |]; [| done].
    destruct (findIndex _ _); [| done].
    destruct (stages session !! _); [| done].
    by rewrite lookup_insert_ne.
Qed.

Lemma stageOf_updateSessionStatus sessions sid newStatus err details timestamp sid' stage :
  stageOf (updateSessionStatus sid newStatus err details timestamp sessions) sid' stage
  = stageOf sessions sid' stage.
Proof.
  unfold stageOf, updateSessionStatus.
  destruct (sessions !! sid) as [session |] eqn:Hs; [| done].
  destruct (decide (sid = sid')) as [<- | Hne].
  - by rewrite lookup_insert_eq, Hs.
  - by rewrite lookup_insert_ne.
Qed.

Lemma stageOf_updateSessionFinalVideo sessions sid videoPath timestamp sid' stage :
  stageOf (updateSessionFinalVideo sid videoPath timestamp sessions) sid' stage
  = stageOf sessions sid' stage.
Proof.
  unfold stageOf, updateSessionFinalVideo.
  destruct (sessions !! sid) as [session |] eqn:Hs; [| done].
  destruct (decide (sid = sid')) as [<- | Hne].
  - by rewrite lookup_insert_eq, Hs.
  - by rewrite lookup_insert_ne.
Qed.

Lemma HasMerge_lookup sid sessions :
  HasMerge sid sessions -> is_Some (sessions !! sid).
Proof. unfold HasMerge, stageOf. destruct (sessions !! sid); [done | by intros []]. Qed.

Section Orchestrator.
Context (env : Env).

Lemma liftExt_inv {A} (m : M Ext A) w o w' :
  liftExt m w = (o, w') ->
  exists x', m (ext w) = (o, x') /\ w' = mkWorld (store w) x'.
Proof. unfold liftExt. destruct (m (ext w)) as [o' x']. intros [= <- <-]. eauto. Qed.

Lemma liftExt_run {A} (m : M Ext A) w o x' :
  m (ext w) = (o, x') -> liftExt m w = (o, mkWorld (store w) x').
Proof. unfold liftExt. by intros ->. Qed.

Lemma preserves_liftExt {A} (J : gmap string GenerationSession -> Prop)
    (P : gmap string Artifacts -> Prop) (m : M Ext A) :
  preserves (fun x => P (docs x)) m ->
  preserves (fun w => J (store w) /\ P (docs (ext w))) (liftExt m).
Proof.
  intros Hm w o w' [HJ HP] Hrun.
  apply liftExt_inv in Hrun as (x' & Hrun & ->). simpl.
  split; [done |]. eapply Hm; eauto.
Qed.

(** What the session manager's writes leave alone. *)
Lemma sm_updateStageStatus_inv sid stage newStatus message pct err w o w' :
  sm_updateStageStatus env sid stage newStatus message pct err w = (o, w') ->
  o = Ok tt
  /\ files (ext w') = files (ext w) /\ docs (ext w') = docs (ext w)
  /\ (exists new, events (ext w') = (new ++ events (ext w))%list
                  /\ Forall (fun ev => ev = EvClock) new)
  /\ exists timestamp,
       store w' = updateStageStatus sid stage newStatus message pct err timestamp (store w).
Proof.
  unfold sm_updateStageStatus, bind, get.
  destruct (stageOf (store w) sid stage) as [st |] eqn:Hst.
  - unfold liftExt, newTimestamp, modify. intros [= <- <-]. simpl.
    repeat split; eauto. exists [EvClock]. split; [done | by repeat constructor].
  - intros [= <- <-]. repeat split; [by exists [] |].
    exists "". unfold updateStageStatus. unfold stageOf in Hst.
    destruct (store w !! sid) as [session |]; [| done].
    pose proof (findIndex_find (fun s => bool_decide (ss_stage s = stage)) (stages session))
      as Hfind.
    destruct (findIndex _ _); [| done].
    destruct Hfind as (? & ? & ? & ?). congruence.
Qed.

Lemma sm_updateSessionStatus_inv sid newStatus err details w o w' :
  sm_updateSessionStatus env sid newStatus err details w = (o, w') ->
  o = Ok tt
  /\ files (ext w') = files (ext w) /\ docs (ext w') = docs (ext w)
  /\ (exists new, events (ext w') = (new ++ events (ext w))%list
                  /\ Forall (fun ev => ev = EvClock) new)
  /\ exists timestamp,
       store w' = updateSessionStatus sid newStatus err details timestamp (store w).
Proof.
  unfold sm_updateSessionStatus, bind, get.
  destruct (store w !! sid) as [session |] eqn:Hs.
  - unfold liftExt, newTimestamp, modify. intros [= <- <-]. simpl.
    repeat split; eauto. exists [EvClock]. split; [done | by repeat constructor].
  - intros [= <- <-]. repeat split; [by exists [] |].
    exists "". unfold updateSessionStatus. by rewrite Hs.
Qed.

Lemma sm_updateSessionFinalVideo_inv sid videoPath w o w' :
  sm_updateSessionFinalVideo env sid videoPath w = (o, w') ->
  o = Ok tt
  /\ files (ext w') = files (ext w) /\ docs (ext w') = docs (ext w)
  /\ (exists new, events (ext w') = (new ++ events (ext w))%list
                  /\ Forall (fun ev => ev = EvClock) new)
  /\ exists timestamp,
       store w' = updateSessionFinalVideo sid videoPath timestamp (store w).
Proof.
  unfold sm_updateSessionFinalVideo, bind, get.
  destruct (store w !! sid) as [session |] eqn:Hs.
  - unfold liftExt, newTimestamp, modify. intros [= <- <-]. simpl.
    repeat split; eauto. exists [EvClock]. split; [done | by repeat constructor].
  - intros [= <- <-]. repeat split; [by exists [] |].
    exists "". unfold updateSessionFinalVideo. by rewrite Hs.
Qed.

Lemma saveSessionArtifacts_inv sid artifacts w o w' :
  saveSessionArtifacts env sid artifacts w = (o, w') ->
  o = Ok tt
  /\ files (ext w') = files (ext w) /\ store w' = store w
  /\ (exists new, events (ext w') = (new ++ events (ext w))%list
                  /\ Forall (fun ev => ev = EvClock \/ exists op, ev = EvFs op) new)
  /\ (docs (ext w') = docs (ext w)
      \/ exists timestamp,
           docs (ext w')
           = <[artifactsPath env sid :=
                 spread (mkArtifacts (Some sid) (Some timestamp) None None None None None)
                        artifacts]> (docs (ext w))).
Proof.
  unfold saveSessionArtifacts, try_catch, bind, liftExt, newTimestamp, writeJson, fsCall.
  simpl. destruct (fs_fault env _ _); simpl; intros [= <- <-]; simpl.
  - repeat split; eauto. eexists [_; _]. split; [done |].
    apply Forall_cons; split; [right; eauto |]. apply Forall_cons; split; [by left | done].
  - repeat split; eauto. eexists [_; _]. split; [done |].
    apply Forall_cons; split; [right; eauto |]. apply Forall_cons; split; [by left | done].
Qed.

Lemma ArtifactsOk_spread base update :
  ArtifactsOk base -> ArtifactsOk update -> ArtifactsOk (spread base update).
Proof.
  unfold ArtifactsOk, spread. simpl. intros Hbase Hupdate.
  by destruct (a_audioPaths update).
Qed.

Lemma DocsOk_insert d path a : DocsOk d -> ArtifactsOk a -> DocsOk (<[path := a]> d).
Proof.
  intros Hd Ha path' a'. destruct (decide (path = path')) as [<- | Hne].
  - rewrite lookup_insert_eq. by intros [= <-].
  - rewrite lookup_insert_ne by done. apply Hd.
Qed.

Lemma readJson_Ok_inv path x a x' :
  readJson env path x = (Ok a, x') ->
  docs x !! path = Some a /\ files x' = files x /\ docs x' = docs x
  /\ events x' = EvFs (OpReadJson path) :: events x.
Proof.
  unfold readJson, fsCall. destruct (fs_fault env x _); [done |]. simpl.
  destruct (docs x !! path); [| done]. by intros [= <- <-].
Qed.

Lemma preserves_sm_updateStageStatus sid sid' stage newStatus message pct err :
  preserves (RunInv sid) (sm_updateStageStatus env sid' stage newStatus message pct err).
Proof.
  intros w o w' [Hmerge Hdocs] Hrun.
  apply sm_updateStageStatus_inv in Hrun as (_ & _ & Hd & _ & t & Hstore).
  split; [rewrite Hstore; by apply HasMerge_updateStageStatus | by rewrite Hd].
Qed.

Lemma preserves_sm_updateSessionStatus sid sid' newStatus err details :
  preserves (RunInv sid) (sm_updateSessionStatus env sid' newStatus err details).
Proof.
  intros w o w' [Hmerge Hdocs] Hrun.
  apply sm_updateSessionStatus_inv in Hrun as (_ & _ & Hd & _ & t & Hstore).
  split; [| by rewrite Hd].
  unfold HasMerge. by rewrite Hstore, stageOf_updateSessionStatus.
Qed.

Lemma preserves_sm_updateSessionFinalVideo sid sid' videoPath :
  preserves (RunInv sid) (sm_updateSessionFinalVideo env sid' videoPath).
Proof.
  intros w o w' [Hmerge Hdocs] Hrun.
  apply sm_updateSessionFinalVideo_inv in Hrun as (_ & _ & Hd & _ & t & Hstore).
  split; [| by rewrite Hd].
  unfold HasMerge. by rewrite Hstore, stageOf_updateSessionFinalVideo.
Qed.

Lemma preserves_saveSessionArtifacts sid sid' artifacts :
  ArtifactsOk artifacts ->
  preserves (RunInv sid) (saveSessionArtifacts env sid' artifacts).
Proof.
  intros Hok w o w' [Hmerge Hdocs] Hrun.
  apply saveSessionArtifacts_inv in Hrun as (_ & _ & Hstore & _ & Hd).
  split; [by rewrite Hstore |].
  destruct Hd as [-> | [t ->]]; [done |].
  apply DocsOk_insert; [done |]. by apply ArtifactsOk_spread.
Qed.

Lemma preserves_service {A} sid (m : M Ext A) :
  (forall P, preserves (fun x => P (docs x)) m) ->
  preserves (RunInv sid) (liftExt m).
Proof. intros Hm. apply (preserves_liftExt (HasMerge sid) DocsOk), Hm. Qed.

(** The artifacts read in a run name no voiceover files. *)
Lemma preserves_readArtifacts {B} sid path (k : Artifacts -> M World B) :
  (forall a, ArtifactsOk a -> preserves (RunInv sid) (k a)) ->
  preserves (RunInv sid) (bind (liftExt (readJson env path)) k).
Proof.
  intros Hk. apply (preserves_bind_post _ ArtifactsOk); [| | done].
  - apply preserves_service. intros P. apply preserves_readJson.
  - intros w a w' [_ Hdocs] Hrun.
    apply liftExt_inv in Hrun as (x' & Hrun & ->).
    apply readJson_Ok_inv in Hrun as (Hdoc & _). by eapply Hdocs.
Qed.

Lemma preserves_stageBody sid sid' stage startMessage failMessage work :
  preserves (RunInv sid) work ->
  preserves (RunInv sid) (stageBody env sid' stage startMessage failMessage work).
Proof.
  intros Hwork. unfold stageBody.
  apply preserves_bind; [apply preserves_sm_updateStageStatus | intros _].
  apply preserves_try_catch; [done | intros t].
  apply preserves_bind; [apply preserves_sm_updateStageStatus | intros _].
  apply preserves_throw.
Qed.

Lemma preserves_generatePrompts sid session :
  preserves (RunInv sid) (generatePrompts env session).
Proof.
  unfold generatePrompts. apply preserves_stageBody.
  apply preserves_bind; [| intros generated].
  { apply preserves_service. intros P. apply preserves_openai_generatePrompts. }
  apply preserves_bind; [by apply preserves_saveSessionArtifacts | intros _].
  apply preserves_sm_updateStageStatus.
Qed.

Lemma preserves_generateImages sid session :
  preserves (RunInv sid) (generateImages env session).
Proof.
  unfold generateImages. apply preserves_stageBody.
  apply preserves_readArtifacts. intros artifacts Hok.
  destruct (a_prompts artifacts) as [generated |]; [| apply preserves_throw].
  apply preserves_bind; [| intros imagePaths].
  { apply preserves_service. intros P. apply preserves_generateSceneImages. }
  apply preserves_bind; [| intros _; apply preserves_sm_updateStageStatus].
  apply preserves_saveSessionArtifacts. by apply ArtifactsOk_spread.
Qed.

Lemma preserves_generateVideos sid session :
  preserves (RunInv sid) (generateVideos env session).
Proof.
  unfold generateVideos. apply preserves_stageBody.
  apply preserves_readArtifacts. intros artifacts Hok.
  destruct (a_prompts artifacts) as [generated |]; [| apply preserves_throw].
  destruct (a_imagePaths artifacts) as [imagePaths |]; [| apply preserves_throw].
  apply preserves_bind; [| intros videoPaths].
  { apply preserves_service. intros P. apply preserves_generateSceneVideos. }
  apply preserves_bind; [| intros _; apply preserves_sm_updateStageStatus].
  apply preserves_saveSessionArtifacts. by apply ArtifactsOk_spread.
Qed.

Lemma preserves_generateAudio sid session :
  preserves (RunInv sid) (generateAudio env session).
Proof.
  unfold generateAudio. apply preserves_stageBody.
  apply preserves_readArtifacts. intros artifacts Hok.
  destruct (a_prompts artifacts) as [generated |]; [| apply preserves_throw].
  apply (preserves_bind_post _ (fun audioPaths => voiceoverPaths audioPaths = None)).
  - destruct (_ && _); [| apply preserves_ret].
    apply preserves_bind; [| intros p; apply preserves_ret].
    apply preserves_service. intros P. apply preserves_generateBackgroundMusic.
  - intros w a w' _. destruct (_ && _); [| by intros [= <- <-]].
    intros Hrun. apply bind_Ok_inv in Hrun as (p & w1 & _ & Hret).
    by injection Hret as <- <-.
  - intros audioPaths Hnone.
    apply preserves_bind; [| intros _; apply preserves_sm_updateStageStatus].
    apply preserves_saveSessionArtifacts. by apply ArtifactsOk_spread.
Qed.

Lemma preserves_mergeVideoContent sid session :
  preserves (RunInv sid) (mergeVideoContent env session).
Proof.
  unfold mergeVideoContent. apply preserves_stageBody.
  apply preserves_readArtifacts. intros artifacts Hok.
  destruct (a_videoPaths artifacts) as [[| v vs] |]; try apply preserves_throw.
  apply preserves_bind; [| intros _].
  { apply preserves_service. intros P. apply preserves_concatenateVideos. }
  apply preserves_bind; [| intros _].
  { destruct (hasAudioPaths _).
    - destruct (_ ≫= _) as [music |]; [| apply preserves_ret].
      destruct (truthy music); [| apply preserves_ret].
      apply preserves_bind; [| intros _; apply preserves_ret].
      apply preserves_service. intros P. apply preserves_addAudioToVideo.
    - apply preserves_service. intros P. apply preserves_copy. }
  apply preserves_bind; [apply preserves_sm_updateSessionFinalVideo | intros _].
  apply preserves_bind; [| intros _; apply preserves_sm_updateStageStatus].
  apply preserves_saveSessionArtifacts. by apply ArtifactsOk_spread.
Qed.

End Orchestrator.

Section Merge.
Context (env : Env).

Lemma stageBody_Ok_inv {sid stage startMessage failMessage work w w'} a :
  stageBody env sid stage startMessage failMessage work w = (Ok a, w') ->
  exists w1,
    sm_updateStageStatus env sid stage st_processing (Some startMessage) None None w
    = (Ok tt, w1)
    /\ work w1 = (Ok a, w').
Proof.
  unfold stageBody. intros Hrun.
  apply bind_Ok_inv in Hrun as ([] & w1 & Hstart & Hrun).
  exists w1. split; [done |].
  unfold try_catch in Hrun. destruct (work w1) as [[a' | t] w2]; [done |].
  apply bind_Ok_inv in Hrun as (? & w3 & _ & Hthrow). done.
Qed.

Lemma copy_Ok_inv src dst x x' :
  copy env src dst x = (Ok tt, x') ->
  exists bytes,
    files x !! src = Some bytes
    /\ files x' = <[dst := bytes]> (files x)
    /\ docs x' = docs x
    /\ events x' = EvFs (OpCopy src dst) :: events x.
Proof.
  unfold copy, fsCall. destruct (fs_fault env x _); [done |]. simpl.
  destruct (files x !! src) as [bytes |]; [| done]. intros [= <-]. by exists bytes.
Qed.

Lemma runCommand_inv command x o x' :
  runCommand env command x = (o, x') ->
  events x' = EvFFmpeg command :: events x /\ docs x' = docs x
  /\ match ffmpeg_run env x command with
     | FFEnd bytes =>
         o = Ok (FFEnd bytes) /\ files x' = <[ff_output command := bytes]> (files x)
     | FFError msg => o = Ok (FFError msg) /\ files x' = files x
     end.
Proof.
  unfold runCommand. by destruct (ffmpeg_run env x command); intros [= <- <-].
Qed.

Lemma checkVideoHasAudio_inv videoPath x o x' :
  checkVideoHasAudio env videoPath x = (o, x') ->
  (exists b, o = Ok b) /\ files x' = files x /\ docs x' = docs x
  /\ events x' = EvProbe videoPath :: events x.
Proof.
  unfold checkVideoHasAudio, try_catch, call.
  destruct (ffprobe env x videoPath); intros [= <- <-]; eauto.
Qed.

Lemma addAudioToVideo_Ok_inv videoPath audioOptions x p x' :
  addAudioToVideo env videoPath audioOptions x = (Ok p, x') ->
  p = am_outputPath audioOptions /\ is_Some (files x' !! am_outputPath audioOptions).
Proof.
  unfold addAudioToVideo. intros Hrun.
  apply bind_Ok_inv in Hrun as (hasAudio & x1 & _ & Hrun).
  apply bind_Ok_inv in Hrun as (x1' & ? & [= <- <-] & Hrun).
  apply bind_Ok_inv in Hrun as (result & x2 & Hcommand & Hrun).
  apply runCommand_inv in Hcommand as (_ & _ & Hresult).
  destruct (ffmpeg_run env x1 _) as [bytes | msg]; destruct Hresult as [[= ->] Hfiles];
    [| done].
  injection Hrun as <- <-. split; [done |].
  rewrite Hfiles. simpl. by rewrite lookup_insert_eq.
Qed.



(** [ArtifactsOk] artifacts that have audio paths have a music path. *)
Lemma hasAudioPaths_music artifacts :
  ArtifactsOk artifacts -> hasAudioPaths (a_audioPaths artifacts) = true ->
  exists music, (a_audioPaths artifacts ≫= musicPath) = Some music /\ truthy music = true.
Proof.
  unfold ArtifactsOk, hasAudioPaths.
  destruct (a_audioPaths artifacts) as [paths |]; simpl; [| done].
  intros ->. simpl. destruct (musicPath paths) as [music |]; simpl; [eauto | done].
Qed.

(** When the merge stage returns, the session has its final video: the
    path is set, the merge stage is completed, and the file is there. *)
Lemma mergeVideoContent_Ok session w w' :
  RunInv (sessionId session) w ->
  mergeVideoContent env session w = (Ok tt, w') ->
  exists s,
    store w' !! sessionId session = Some s
    /\ finalVideoPath s = Some (finalVideoPathOf env (sessionId session))
    /\ ss_status <$> stageOf (store w') (sessionId session) merge = Some st_completed
    /\ is_Some (files (ext w') !! finalVideoPathOf env (sessionId session)).
Proof.
  set (sid := sessionId session). intros Hinv Hrun.
  unfold mergeVideoContent in Hrun. fold sid in Hrun.
  apply stageBody_Ok_inv in Hrun as (w1 & Hstart & Hrun).
  assert (RunInv sid w1) as [Hmerge1 Hdocs1]
    by (eapply preserves_sm_updateStageStatus; eauto).
  apply bind_Ok_inv in Hrun as (artifacts & w2 & Hread & Hrun).
  apply liftExt_inv in Hread as (x2 & Hread & ->).
  apply readJson_Ok_inv in Hread as (Hdoc & _).
  assert (ArtifactsOk artifacts) as Hok by (by eapply Hdocs1).
  destruct (a_videoPaths artifacts) as [[| v vs] |]; [done | | done].
  apply bind_Ok_inv in Hrun as (merged & w3 & Hconcat & Hrun).
  apply liftExt_inv in Hconcat as (x3 & Hconcat & ->).
  apply bind_Ok_inv in Hrun as ([] & w4 & Haudio & Hrun).
  assert (store w4 = store w1
          /\ is_Some (files (ext w4) !! finalVideoPathOf env sid)) as [Hstore4 Hfile4].
  { destruct (hasAudioPaths (a_audioPaths artifacts)) eqn:Hhas.
    - destruct (hasAudioPaths_music _ Hok Hhas) as (music & Hmusic & Htruthy).
      rewrite Hmusic, Htruthy in Haudio.
      apply bind_Ok_inv in Haudio as (p & w4' & Hadd & [= <-]).
      apply liftExt_inv in Hadd as (x4 & Hadd & ->).
      apply addAudioToVideo_Ok_inv in Hadd as [_ Hfile]. done.
    - apply liftExt_inv in Haudio as (x4 & Hcopy & ->).
      apply copy_Ok_inv in Hcopy as (bytes & _ & Hfiles & _).
      split; [done |]. simpl. by rewrite Hfiles, lookup_insert_eq. }
  apply bind_Ok_inv in Hrun as ([] & w5 & Hfinal & Hrun).
  apply sm_updateSessionFinalVideo_inv in Hfinal as (_ & Hfiles5 & _ & _ & t5 & Hstore5).
  apply bind_Ok_inv in Hrun as ([] & w6 & Hsave & Hrun).
  apply saveSessionArtifacts_inv in Hsave as (_ & Hfiles6 & Hstore6 & _).
  apply sm_updateStageStatus_inv in Hrun as (_ & Hfiles7 & _ & _ & t7 & Hstore7).
  rewrite Hstore6, Hstore5, Hstore4 in Hstore7.
  destruct (HasMerge_lookup _ _ Hmerge1) as [s1 Hs1].
  pose proof (updateStageStatus_lookup
                (updateSessionFinalVideo sid (finalVideoPathOf env sid) t5 (store w1))
                sid merge st_completed (Some "Video merging completed successfully")
                None None t7 sid) as Hlookup.
  unfold updateSessionFinalVideo in Hlookup at 1. rewrite Hs1, lookup_insert_eq in Hlookup.
  destruct Hlookup as (s' & Hs' & _ & Hpath & _).
  exists s'. rewrite Hstore7. split; [done |]. split; [done |]. split.
  - rewrite stageOf_updateStageStatus, bool_decide_eq_true_2 by done.
    rewrite stageOf_updateSessionFinalVideo.
    destruct Hmerge1 as [st Hst]. by rewrite Hst.
  - by rewrite Hfiles7, Hfiles6, Hfiles5.
Qed.

End Merge.

Section Attempt.
Context (env : Env).

Lemma ensureDir_throws path x t x' :
  ensureDir env path x = (Throw t, x') -> t <> TNullish.
Proof.
  unfold ensureDir, fsCall. destruct (fs_fault env x _); [| done]. by intros [= <- <-].
Qed.

Lemma ensureSessionDirectories_throws sid w t w' :
  ensureSessionDirectories env sid w = (Throw t, w') -> t <> TNullish.
Proof.
  unfold ensureSessionDirectories. intros Hrun.
  repeat (apply bind_Throw_inv in Hrun as [Hrun | (? & ? & _ & Hrun)]);
    apply liftExt_inv in Hrun as (? & Hrun & _); by eapply ensureDir_throws.
Qed.

Lemma executeGenerationPipeline_throws session w t w' :
  executeGenerationPipeline env session w = (Throw t, w') -> t <> TNullish.
Proof.
  unfold executeGenerationPipeline. intros Hrun.
  apply bind_Throw_inv in Hrun as [Hrun | (? & ? & _ & Hrun)];
    [by eapply executeWithRetry_throws; [| exact Hrun] |].
  apply bind_Throw_inv in Hrun as [Hrun | (? & ? & _ & Hrun)];
    [by eapply executeWithRetry_throws; [| exact Hrun] |].
  apply bind_Throw_inv in Hrun as [Hrun | (? & ? & _ & Hrun)];
    [by eapply executeWithRetry_throws; [| exact Hrun] |].
  apply bind_Throw_inv in Hrun as [Hrun | (? & ? & _ & Hrun)].
  - destruct (_ || _); [| done]. by eapply executeWithRetry_throws; [| exact Hrun].
  - by eapply executeWithRetry_throws; [| exact Hrun].
Qed.

Lemma preserves_ensureSessionDirectories sid sid' :
  preserves (RunInv sid) (ensureSessionDirectories env sid').
Proof.
  unfold ensureSessionDirectories.
  repeat (apply preserves_bind; [| intros _]);
    apply preserves_service; intros P; apply preserves_ensureDir.
Qed.

Lemma preserves_executeGenerationPipeline sid session :
  preserves (RunInv sid) (executeGenerationPipeline env session).
Proof.
  unfold executeGenerationPipeline.
  apply preserves_bind;
    [apply preserves_executeWithRetry, preserves_generatePrompts | intros _].
  apply preserves_bind;
    [apply preserves_executeWithRetry, preserves_generateImages | intros _].
  apply preserves_bind;
    [apply preserves_executeWithRetry, preserves_generateVideos | intros _].
  apply preserves_bind; [| intros _].
  { destruct (_ || _); [| apply preserves_ret].
    apply preserves_executeWithRetry, preserves_generateAudio. }
  apply preserves_executeWithRetry, preserves_mergeVideoContent.
Qed.

(** When the pipeline returns, its last step was a run of the merge
    stage that returned. *)
Lemma executeGenerationPipeline_Ok session w w' :
  RunInv (sessionId session) w ->
  executeGenerationPipeline env session w = (Ok tt, w') ->
  exists w0, RunInv (sessionId session) w0
             /\ mergeVideoContent env session w0 = (Ok tt, w').
Proof.
  set (sid := sessionId session). intros Hinv Hrun.
  unfold executeGenerationPipeline in Hrun. fold sid in Hrun.
  apply bind_Ok_inv in Hrun as ([] & w1 & H1 & Hrun).
  apply (preserves_executeWithRetry _ _ _ _ _ (preserves_generatePrompts env sid session))
    in H1; [| done].
  apply bind_Ok_inv in Hrun as ([] & w2 & H2 & Hrun).
  apply (preserves_executeWithRetry _ _ _ _ _ (preserves_generateImages env sid session))
    in H2; [| done].
  apply bind_Ok_inv in Hrun as ([] & w3 & H3 & Hrun).
  apply (preserves_executeWithRetry _ _ _ _ _ (preserves_generateVideos env sid session))
    in H3; [| done].
  apply bind_Ok_inv in Hrun as ([] & w4 & H4 & Hrun).
  assert (RunInv sid w4) as Hinv4.
  { destruct (_ || _); [| by injection H4 as <-].
    by apply (preserves_executeWithRetry _ _ _ _ _
                (preserves_generateAudio env sid session)) in H4. }
  eapply executeWithRetry_Ok_inv; [apply preserves_mergeVideoContent | exact Hinv4 | done].
Qed.

Lemma sm_createSession_run request characterImagePath w :
  let sid := uuidv4 env (ext w) in
  let timestamp := toISOString env (logEvent EvClock (ext w)) in
  let session := newSession sid timestamp request characterImagePath in
  sm_createSession env request characterImagePath w
  = (Ok session,
     mkWorld (<[sid := session]> (store w))
             (logEvent EvClock (logEvent EvClock (ext w)))).
Proof. reflexivity. Qed.

Lemma newSession_merge sessions sid timestamp request characterImagePath :
  stageOf (<[sid := newSession sid timestamp request characterImagePath]> sessions) sid merge
  = Some (pendingStage merge).
Proof.
  unfold stageOf. rewrite lookup_insert_eq. unfold newSession.
  by destruct (includeVoiceover request), (includeMusic request).
Qed.


Lemma attemptGeneration_spec request characterImagePath w sid result w' :
  DocsOk (docs (ext w)) ->
  attemptGeneration env request characterImagePath w = (sid, result, w') ->
  attemptSpec env sid result w' /\ DocsOk (docs (ext w')).
Proof.
  intros Hdocs Hattempt. unfold attemptGeneration in Hattempt.
  rewrite sm_createSession_run in Hattempt.
  set (sid0 := uuidv4 env (ext w)) in *.
  set (session := newSession sid0 _ request characterImagePath) in *.
  set (w0 := mkWorld _ _) in *.
  change (sessionId session) with sid0 in *.
  assert (RunInv sid0 w0) as Hinv0.
  { split; [| done]. unfold HasMerge. simpl. unfold session.
    by rewrite newSession_merge. }
  match type of Hattempt with
  | context [match ?body w0 with _ => _ end] => set (body' := body) in *
  end.
  assert (preserves (RunInv sid0) body') as Hbody.
  { unfold body'.
    apply preserves_bind; [apply preserves_ensureSessionDirectories | intros _].
    apply preserves_bind; [apply preserves_sm_updateSessionStatus | intros _].
    apply preserves_bind; [apply preserves_executeGenerationPipeline | intros _].
    apply preserves_sm_updateSessionStatus. }
  destruct (body' w0) as [[[] | error] w1] eqn:Hrun.
  - (* the pipeline returned *)
    injection Hattempt as <- <- <-.
    assert (RunInv sid0 w1) as [_ Hdocs1] by (eapply Hbody; eauto).
    split; [| done]. split; [done |].
    unfold body' in Hrun.
    apply bind_Ok_inv in Hrun as ([] & wa & Hdirs & Hrun).
    apply preserves_ensureSessionDirectories with (sid := sid0) in Hdirs; [| done].
    apply bind_Ok_inv in Hrun as ([] & wb & Hproc & Hrun).
    apply preserves_sm_updateSessionStatus with (sid := sid0) in Hproc; [| done].
    apply bind_Ok_inv in Hrun as ([] & wc & Hpipe & Hrun).
    apply (executeGenerationPipeline_Ok session) in Hpipe as (wm & Hinvm & Hmerge); [| done].
    apply mergeVideoContent_Ok in Hmerge as (s & Hs & Hpath & Hstage & Hfile); [| done].
    change (sessionId session) with sid0 in *.
    apply sm_updateSessionStatus_inv in Hrun as (_ & Hfiles & _ & _ & t & Hstore).
    rewrite Hstore, Hfiles, stageOf_updateSessionStatus.
    unfold updateSessionStatus. rewrite Hs, lookup_insert_eq. eauto 10.
  - (* the pipeline threw *)
    assert (RunInv sid0 w1) as [Hmerge1 Hdocs1] by (eapply Hbody; eauto).
    assert (error <> TNullish) as Herror.
    { unfold body' in Hrun.
      apply bind_Throw_inv in Hrun as [Hrun | (? & ? & _ & Hrun)];
        [by eapply ensureSessionDirectories_throws |].
      apply bind_Throw_inv in Hrun as [Hrun | (? & ? & _ & Hrun)];
        [by apply sm_updateSessionStatus_inv in Hrun as [? _] |].
      apply bind_Throw_inv in Hrun as [Hrun | (? & ? & _ & Hrun)];
        [by eapply executeGenerationPipeline_throws |].
      by apply sm_updateSessionStatus_inv in Hrun as [? _]. }
    unfold bind at 1 in Hattempt.
    assert (exists appError,
               classify error (mkErrorContext (Some sid0) None None None) w1
               = (Ok appError, w1)) as [appError Hclassify].
    { destruct error; [by eexists .. | done]. }
    rewrite Hclassify in Hattempt. unfold bind, ret in Hattempt. cbv zeta in Hattempt.
    destruct (sm_updateSessionStatus env sid0 failed _ _ w1) as [o w2] eqn:Hfail.
    apply sm_updateSessionStatus_inv in Hfail as (-> & _ & Hdocs2 & _ & t & Hstore).
    injection Hattempt as <- <- <-.
    split; [| by rewrite Hdocs2]. split; [done |].
    destruct (HasMerge_lookup _ _ Hmerge1) as [s1 Hs1].
    rewrite Hstore. unfold updateSessionStatus. rewrite Hs1, lookup_insert_eq. eauto.
Qed.

End Attempt.

(** C2. A run of [generateVideo] that returns a session id leaves that
    session completed with its merge stage completed, its final video
    path set and the final file written; a run that throws leaves the
    session of its last attempt failed. Attempt by attempt: an attempt
    ends completed only after a run of the merge stage returned, and
    ends failed otherwise; the [catch] block itself never throws.
    (Artifacts documents found on disk are taken to name no voiceover
    files, as every document the pipeline writes does.) *)
Theorem session_completed_only_after_merge (env : Env) (request : GenerationRequest)
    (characterImagePath : string) (w : World) :
  DocsOk (docs (ext w)) ->
  (forall sid result w',
      attemptGeneration env request characterImagePath w = (sid, result, w') ->
      attemptSpec env sid result w')
  /\ (forall fuel out w',
        generateVideo env fuel request characterImagePath w = Some (out, w') ->
        match out with
        | Ok sid =>
            exists s,
              store w' !! sid = Some s
              /\ status s = completed
              /\ ss_status <$> stageOf (store w') sid merge = Some st_completed
              /\ finalVideoPath s = Some (finalVideoPathOf env sid)
              /\ is_Some (files (ext w') !! finalVideoPathOf env sid)
        | Throw t =>
            exists appError sid s,
              t = TApp appError /\ store w' !! sid = Some s /\ status s = failed
        end)
  /\ (forall fuel sid result w',
        attemptGeneration env request characterImagePath w = (sid, result, w') ->
        (forall appError, result <> Failed appError true) ->
        is_Some (generateVideo env (Datatypes.S fuel) request characterImagePath w)).
Proof.
  intros Hdocs. split; [| split].
  - intros sid result w' Hattempt.
    by apply (attemptGeneration_spec env) in Hattempt as [? _].
  - intros fuel. revert w Hdocs.
    induction fuel as [| fuel IH]; intros w Hdocs out w'; simpl; [done |].
    destruct (attemptGeneration env request characterImagePath w)
      as [[sid result] w1] eqn:Hattempt.
    apply (attemptGeneration_spec env) in Hattempt as [Hspec Hdocs1]; [| done].
    destruct result as [sid' | appError [|] | t]; simpl in Hspec.
    + intros [= <- <-]. by destruct Hspec as [-> ?].
    + by apply IH.
    + intros [= <- <-]. destruct Hspec as (_ & s & ? & ?). eauto 10.
    + done.
  - intros fuel sid result w' Hattempt Hnot. simpl. rewrite Hattempt.
    destruct result as [sid' | appError [|] | t]; try done.
    by destruct (Hnot appError).
Qed.

(** ** Merge without audio *)


Section ZeroAudio.
Context (env : Env).





End ZeroAudio.

(** ** Prompts stage *)

Lemma handleServiceError_default (e : RawError) (c : ErrorContext) :
  ruleOf e = RDefault ->
  handleServiceError e c
  = mkAppError CAppError (or_default (raw_message e) "An unexpected error occurred")
      500 true false (Some (contextOf c)).
Proof.
  unfold ruleOf, handleServiceError.
  repeat match goal with
         | |- context [if ?b then _ else _] => destruct b; try done
         end.
Qed.

Lemma executeWithRetry_loop_raw {S T} (operation : M S T) (stage sid : string)
    (maxRetries : Z) (n : nat) (attempt : Z) (last : Thrown) (s s' : S) (e : RawError) :
  operation s = (Throw (TRaw e), s') ->
  shouldRetry
    (handleServiceError e (mkErrorContext (Some sid) (Some stage) None (Some attempt)))
    attempt maxRetries = false ->
  executeWithRetry_loop operation stage sid maxRetries (Datatypes.S n) attempt last s
  = (Throw (TApp (handleServiceError e
                    (mkErrorContext (Some sid) (Some stage) None (Some attempt)))), s').
Proof.
  intros Hop Hstop. simpl. unfold try_catch. rewrite Hop.
  unfold bind, classify, ret. by rewrite Hstop.
Qed.

(** Whether a strategy can recover depends on the class and the message
    of the error, and for [ServiceUnavailableError] on its context. *)
Lemma attemptRecovery_message (a b : AppError) :
  cls a = cls b -> message a = message b ->
  (cls a = CServiceUnavailableError -> context a = context b) ->
  attemptRecovery a = attemptRecovery b.
Proof.
  unfold attemptRecovery. simpl. intros Hcls Hmsg Hctx. rewrite Hmsg, Hcls.
  destruct (_ || _); [done |]. destruct (cls b) eqn:Hb; try done.
  rewrite Hctx; [done | congruence].
Qed.

(** The messages of a scene-count mismatch, for counts a request and a
    response can have: none matches a pattern of the classifier, nor one
    of a recovery strategy. *)
Lemma count_mismatch_messages_plain (sceneCount got : nat) :
  (sceneCount <= 10)%nat -> (got < 100)%nat ->
  plainMessage ("Expected " +:+ pretty (Z.of_nat sceneCount) +:+ " scenes, got "
                +:+ pretty got) = true.
Proof.
  intros Hcount Hgot.
  assert (forallb (fun n : nat =>
            forallb (fun m : nat =>
              plainMessage ("Expected " +:+ pretty (Z.of_nat n) +:+ " scenes, got "
                            +:+ pretty m))
              (seq 0 100))
            (seq 0 11) = true) as Hall by (vm_compute; reflexivity).
  rewrite forallb_forall in Hall.
  specialize (Hall sceneCount). rewrite forallb_forall in Hall.
  apply Hall; apply in_seq; lia.
Qed.

Lemma scene_messages_plain (sceneNumber : nat) :
  (sceneNumber < 100)%nat ->
  plainMessage ("Invalid scene prompt structure for scene "
                +:+ pretty (Z.of_nat sceneNumber)) = true.
Proof.
  intros Hnumber.
  assert (forallb (fun n : nat =>
            plainMessage ("Invalid scene prompt structure for scene "
                          +:+ pretty (Z.of_nat n)))
            (seq 0 100) = true) as Hall by (vm_compute; reflexivity).
  rewrite forallb_forall in Hall. apply Hall, in_seq. lia.
Qed.

Section PromptsStage.
Context (env : Env).

Lemma openai_generatePrompts_rejects request content parsed err sid x :
  rejectedPrompts env request content parsed err ->
  OpenAIService.generatePrompts env (sceneCount request) (description request) false
    (includeMusic request) sid x
  = (Throw (TRaw err),
     logEvent (EvOpenAI (sceneCount request) (description request) false
                 (includeMusic request)) x).
Proof.
  intros (Hchat & Htruthy & Hparse & Hvalidate).
  unfold OpenAIService.generatePrompts, bind, call. rewrite Hchat. simpl.
  by rewrite Htruthy, Hparse, Hvalidate.
Qed.

(** The prompts stage on a rejected response: one call of the prompt
    generator, the stage marked 'processing' and then 'error', and the
    validation error thrown as it is. *)
Lemma generatePrompts_rejects session content parsed err w :
  rejectedPrompts env (request session) content parsed err ->
  exists w' clocks1 clocks2 t1 t2,
    generatePrompts env session w = (Throw (TRaw err), w')
    /\ events (ext w')
       = (clocks2
          ++ [EvOpenAI (sceneCount (request session)) (description (request session)) false
                (includeMusic (request session))]
          ++ clocks1 ++ events (ext w))%list
    /\ Forall (fun ev => ev = EvClock) clocks1
    /\ Forall (fun ev => ev = EvClock) clocks2
    /\ files (ext w') = files (ext w) /\ docs (ext w') = docs (ext w)
    /\ store w'
       = updateStageStatus (sessionId session) prompts st_error
           (Some "Failed to generate prompts") None (Some (messageOf (TRaw err))) t2
           (updateStageStatus (sessionId session) prompts st_processing
              (Some "Generating scene prompts...") None None t1 (store w)).
Proof.
  intros Hrejected. unfold generatePrompts, stageBody. cbv zeta.
  set (sid := sessionId session).
  destruct (sm_updateStageStatus env sid prompts st_processing
              (Some "Generating scene prompts...") None None w)
    as [o1 w1] eqn:Hstart.
  pose proof Hstart as Hstart'.
  apply sm_updateStageStatus_inv in Hstart'
    as (-> & Hf1 & Hd1 & (clocks1 & He1 & Hc1) & t1 & Hs1).
  rewrite (bind_run _ _ _ _ _ Hstart). unfold try_catch.
  rewrite (bind_run_throw _ _ _ _ _
             (liftExt_run _ _ _ _
                (openai_generatePrompts_rejects _ _ _ _ sid (ext w1) Hrejected))).
  set (w2 := mkWorld _ _).
  destruct (sm_updateStageStatus env sid prompts st_error
              (Some "Failed to generate prompts") None (Some (messageOf (TRaw err))) w2)
    as [o3 w3] eqn:Hfail.
  pose proof Hfail as Hfail'.
  apply sm_updateStageStatus_inv in Hfail'
    as (-> & Hf3 & Hd3 & (clocks2 & He3 & Hc3) & t2 & Hs3).
  exists w3, clocks1, clocks2, t1, t2.
  rewrite (bind_run _ _ _ _ _ Hfail). simpl in *. unfold throw.
  repeat split; try done.
  - by rewrite He3, He1.
  - by rewrite Hf3.
  - by rewrite Hd3.
  - by rewrite Hs3, Hs1.
Qed.

Lemma executeGenerationPipeline_rejects session content parsed err w :
  rejectedPrompts env (request session) content parsed err ->
  ruleOf err = RDefault ->
  exists w',
    executeGenerationPipeline env session w
    = (Throw (TApp (handleServiceError err
                      (mkErrorContext (Some (sessionId session)) (Some "prompts") None
                         (Some 1)))), w')
    /\ generatePrompts env session w = (Throw (TRaw err), w').
Proof.
  intros Hrejected Hrule.
  destruct (generatePrompts_rejects session content parsed err w Hrejected)
    as (w' & _ & _ & _ & _ & Hrun & _).
  exists w'. split; [| done].
  unfold executeGenerationPipeline. apply bind_run_throw.
  unfold executeWithRetry. change (Z.to_nat 3) with 3%nat.
  apply executeWithRetry_loop_raw; [done |].
  by rewrite handleServiceError_default.
Qed.

Lemma ensureDir_run path x :
  (forall x op, fs_fault env x op = None) ->
  ensureDir env path x = (Ok tt, logEvent (EvFs (OpEnsureDir path)) x).
Proof. intros Hfs. unfold ensureDir, fsCall. by rewrite Hfs. Qed.

Lemma ensureSessionDirectories_run sid w :
  (forall x op, fs_fault env x op = None) ->
  exists w', ensureSessionDirectories env sid w = (Ok tt, w') /\ store w' = store w.
Proof.
  intros Hfs. unfold ensureSessionDirectories.
  rewrite (bind_run _ _ _ _ _ (liftExt_run _ _ _ _ (ensureDir_run _ _ Hfs))).
  rewrite (bind_run _ _ _ _ _ (liftExt_run _ _ _ _ (ensureDir_run _ _ Hfs))).
  rewrite (liftExt_run _ _ _ _ (ensureDir_run _ _ Hfs)). eauto.
Qed.

End PromptsStage.

Lemma clocks_no_call clocks :
  Forall (fun ev => ev = EvClock) clocks ->
  List.filter isOpenAICall clocks = [] /\ Forall promptsOnly clocks.
Proof.
  induction 1 as [| ev clocks -> _ [IH1 IH2]]; [done |]. simpl. split; [done |].
  by constructor.
Qed.

Section PromptsTheorem.
Context (env : Env).

Lemma validatePrompts_count sceneCount voiceover music parsed scenes :
  pj_scenePrompts parsed = Some scenes ->
  Z.of_nat (length scenes) <> sceneCount ->
  validatePrompts sceneCount voiceover music parsed
  = inl (newError ("Expected " +:+ pretty sceneCount +:+ " scenes, got "
                   +:+ pretty (length scenes))).
Proof.
  intros Hscenes Hcount. unfold validatePrompts. rewrite Hscenes.
  by apply Z.eqb_neq in Hcount as ->.
Qed.

Lemma validateScenes_empty scenes :
  Exists (fun scene => truthy_opt (sj_imagePrompt scene) = false
                       \/ truthy_opt (sj_videoPrompt scene) = false) scenes ->
  exists scene,
    scene ∈ scenes
    /\ validateScenes scenes
       = inl (newError ("Invalid scene prompt structure for scene "
                        +:+ renderJsVal (sj_sceneNumber scene))).
Proof.
  induction 1 as [scene rest Hempty | scene rest _ (bad & Hin & IH)]; simpl.
  - exists scene. split; [by left |].
    destruct (sj_sceneNumber scene); try done.
    by destruct Hempty as [-> | ->]; rewrite ?andb_false_r.
  - destruct (sj_sceneNumber scene) eqn:Hnumber;
      try (exists scene; split; [by left | by rewrite Hnumber]).
    destruct (_ && _).
    + exists bad. rewrite IH. split; [by right | done].
    + exists scene. split; [by left | by rewrite Hnumber].
Qed.

Lemma validatePrompts_empty sceneCount voiceover music parsed scenes :
  pj_scenePrompts parsed = Some scenes ->
  Z.of_nat (length scenes) = sceneCount ->
  Exists (fun scene => truthy_opt (sj_imagePrompt scene) = false
                       \/ truthy_opt (sj_videoPrompt scene) = false) scenes ->
  exists scene,
    scene ∈ scenes
    /\ validatePrompts sceneCount voiceover music parsed
       = inl (newError ("Invalid scene prompt structure for scene "
                        +:+ renderJsVal (sj_sceneNumber scene))).
Proof.
  intros Hscenes Hcount Hempty. unfold validatePrompts. rewrite Hscenes.
  apply Z.eqb_eq in Hcount as ->. simpl.
  destruct (validateScenes_empty _ Hempty) as (scene & Hin & ->). eauto.
Qed.

(** A whole run on a rejected response, when no fs call fails and no
    recovery strategy applies to the error. *)
Lemma generateVideo_rejects request content parsed err characterImagePath w fuel :
  rejectedPrompts env request content parsed err ->
  ruleOf err = RDefault ->
  (forall x op, fs_fault env x op = None) ->
  let sid := uuidv4 env (ext w) in
  let e := handleServiceError err
             (mkErrorContext (Some sid) (Some "prompts") None (Some 1)) in
  attemptRecovery e = false ->
  exists w' s new,
    generateVideo env (Datatypes.S fuel) request characterImagePath w
    = Some (Throw (TApp e), w')
    /\ store w' !! sid = Some s
    /\ status s = failed
    /\ ss_status <$> stageOf (store w') sid prompts = Some st_error
    /\ (forall stage st, stage <> prompts -> stageOf (store w') sid stage = Some st ->
          st = pendingStage stage)
    /\ events (ext w') = (new ++ events (ext w))%list
    /\ Forall promptsOnly new
    /\ length (List.filter isOpenAICall new) = 1%nat.
Proof.
  intros Hrejected Hrule Hfs sid e Hrecover.
  cbn [generateVideo]. unfold attemptGeneration.
  rewrite sm_createSession_run. fold sid.
  set (timestamp := toISOString env _).
  set (session := newSession sid timestamp request characterImagePath).
  set (wA := mkWorld _ _).
  change (sessionId session) with sid.
  destruct (ensureSessionDirectories_run env sid wA Hfs) as (wB & HB & HsB).
  assert (exists newB, events (ext wB) = (newB ++ events (ext wA))%list
                       /\ Forall promptsOnly newB
                       /\ List.filter isOpenAICall newB = []) as (newB & HeB & HpB & HcB).
  { unfold ensureSessionDirectories in HB.
    rewrite (bind_run _ _ _ _ _ (liftExt_run _ _ _ _ (ensureDir_run env _ _ Hfs))) in HB.
    rewrite (bind_run _ _ _ _ _ (liftExt_run _ _ _ _ (ensureDir_run env _ _ Hfs))) in HB.
    rewrite (liftExt_run _ _ _ _ (ensureDir_run env _ _ Hfs)) in HB.
    injection HB as <-. simpl. eexists [_; _; _]. split; [done |].
    split; [by repeat constructor | done]. }
  rewrite (bind_run _ _ _ _ _ HB).
  destruct (sm_updateSessionStatus env sid processing None None wB) as [oC wC] eqn:HC.
  pose proof HC as HC'.
  apply sm_updateSessionStatus_inv in HC' as (-> & _ & _ & (clocksC & HeC & HcC) & tC & HsC).
  rewrite (bind_run _ _ _ _ _ HC).
  destruct (generatePrompts_rejects env session content parsed err wC Hrejected)
    as (wD & clocks1 & clocks2 & t1 & t2 & HD & HeD & Hc1 & Hc2 & _ & _ & HsD).
  destruct (executeGenerationPipeline_rejects env session content parsed err wC
              Hrejected Hrule) as (wD' & Hpipe & HD').
  rewrite HD in HD'. injection HD' as <-.
  change (sessionId session) with sid in *. fold e in Hpipe.
  rewrite (bind_run_throw _ _ _ _ _ Hpipe).
  unfold bind at 1. unfold classify at 1. unfold ret at 1. cbv zeta.
  destruct (sm_updateSessionStatus env sid failed (Some (es_message (createErrorSummary e)))
              (Some (createErrorSummary e)) wD) as [oE wE] eqn:HE.
  pose proof HE as HE'.
  apply sm_updateSessionStatus_inv in HE' as (-> & _ & _ & (clocksE & HeE & HcE) & tE & HsE).
  unfold bind, ret. rewrite HE, Hrecover.
  assert (stageOf (store wE) sid prompts
          = Some (updateStage
                    (updateStage (pendingStage prompts) st_processing
                       (Some "Generating scene prompts...") None None t1)
                    st_error (Some "Failed to generate prompts") None
                    (Some (messageOf (TRaw err))) t2)
          /\ (forall stage, stage <> prompts ->
                stageOf (store wE) sid stage
                = stageOf (<[sid := session]> (store w)) sid stage)) as [Hprompts Hother].
  { rewrite HsE, HsD, HsC, HsB. split.
    - rewrite stageOf_updateSessionStatus.
      rewrite !stageOf_updateStageStatus, !bool_decide_eq_true_2 by done.
      rewrite stageOf_updateSessionStatus. simpl.
      unfold stageOf. rewrite lookup_insert_eq. unfold session, newSession.
      by destruct (includeVoiceover request), (includeMusic request).
    - intros stage Hstage. rewrite stageOf_updateSessionStatus.
      rewrite !stageOf_updateStageStatus, !bool_decide_eq_false_2 by done.
      by rewrite stageOf_updateSessionStatus. }
  assert (exists s, store wE !! sid = Some s /\ status s = failed) as (s & Hs & Hstatus).
  { assert (is_Some (store wD !! sid)) as [sD HsD'].
    { apply HasMerge_lookup. rewrite HsD, HsC, HsB.
      do 2 apply HasMerge_updateStageStatus.
      unfold HasMerge. rewrite stageOf_updateSessionStatus. simpl.
      unfold session. by rewrite newSession_merge. }
    rewrite HsE. unfold updateSessionStatus. rewrite HsD', lookup_insert_eq. eauto. }
  exists wE, s,
    (clocksE ++ clocks2
     ++ [EvOpenAI (sceneCount request) (description request) false (includeMusic request)]
     ++ clocks1 ++ clocksC ++ newB ++ [EvClock; EvClock])%list.
  split; [done |]. split; [done |]. split; [done |].
  split; [by rewrite Hprompts |].
  split.
  { intros stage st Hstage. rewrite (Hother _ Hstage).
    unfold stageOf. rewrite lookup_insert_eq. unfold session, newSession.
    destruct (includeVoiceover request), (includeMusic request), stage; simpl;
      by intros [= <-]. }
  split.
  { rewrite HeE, HeD, HeC, HeB. subst wA. simpl.
    repeat (rewrite <- app_assoc || rewrite <- app_comm_cons). done. }
  destruct (clocks_no_call _ HcE) as [HfE HpE], (clocks_no_call _ Hc2) as [Hf2 Hp2],
    (clocks_no_call _ Hc1) as [Hf1 Hp1], (clocks_no_call _ HcC) as [HfC HpC].
  split.
  - repeat (apply Forall_app; split); try done; by repeat constructor.
  - rewrite !List.filter_app, HfE, Hf2, Hf1, HfC, HcB. done.
Qed.

End PromptsTheorem.

(** C6, amended. A response of the prompt generator that parses but does not
    hold exactly [sceneCount] scenes, or holds a scene with an empty
    image or video prompt, is rejected by the validation with a plain
    [Error]. When its message matches no pattern of the classifier, the
    prompts stage fails after one call of the prompt generator with a
    generic [AppError] (status 500, not retryable) and the pipeline
    stops there; when moreover no directory creation fails and no
    recovery strategy applies, [generateVideo] throws that error and
    leaves the session failed, its prompts stage in error and every
    other stage pending. *)
Theorem prompts_validation_failure (env : Env) (request : GenerationRequest)
    (content : string) (parsed : PromptsJson) (scenes : list SceneJson)
    (characterImagePath : string) (w : World) (fuel : nat) :
  (forall x, chat_completions_create env x (sceneCount request) (description request)
               false (includeMusic request) = inr (Some content)) ->
  truthy content = true ->
  JSON_parse env content = Parsed parsed ->
  pj_scenePrompts parsed = Some scenes ->
  Z.of_nat (length scenes) <> sceneCount request
  \/ Exists (fun scene => truthy_opt (sj_imagePrompt scene) = false
                          \/ truthy_opt (sj_videoPrompt scene) = false) scenes ->
  exists err,
    validatePrompts (sceneCount request) false (includeMusic request) parsed = inl err
    /\ (err = newError ("Expected " +:+ pretty (sceneCount request) +:+ " scenes, got "
                        +:+ pretty (length scenes))
        \/ exists scene,
             scene ∈ scenes
             /\ err = newError ("Invalid scene prompt structure for scene "
                                +:+ renderJsVal (sj_sceneNumber scene)))
    /\ (ruleOf err = RDefault ->
        let sid := uuidv4 env (ext w) in
        let e := handleServiceError err
                   (mkErrorContext (Some sid) (Some "prompts") None (Some 1)) in
        cls e = CAppError /\ statusCode e = 500 /\ retryable e = false
        /\ shouldRetry e 1 3 = false
        /\ (forall session w0,
              SessionManager.request session = request -> sessionId session = sid ->
              exists w' clocks1 clocks2,
                executeGenerationPipeline env session w0 = (Throw (TApp e), w')
                /\ events (ext w')
                   = (clocks2
                      ++ [EvOpenAI (sceneCount request) (description request) false
                            (includeMusic request)]
                      ++ clocks1 ++ events (ext w0))%list
                /\ Forall (fun ev => ev = EvClock) clocks1
                /\ Forall (fun ev => ev = EvClock) clocks2)
        /\ ((forall x op, fs_fault env x op = None) ->
            attemptRecovery e = false ->
            exists w' s new,
              generateVideo env (Datatypes.S fuel) request characterImagePath w
              = Some (Throw (TApp e), w')
              /\ store w' !! sid = Some s
              /\ status s = failed
              /\ ss_status <$> stageOf (store w') sid prompts = Some st_error
              /\ (forall stage st,
                    stage <> prompts -> stageOf (store w') sid stage = Some st ->
                    st = pendingStage stage)
              /\ events (ext w') = (new ++ events (ext w))%list
              /\ Forall promptsOnly new
              /\ length (List.filter isOpenAICall new) = 1%nat)).
Proof.
  intros Hchat Htruthy Hparse Hscenes Hbad.
  assert (exists err,
            validatePrompts (sceneCount request) false (includeMusic request) parsed = inl err
            /\ (err = newError ("Expected " +:+ pretty (sceneCount request)
                                +:+ " scenes, got " +:+ pretty (length scenes))
                \/ exists scene,
                     scene ∈ scenes
                     /\ err = newError ("Invalid scene prompt structure for scene "
                                        +:+ renderJsVal (sj_sceneNumber scene))))
    as (err & Hvalidate & Hshape).
  { destruct (decide (Z.of_nat (length scenes) = sceneCount request)) as [Hcount | Hcount].
    - destruct Hbad as [Hne | Hempty]; [done |].
      destruct (validatePrompts_empty _ false (includeMusic request) _ _
                  Hscenes Hcount Hempty) as (scene & Hin & Hrun).
      eexists. split; [exact Hrun |]. right. eauto.
    - eexists. split; [by apply validatePrompts_count |]. by left. }
  exists err. split; [done |]. split; [done |]. intros Hrule sid e.
  assert (rejectedPrompts env request content parsed err) as Hrejected by done.
  assert (e = mkAppError CAppError
                (or_default (raw_message err) "An unexpected error occurred") 500 true false
                (Some (contextOf (mkErrorContext (Some sid) (Some "prompts") None (Some 1)))))
    as He by (by apply handleServiceError_default).
  split; [by rewrite He |]. split; [by rewrite He |]. split; [by rewrite He |].
  split; [by rewrite He |]. split.
  - intros session w0 <- Hsid.
    destruct (generatePrompts_rejects env session content parsed err w0 Hrejected)
      as (w' & clocks1 & clocks2 & t1 & t2 & Hrun & Hevents & Hc1 & Hc2 & _).
    destruct (executeGenerationPipeline_rejects env session content parsed err w0
                Hrejected Hrule) as (w'' & Hpipe & Hrun').
    rewrite Hrun in Hrun'. injection Hrun' as <-.
    exists w', clocks1, clocks2. rewrite Hsid in Hpipe. done.
  - intros Hfs Hrecover.
    by apply (generateVideo_rejects env request content parsed err).
Qed.

(** C6, as stated, fails: the error of a scene-count mismatch is not a
    [ValidationError] (it is a generic [AppError] with status 500); and
    a rejected response whose message happens to contain "503" is
    classified retryable and sent to the prompt generator three times. *)
Lemma prompts_failure_is_not_validation_error :
  match generateVideo exampleEnv 1 exampleRequest "uploads/face.png"
          (mkWorld ∅ exampleExt) with
  | Some (Throw (TApp e), w') =>
      message e = "Expected 3 scenes, got 2"
      /\ cls e = CAppError /\ cls e <> CValidationError /\ statusCode e = 500
  | _ => False
  end
  /\ match generateVideo mislabelledEnv 1 twoSceneRequest "uploads/face.png"
             (mkWorld ∅ exampleExt) with
     | Some (Throw (TApp e), w') =>
         message e = "Invalid scene prompt structure for scene 503"
         /\ cls e <> CValidationError /\ retryable e = true
         /\ length (List.filter isOpenAICall (events (ext w'))) = 3%nat
     | _ => False
     end.
Proof. vm_compute. repeat split; congruence. Qed.

Lemma prompts_validation_failure_witness :
  exists e w' s,
    generateVideo exampleEnv 1 exampleRequest "uploads/face.png" (mkWorld ∅ exampleExt)
    = Some (Throw (TApp e), w')
    /\ cls e = CAppError /\ statusCode e = 500 /\ retryable e = false
    /\ store w' !! "session-1" = Some s
    /\ status s = failed
    /\ ss_status <$> stageOf (store w') "session-1" prompts = Some st_error
    /\ length (List.filter isOpenAICall (events (ext w'))) = 1%nat.
Proof.
  destruct (prompts_validation_failure exampleEnv exampleRequest "{ }"
              (mkPromptsJson
                 (Some [mkSceneJson (JNumber 1) (Some "a face at dawn") (Some "slow zoom");
                        mkSceneJson (JNumber 2) (Some "a face at noon") (Some "pan left")])
                 None (Some "calm piano"))
              [mkSceneJson (JNumber 1) (Some "a face at dawn") (Some "slow zoom");
               mkSceneJson (JNumber 2) (Some "a face at noon") (Some "pan left")]
              "uploads/face.png" (mkWorld ∅ exampleExt) 0%nat)
    as (err & Hvalidate & _ & Hrun); try reflexivity.
  { left. simpl. lia. }
  vm_compute in Hvalidate. injection Hvalidate as <-.
  destruct Hrun as (Hcls & Hstatus & Hretryable & _ & _ & Hrun); [reflexivity |].
  destruct Hrun as (w' & s & new & Hrun & Hs & Hfailed & Hprompts & _ & Hevents & _ & Hcount);
    [reflexivity | reflexivity |].
  eexists _, w', s. split; [exact Hrun |].
  split; [exact Hcls |]. split; [exact Hstatus |]. split; [exact Hretryable |].
  split; [exact Hs |]. split; [exact Hfailed |]. split; [exact Hprompts |].
  rewrite Hevents. simpl. by rewrite app_nil_r.
Defined.


Lemma session_completed_only_after_merge_witness :
  DocsOk (docs (ext (mkWorld ∅ exampleExt)))
  /\ exists w' s,
       generateVideo exampleEnv 1 twoSceneRequest "uploads/face.png" (mkWorld ∅ exampleExt)
       = Some (Ok "session-1", w')
       /\ store w' !! "session-1" = Some s
       /\ status s = completed
       /\ ss_status <$> stageOf (store w') "session-1" merge = Some st_completed
       /\ finalVideoPath s = Some "/app/runs/session-1/final_video.mp4"
       /\ is_Some (files (ext w') !! "/app/runs/session-1/final_video.mp4").
Proof.
  assert (DocsOk (docs (ext (mkWorld ∅ exampleExt)))) as Hdocs.
  { intros path a Hpath. simpl in Hpath. by rewrite lookup_empty in Hpath. }
  split; [exact Hdocs |].
  destruct (generateVideo exampleEnv 1 twoSceneRequest "uploads/face.png"
              (mkWorld ∅ exampleExt)) as [[out w'] |] eqn:Hrun.
  - assert (out = Ok "session-1") as ->.
    { change out with (fst (out, w')).
      apply (inj Some). change (Some (fst (out, w'))) with (fst <$> Some (out, w')).
      rewrite <- Hrun. vm_compute. reflexivity. }
    destruct (session_completed_only_after_merge exampleEnv twoSceneRequest
                "uploads/face.png" (mkWorld ∅ exampleExt) Hdocs) as (_ & Hgen & _).
    destruct (Hgen 1%nat _ _ Hrun) as (s & Hs). exists w', s. split; [reflexivity | exact Hs].
  - exfalso. assert (is_Some (generateVideo exampleEnv 1 twoSceneRequest "uploads/face.png"
                                (mkWorld ∅ exampleExt))) as [? Hsome]
      by (vm_compute; eexists; reflexivity).
    rewrite Hrun in Hsome. discriminate.
Defined.

(** * Further properties *)

(** ** Retry executors: bounds *)

Section RetryBounds.
Context {S T : Type}.
Implicit Types (operation : M S T) (opts : RetryOptions) (s : S).

Lemma withRetry_loop_counts operation opts n attempt last s (c : nat) o s' c' :
  withRetry_loop (counted operation) opts n attempt last (s, c) = (o, (s', c')) ->
  (c <= c' <= c + n)%nat
  /\ match n with
     | O => o = Throw last /\ s' = s /\ c' = c
     | Datatypes.S _ => (c < c')%nat /\ exists s0, operation s0 = (o, s')
     end.
Proof.
  revert attempt last s c. induction n as [| n IH]; intros attempt last s c; simpl.
  - intros [= <- <- <-]. split; [lia | done].
  - unfold try_catch. rewrite counted_run.
    destruct (operation s) as [[r | error] s1] eqn:Hop; simpl.
    + intros [= <- <- <-]. split; [lia |]. split; [lia | eauto].
    + destruct (negb (isRetryable opts error) || (attempt =? maxAttempts opts)).
      * intros [= <- <- <-]. split; [lia |]. split; [lia | eauto].
      * intros Hrun. apply IH in Hrun as [Hbound Hlast].
        split; [lia |]. split; [lia |].
        destruct n as [| n]; [| by destruct Hlast].
        destruct Hlast as (-> & -> & ->). eauto.
Qed.

Lemma executeWithRetry_loop_counts operation stage sid maxRetries n attempt last s
    (c : nat) o s' c' :
  executeWithRetry_loop (counted operation) stage sid maxRetries n attempt last (s, c)
  = (o, (s', c')) ->
  (c <= c' <= c + n)%nat
  /\ match n with
     | O => o = Throw last /\ s' = s /\ c' = c
     | Datatypes.S _ =>
         (c < c')%nat
         /\ exists s0 o0,
              operation s0 = (o0, s')
              /\ match o0 with
                 | Ok r => o = Ok r
                 | Throw (TApp a) => o = Throw (TApp a)
                 | Throw (TRaw e) =>
                     o = Throw (TApp (handleServiceError e
                                        (mkErrorContext (Some sid) (Some stage) None
                                           (Some (attempt + Z.of_nat c' - Z.of_nat c - 1)))))
                 | Throw TNullish =>
                     o = Throw (TRaw (newError
                           "Cannot read properties of undefined (reading 'message')"))
                 end
     end.
Proof.
  revert attempt last s c. induction n as [| n IH]; intros attempt last s c; simpl.
  - intros [= <- <- <-]. split; [lia | done].
  - unfold try_catch. rewrite counted_run.
    destruct (operation s) as [[r | error] s1] eqn:Hop; simpl.
    + intros [= <- <- <-]. split; [lia |]. split; [lia |]. by exists s, (Ok r).
    + destruct error as [a | e |]; unfold bind, classify, ret, throw.
      * destruct (negb (shouldRetry a attempt maxRetries)).
        -- intros [= <- <- <-]. split; [lia |]. split; [lia |]. by exists s, (Throw (TApp a)).
        -- intros Hrun. apply IH in Hrun as [Hbound Hlast].
           split; [lia |]. split; [lia |].
           destruct n as [| n].
           ++ destruct Hlast as (-> & -> & ->). by exists s, (Throw (TApp a)).
           ++ destruct Hlast as (_ & s0 & o0 & Hop0 & Ho). exists s0, o0. split; [done |].
              destruct o0 as [| [| e |]]; try done.
              rewrite Ho. do 5 f_equal. lia.
      * destruct (negb (shouldRetry _ attempt maxRetries)).
        -- intros [= <- <- <-]. split; [lia |]. split; [lia |].
           exists s, (Throw (TRaw e)). split; [done |]. do 5 f_equal. lia.
        -- intros Hrun. apply IH in Hrun as [Hbound Hlast].
           split; [lia |]. split; [lia |].
           destruct n as [| n].
           ++ destruct Hlast as (-> & -> & ->).
              exists s, (Throw (TRaw e)). split; [done |]. do 5 f_equal. lia.
           ++ destruct Hlast as (_ & s0 & o0 & Hop0 & Ho). exists s0, o0. split; [done |].
              destruct o0 as [| [| e' |]]; try done.
              rewrite Ho. do 5 f_equal. lia.
      * intros [= <- <- <-]. split; [lia |]. split; [lia |]. by exists s, (Throw TNullish).
Qed.

End RetryBounds.

(** X1. [withRetry] invokes the operation at most [maxAttempts] times.
    With [maxAttempts >= 1] it invokes it at least once, and its outcome
    (the value returned or the error thrown, unchanged) and final state
    are those of one invocation; with [maxAttempts <= 0] it never
    invokes the operation and throws [undefined], the state
    untouched. *)
Theorem withRetry_invocation_bounds {S T : Type} (operation : M S T)
    (options : PartialRetryOptions) (s : S) :
  let run := withRetry (counted operation) options (s, O) in
  let calls := snd (snd run) in
  let limit := maxAttempts (mergeOptions options) in
  (calls <= Z.to_nat limit)%nat
  /\ (1 <= limit -> (1 <= calls)%nat /\ exists s0, operation s0 = (fst run, fst (snd run)))
  /\ (limit <= 0 -> run = (Throw TNullish, (s, O))).
Proof.
  intros run calls limit. subst calls.
  destruct run as [o [s' c']] eqn:Hrun. subst run. unfold withRetry in Hrun. fold limit in Hrun.
  apply withRetry_loop_counts in Hrun as [Hbound Hlast]. simpl.
  split; [lia |]. split.
  - intros Hlimit. destruct (Z.to_nat limit) eqn:Hn; [lia |].
    destruct Hlast as [? ?]. split; [lia | done].
  - intros Hlimit. replace (Z.to_nat limit) with O in Hlast by lia.
    by destruct Hlast as (-> & -> & ->).
Qed.

(** X2. [executeWithRetry] invokes the stage operation at most
    [maxRetries] times. With [maxRetries >= 1] it invokes it at least
    once and ends as its last invocation did, except that an error which
    is not an [AppError] is thrown classified by [handleServiceError],
    with the number of the attempt in its context; an [AppError] is
    thrown as it is. With [maxRetries <= 0] the operation is never
    invoked and [null] is thrown. *)
Theorem executeWithRetry_invocation_bounds {S T : Type} (operation : M S T)
    (stage sid : string) (maxRetries : Z) (s : S) :
  let run := executeWithRetry (counted operation) stage sid maxRetries (s, O) in
  let calls := snd (snd run) in
  (calls <= Z.to_nat maxRetries)%nat
  /\ (1 <= maxRetries ->
      (1 <= calls)%nat
      /\ exists s0 o0,
           operation s0 = (o0, fst (snd run))
           /\ match o0 with
              | Ok r => fst run = Ok r
              | Throw (TApp a) => fst run = Throw (TApp a)
              | Throw (TRaw e) =>
                  fst run
                  = Throw (TApp (handleServiceError e
                                   (mkErrorContext (Some sid) (Some stage) None
                                      (Some (Z.of_nat calls)))))
              | Throw TNullish =>
                  fst run
                  = Throw (TRaw (newError
                        "Cannot read properties of undefined (reading 'message')"))
              end)
  /\ (maxRetries <= 0 -> run = (Throw TNullish, (s, O))).
Proof.
  intros run calls. subst calls.
  destruct run as [o [s' c']] eqn:Hrun. subst run. unfold executeWithRetry in Hrun.
  apply executeWithRetry_loop_counts in Hrun as [Hbound Hlast]. simpl.
  split; [lia |]. split.
  - intros Hlimit. destruct (Z.to_nat maxRetries) eqn:Hn; [lia |].
    destruct Hlast as (? & s0 & o0 & Hop & Ho). split; [lia |].
    exists s0, o0. split; [done |].
    destruct o0 as [| [| e |]]; try done.
    rewrite Ho. do 5 f_equal. lia.
  - intros Hlimit. replace (Z.to_nat maxRetries) with O in Hlast by lia.
    by destruct Hlast as (-> & -> & ->).
Qed.

(** ** Classification, recovery and summaries *)

Lemma handleServiceError_timeout (e : RawError) (c : ErrorContext) :
  ruleOf e = RTimeout ->
  handleServiceError e c = ProcessingTimeoutError (or_default (ec_stage c) "unknown") 30000.
Proof.
  unfold ruleOf, handleServiceError.
  repeat match goal with
         | |- context [if ?b then _ else _] => destruct b; try done
         end.
Qed.

(** X3. Which classified errors make [generateVideo] start over. For
    the output of [handleServiceError], [attemptRecovery] succeeds
    exactly for a timeout and for a message that contains "disk space"
    or "ENOSPC"; the 'fallback-generation' strategy never applies, since
    no [ServiceUnavailableError] the classifier builds has a [service]
    key in its context. So a full disk (ENOSPC), which is tagged not
    retryable, and a timeout both lead to a new run. *)
Theorem recovery_of_classified_errors (e : RawError) (c : ErrorContext) :
  let a := handleServiceError e c in
  attemptRecovery a
  = (match cls a with CProcessingTimeoutError => true | _ => false end
     || includes (message a) "disk space" || includes (message a) "ENOSPC")
  /\ Forall (fun strategy =>
               rs_name strategy = "fallback-generation" -> canRecover strategy a = false)
            recoveryStrategies
  /\ (ruleOf e = RDiskFull -> retryable a = false /\ attemptRecovery a = true)
  /\ (ruleOf e = RTimeout -> retryable a = true /\ attemptRecovery a = true).
Proof.
  intros a.
  assert (match cls a with
          | CServiceUnavailableError =>
              match context a with Some ctx => opt_is (ctx_service ctx) "video" | None => false end
          | _ => false
          end = false) as Hfallback.
  { subst a. unfold handleServiceError.
    repeat match goal with
           | |- context [if ?b then _ else _] => destruct b; try done
           end. }
  assert (attemptRecovery a
          = (match cls a with CProcessingTimeoutError => true | _ => false end
             || includes (message a) "disk space" || includes (message a) "ENOSPC")) as Hrec.
  { unfold attemptRecovery. simpl. rewrite Hfallback.
    destruct (includes (message a) "disk space"), (includes (message a) "ENOSPC"),
      (cls a); done. }
  split; [done |]. split.
  { repeat constructor; simpl; done. }
  split.
  - intros Hrule. rewrite Hrec. subst a. revert Hrule. unfold ruleOf, handleServiceError.
    repeat match goal with
           | |- context [if ?b then _ else _] => destruct b; try done
           end.
  - intros Hrule. rewrite Hrec. subst a. by rewrite handleServiceError_timeout.
Qed.

(** X4. The summary of a classified error never carries an empty list
    of suggestions. A rate-limit error of the prompt generator carries
    four: its message contains "limit", so the quota advice is added to
    the rate-limit advice. An FFmpeg error carries none, although it is
    retryable: the classifier replaces its message by 'Video processing
    failed', which no longer contains "ffmpeg". *)
Theorem summary_of_classified_errors (e : RawError) (c : ErrorContext) :
  let summary := createErrorSummary (handleServiceError e c) in
  es_suggestions summary <> Some []
  /\ (ruleOf e = ROpenAIRateLimit ->
      es_suggestions summary
      = Some ["Wait for rate limit to reset"; "Consider upgrading your API plan";
              "Check API key quotas and billing"; "Try again later when quotas reset"])
  /\ (ruleOf e = RFFmpegError ->
      es_message summary = "Video processing failed"
      /\ es_retryable summary = true
      /\ es_suggestions summary = None).
Proof.
  intros summary. split; [| split].
  - subst summary. unfold createErrorSummary. cbv zeta.
    destruct (_ ++ _)%list; done.
  - subst summary. unfold ruleOf, handleServiceError.
    repeat match goal with
           | |- context [if ?b then _ else _] => destruct b; try done
           end.
  - subst summary. unfold ruleOf, handleServiceError.
    repeat match goal with
           | |- context [if ?b then _ else _] => destruct b; try done
           end.
Qed.

(** ** A persistent timeout *)

Section PersistentTimeout.
Context (env : Env).

Lemma generatePrompts_chat_fails session e w :
  (forall x, chat_completions_create env x (sceneCount (request session))
               (description (request session)) false (includeMusic (request session))
             = inl e) ->
  exists w', generatePrompts env session w = (Throw (TRaw e), w').
Proof.
  intros Hchat. unfold generatePrompts, stageBody. cbv zeta.
  set (sid := sessionId session).
  destruct (sm_updateStageStatus env sid prompts st_processing
              (Some "Generating scene prompts...") None None w) as [o1 w1] eqn:Hstart.
  pose proof Hstart as Hstart'.
  apply sm_updateStageStatus_inv in Hstart' as (-> & _).
  rewrite (bind_run _ _ _ _ _ Hstart). unfold try_catch.
  assert (OpenAIService.generatePrompts env (sceneCount (request session))
            (description (request session)) false (includeMusic (request session)) sid (ext w1)
          = (Throw (TRaw e),
             logEvent (EvOpenAI (sceneCount (request session)) (description (request session))
                         false (includeMusic (request session))) (ext w1))) as Hcall.
  { unfold OpenAIService.generatePrompts, bind, call. by rewrite Hchat. }
  rewrite (bind_run_throw _ _ _ _ _ (liftExt_run _ _ _ _ Hcall)).
  set (w2 := mkWorld _ _).
  destruct (sm_updateStageStatus env sid prompts st_error
              (Some "Failed to generate prompts") None (Some (messageOf (TRaw e))) w2)
    as [o3 w3] eqn:Hfail.
  pose proof Hfail as Hfail'.
  apply sm_updateStageStatus_inv in Hfail' as (-> & _).
  exists w3. by rewrite (bind_run _ _ _ _ _ Hfail).
Qed.

Lemma executeWithRetry_timeouts (operation : M World unit) (sid : string) e w :
  (forall w, exists w', operation w = (Throw (TRaw e), w')) ->
  ruleOf e = RTimeout ->
  exists w',
    executeWithRetry operation "prompts" sid 3 w
    = (Throw (TApp (ProcessingTimeoutError "prompts" 30000)), w').
Proof.
  intros Hop Hrule. unfold executeWithRetry. change (Z.to_nat 3) with 3%nat.
  destruct (Hop w) as [w1 H1], (Hop w1) as [w2 H2], (Hop w2) as [w3 H3].
  exists w3. simpl. unfold try_catch, bind, classify, ret.
  rewrite H1, handleServiceError_timeout by done. simpl.
  rewrite H2, handleServiceError_timeout by done. simpl.
  by rewrite H3, handleServiceError_timeout by done.
Qed.

Lemma attemptGeneration_timeouts request characterImagePath e w :
  (forall x, chat_completions_create env x (sceneCount request) (description request)
               false (includeMusic request) = inl e) ->
  ruleOf e = RTimeout ->
  (forall x op, fs_fault env x op = None) ->
  exists w',
    attemptGeneration env request characterImagePath w
    = (uuidv4 env (ext w), Failed (ProcessingTimeoutError "prompts" 30000) true, w').
Proof.
  intros Hchat Hrule Hfs. unfold attemptGeneration.
  rewrite sm_createSession_run.
  set (sid := uuidv4 env (ext w)).
  set (session := newSession sid _ request characterImagePath).
  set (wA := mkWorld _ _).
  change (sessionId session) with sid.
  destruct (ensureSessionDirectories_run env sid wA Hfs) as (wB & HB & HsB).
  rewrite (bind_run _ _ _ _ _ HB).
  destruct (sm_updateSessionStatus env sid processing None None wB) as [oC wC] eqn:HC.
  pose proof HC as HC'.
  apply sm_updateSessionStatus_inv in HC' as (-> & _ & _ & _ & tC & HsC).
  rewrite (bind_run _ _ _ _ _ HC).
  destruct (executeWithRetry_timeouts (generatePrompts env session) sid e wC) as [wD HD];
    [| done |].
  { intros w0. by apply generatePrompts_chat_fails. }
  assert (executeGenerationPipeline env session wC
          = (Throw (TApp (ProcessingTimeoutError "prompts" 30000)), wD)) as Hpipe.
  { unfold executeGenerationPipeline. by apply bind_run_throw. }
  rewrite (bind_run_throw _ _ _ _ _ Hpipe).
  unfold bind at 1. unfold classify at 1. unfold ret at 1. cbv zeta.
  set (a := ProcessingTimeoutError "prompts" 30000).
  destruct (sm_updateSessionStatus env sid failed (Some (es_message (createErrorSummary a)))
              (Some (createErrorSummary a)) wD) as [oE wE] eqn:HE.
  pose proof HE as HE'.
  apply sm_updateSessionStatus_inv in HE' as (-> & _).
  unfold bind, ret. rewrite HE. by exists wE.
Qed.

End PersistentTimeout.

(** X5. When every call of the prompt generator times out (and the
    session directories can be created), [generateVideo] never returns:
    each run retries the prompts stage three times, fails with a
    [ProcessingTimeoutError], which the 'reduce-quality' strategy
    recovers from, and so starts a new run with a new session. *)
Theorem persistent_timeout_never_returns (env : Env) (request : GenerationRequest)
    (characterImagePath : string) (e : RawError) :
  (forall x, chat_completions_create env x (sceneCount request) (description request)
               false (includeMusic request) = inl e) ->
  ruleOf e = RTimeout ->
  (forall x op, fs_fault env x op = None) ->
  (forall w, exists w',
      attemptGeneration env request characterImagePath w
      = (uuidv4 env (ext w), Failed (ProcessingTimeoutError "prompts" 30000) true, w'))
  /\ forall fuel w, generateVideo env fuel request characterImagePath w = None.
Proof.
  intros Hchat Hrule Hfs. split.
  - intros w. by apply (attemptGeneration_timeouts env request characterImagePath e).
  - induction fuel as [| fuel IH]; intros w; [done |]. simpl.
    destruct (attemptGeneration_timeouts env request characterImagePath e w Hchat Hrule Hfs)
      as [w' ->].
    apply IH.
Qed.

Lemma persistent_timeout_never_returns_witness :
  generateVideo timeoutEnv 1000 exampleRequest "uploads/face.png" (mkWorld ∅ exampleExt)
  = None.
Proof.
  apply (persistent_timeout_never_returns timeoutEnv exampleRequest "uploads/face.png"
           (mkRawError (Some "ETIMEDOUT") (Some "connect ETIMEDOUT") None None None));
    reflexivity.
Defined.

(** ** The session store *)

Lemma applySessionWrite_identity sessions w sid :
  identityOf <$> (applySessionWrite sessions w !! sid) = identityOf <$> (sessions !! sid).
Proof.
  destruct w as [sid' newStatus err details time | sid' [stage newStatus message pct err time]
                 | sid' videoPath time]; simpl.
  - unfold updateSessionStatus.
    destruct (sessions !! sid') as [s |] eqn:Hs; [| done].
    destruct (decide (sid' = sid)) as [<- | Hne].
    + by rewrite lookup_insert_eq, Hs.
    + by rewrite lookup_insert_ne.
  - unfold applyWrite, updateStageStatus. simpl.
    destruct (sessions !! sid') as [s |] eqn:Hs; [| done].
    destruct (findIndex _ _) as [i |]; [| done].
    destruct (stages s !! i) as [st |] eqn:Hst; [| done].
    destruct (decide (sid' = sid)) as [<- | Hne].
    + rewrite lookup_insert_eq, Hs. unfold identityOf. simpl. do 2 f_equal.
      rewrite list_fmap_insert. simpl. apply list_insert_id.
      by rewrite list_lookup_fmap, Hst.
    + by rewrite lookup_insert_ne.
  - unfold updateSessionFinalVideo.
    destruct (sessions !! sid') as [s |] eqn:Hs; [| done].
    destruct (decide (sid' = sid)) as [<- | Hne].
    + by rewrite lookup_insert_eq, Hs.
    + by rewrite lookup_insert_ne.
Qed.

Lemma applySessionWrites_identity ws sessions sid :
  identityOf <$> (applySessionWrites ws sessions !! sid) = identityOf <$> (sessions !! sid).
Proof.
  unfold applySessionWrites. revert sessions.
  induction ws as [| w ws IH]; intros sessions; simpl; [done |].
  by rewrite IH, applySessionWrite_identity.
Qed.

(** X6. No sequence of status, stage and final-video writes, to any
    session ids, adds or removes a session, or changes the id, the
    request, the character image, the creation time or the list of
    stage names of a session: only [createSession] decides them. *)
Theorem session_writes_keep_identity (ws : list SessionWrite)
    (sessions : gmap string GenerationSession) (sid : string) :
  identityOf <$> (applySessionWrites ws sessions !! sid) = identityOf <$> (sessions !! sid)
  /\ (is_Some (applySessionWrites ws sessions !! sid) <-> is_Some (sessions !! sid))
  /\ getSessionCount (applySessionWrites ws sessions) = getSessionCount sessions.
Proof.
  split; [apply applySessionWrites_identity |]. split.
  - rewrite <- !(fmap_is_Some identityOf). by rewrite applySessionWrites_identity.
  - unfold getSessionCount. rewrite <- !size_dom. f_equal. apply set_eq. intros id.
    rewrite !elem_of_dom, <- !(fmap_is_Some identityOf).
    by rewrite applySessionWrites_identity.
Qed.

Lemma filter_length_all {A} (P : A -> Prop) `{!forall x, Decision (P x)} (l : list A) :
  length (filter P l) = length l <-> Forall P l.
Proof.
  induction l as [| x l IH]; simpl; [by split |].
  rewrite filter_cons. pose proof (length_filter P l) as Hle.
  destruct (decide (P x)) as [Hx | Hx]; simpl.
  - rewrite Forall_cons. split; [intros [= Hlen]; by rewrite <- IH | intros [_ Hl]].
    f_equal. by apply IH.
  - split; [lia |]. by intros [? _]%Forall_cons.
Qed.

Lemma filter_length_none {A} (P : A -> Prop) `{!forall x, Decision (P x)} (l : list A) :
  length (filter P l) = O <-> Forall (fun x => ~ P x) l.
Proof.
  induction l as [| x l IH]; simpl; [by split |].
  rewrite filter_cons.
  destruct (decide (P x)) as [Hx | Hx]; simpl.
  - split; [done |]. by intros [? _]%Forall_cons.
  - rewrite Forall_cons. split; [intros Hl; split; [done | by apply IH] |].
    intros [_ Hl]. by apply IH.
Qed.

(** X7. The progress of a session that [createSession] made, after any
    writes: a whole percentage between 0 and 100, exactly the share of
    its stages that are completed (never [NaN]); it is 100 exactly when
    every stage is completed and 0 exactly when none is. *)
Theorem progress_of_created_session (sessionId timestamp characterImagePath : string)
    (request : GenerationRequest) (sessions : gmap string GenerationSession)
    (ws : list SessionWrite) :
  let store :=
    applySessionWrites ws
      (snd (createSession sessionId timestamp request characterImagePath sessions)) in
  exists s p,
    store !! sessionId = Some s
    /\ getSessionProgress sessionId store = mkProgress (JNum p) (currentStage s)
    /\ 0 <= p <= 100
    /\ p * Z.of_nat (length (stages s))
       = 100 * Z.of_nat (length (filter (fun st => ss_status st = st_completed) (stages s)))
    /\ (p = 100 <-> Forall (fun st => ss_status st = st_completed) (stages s))
    /\ (p = 0 <-> Forall (fun st => ss_status st <> st_completed) (stages s)).
Proof.
  intros store.
  pose proof (applySessionWrites_identity ws
                (snd (createSession sessionId timestamp request characterImagePath sessions))
                sessionId) as Hid.
  fold store in Hid. simpl in Hid. rewrite lookup_insert_eq in Hid.
  destruct (store !! sessionId) as [s |] eqn:Hs; [| done].
  injection Hid as _ _ _ _ Hstages.
  assert (length (stages s) = 4%nat \/ length (stages s) = 5%nat) as Hlen.
  { rewrite <- (length_fmap ss_stage), Hstages. unfold newSession. simpl.
    destruct (_ || _); simpl; auto. }
  pose proof (length_filter (fun st => ss_status st = st_completed) (stages s)) as Hle.
  pose proof (filter_length_all (fun st => ss_status st = st_completed) (stages s)) as Hall.
  pose proof (filter_length_none (fun st => ss_status st = st_completed) (stages s)) as Hnone.
  unfold getSessionProgress. rewrite Hs. unfold roundPercent. exists s.
  remember (length (filter (fun st => ss_status st = st_completed) (stages s))) as c eqn:Hc.
  remember (length (stages s)) as t eqn:Ht.
  clear Hc Ht.
  exists ((200 * Z.of_nat c + Z.of_nat t) / (2 * Z.of_nat t)).
  assert ((Z.of_nat t =? 0) = false) as -> by (apply Z.eqb_neq; lia).
  split; [done |]. split; [done |].
  assert ((200 * Z.of_nat c + Z.of_nat t) / (2 * Z.of_nat t) * Z.of_nat t = 100 * Z.of_nat c)
    as Hexact.
  { destruct Hlen as [-> | ->].
    - replace (200 * Z.of_nat c + Z.of_nat 4) with (Z.of_nat c * 25 * (2 * Z.of_nat 4) + 4)
        by lia.
      rewrite Z.div_add_l by lia. change (4 / (2 * Z.of_nat 4)) with 0. lia.
    - replace (200 * Z.of_nat c + Z.of_nat 5) with (Z.of_nat c * 20 * (2 * Z.of_nat 5) + 5)
        by lia.
      rewrite Z.div_add_l by lia. change (5 / (2 * Z.of_nat 5)) with 0. lia. }
  split; [destruct Hlen as [-> | ->]; lia |]. split; [lia |].
  rewrite <- Hall, <- Hnone. destruct Hlen as [-> | ->]; split; lia.
Qed.

(** What [updateStageStatus] does to a session that has the stage. *)
Lemma updateStageStatus_found sessions sid stage newStatus message pct err timestamp s st :
  sessions !! sid = Some s ->
  stageOf sessions sid stage = Some st ->
  exists s',
    updateStageStatus sid stage newStatus message pct err timestamp sessions !! sid = Some s'
    /\ currentStage s' = updateCurrentStage s st stage newStatus
    /\ stageOf (updateStageStatus sid stage newStatus message pct err timestamp sessions)
         sid stage
       = Some (updateStage st newStatus message pct err timestamp)
    /\ updatedAt s' = timestamp.
Proof.
  intros Hs Hst.
  assert (stageOf (updateStageStatus sid stage newStatus message pct err timestamp sessions)
            sid stage
          = Some (updateStage st newStatus message pct err timestamp)) as Hafter.
  { by rewrite stageOf_updateStageStatus, bool_decide_eq_true_2, Hst by done. }
  unfold stageOf in Hst. rewrite Hs in Hst.
  unfold updateStageStatus in *. rewrite Hs in *.
  pose proof (findIndex_find (fun x => bool_decide (ss_stage x = stage)) (stages s)) as Hfind.
  destruct (findIndex _ (stages s)) as [i |]; [| congruence].
  destruct Hfind as (st' & Hi & Hfound & _).
  assert (st' = st) as -> by congruence.
  rewrite Hi in *. rewrite lookup_insert_eq. eauto.
Qed.

(** X8. The current-stage pointer. A 'processing' write to a stage that
    has not started makes it the current stage; a 'completed' or 'error'
    write to a stage leaves the pointer off that stage. But a
    'processing' write to a stage that has a start time does not touch
    the pointer: a stage that fails and is run again is 'processing'
    while the session has no current stage. *)
Theorem current_stage_pointer (sessions : gmap string GenerationSession) (sid : string)
    (stage : ProcessingStage) (s : GenerationSession) (st : StageStatus) :
  sessions !! sid = Some s ->
  stageOf sessions sid stage = Some st ->
  (forall message pct err time,
      truthy_opt (startTime st) = false ->
      currentStage
        <$> (updateStageStatus sid stage st_processing message pct err time sessions !! sid)
      = Some (Some stage))
  /\ (forall newStatus message pct err time,
      newStatus = st_completed \/ newStatus = st_error ->
      currentStage
        <$> (updateStageStatus sid stage newStatus message pct err time sessions !! sid)
      <> Some (Some stage))
  /\ (forall message pct err time,
      truthy_opt (startTime st) = true ->
      currentStage
        <$> (updateStageStatus sid stage st_processing message pct err time sessions !! sid)
      = Some (currentStage s))
  /\ (forall m1 m2 m3 p1 p2 p3 e1 e2 e3 t1 t2 t3,
      truthy_opt (startTime st) = false -> truthy t1 = true ->
      let retried :=
        updateStageStatus sid stage st_processing m3 p3 e3 t3
          (updateStageStatus sid stage st_error m2 p2 e2 t2
             (updateStageStatus sid stage st_processing m1 p1 e1 t1 sessions)) in
      ss_status <$> stageOf retried sid stage = Some st_processing
      /\ startTime <$> stageOf retried sid stage = Some (Some t1)
      /\ currentStage <$> (retried !! sid) = Some None).
Proof.
  intros Hs Hst.
  assert (forall newStatus message pct err time,
             currentStage
               <$> (updateStageStatus sid stage newStatus message pct err time sessions !! sid)
             = Some (updateCurrentStage s st stage newStatus)) as Hptr.
  { intros newStatus message pct err time.
    destruct (updateStageStatus_found sessions sid stage newStatus message pct err time s st
                Hs Hst) as (s' & Hs' & Hcur & _).
    by rewrite Hs', <- Hcur. }
  split; [| split; [| split]].
  - intros message pct err time Hstart. rewrite Hptr. unfold updateCurrentStage.
    by rewrite Hstart.
  - intros newStatus message pct err time Hdone. rewrite Hptr. unfold updateCurrentStage.
    destruct Hdone as [-> | ->]; simpl; by case_bool_decide; congruence.
  - intros message pct err time Hstart. rewrite Hptr. unfold updateCurrentStage.
    by rewrite Hstart.
  - intros m1 m2 m3 p1 p2 p3 e1 e2 e3 t1 t2 t3 Hstart Ht1 retried.
    destruct (updateStageStatus_found sessions sid stage st_processing m1 p1 e1 t1 s st
                Hs Hst) as (s1 & Hs1 & Hcur1 & Hst1 & _).
    destruct (updateStageStatus_found _ sid stage st_error m2 p2 e2 t2 s1 _
                Hs1 Hst1) as (s2 & Hs2 & Hcur2 & Hst2 & _).
    destruct (updateStageStatus_found _ sid stage st_processing m3 p3 e3 t3 s2 _
                Hs2 Hst2) as (s3 & Hs3 & Hcur3 & Hst3 & _).
    unfold retried. rewrite Hst3, Hs3. simpl.
    unfold updateCurrentStage in Hcur1, Hcur2, Hcur3. simpl in *.
    rewrite Hstart in *. simpl in *. rewrite Ht1 in *. simpl in *.
    rewrite Hcur1 in Hcur2. rewrite bool_decide_eq_true_2 in Hcur2 by done.
    split; [done |]. split; [done |]. by rewrite Hcur3, Hcur2.
Qed.

Lemma current_stage_pointer_witness :
  let retried := applyWrites "session-1" (take 3 retriedMergeWrites) exampleStore in
  ss_status <$> stageOf retried "session-1" merge = Some st_processing
  /\ startTime <$> stageOf retried "session-1" merge = Some (Some "2025-01-01T00:05:00.000Z")
  /\ currentStage <$> (retried !! "session-1") = Some None.
Proof.
  destruct (exampleStore !! "session-1") as [s |] eqn:Hs; [| by vm_compute in Hs].
  destruct (stageOf exampleStore "session-1" merge) as [st |] eqn:Hst;
    [| by vm_compute in Hst].
  assert (truthy_opt (startTime st) = false) as Hstart.
  { vm_compute in Hst. by injection Hst as <-. }
  destruct (current_stage_pointer exampleStore "session-1" merge s st Hs Hst)
    as (_ & _ & _ & Hretried).
  exact (Hretried (Some "Merging videos and audio...") (Some "Failed to merge video content")
           (Some "Merging videos and audio...") None None None None
           (Some "Audio mixing failed: ffmpeg exited with code 1") None
           "2025-01-01T00:05:00.000Z" "2025-01-01T00:05:10.000Z" "2025-01-01T00:05:12.000Z"
           Hstart eq_refl).
Defined.

(** ** The sweep of old sessions *)

Section Sweep.
Context (Date_parse : string -> option Z) (cutoffTime : option Z).

Lemma cleanupOldSessions_spec (sessions : gmap string GenerationSession) :
  let older := fun kv : string * GenerationSession =>
                 olderThan Date_parse cutoffTime kv.2 = true in
  fst (cleanupOldSessions Date_parse cutoffTime sessions) = size (filter older sessions)
  /\ snd (cleanupOldSessions Date_parse cutoffTime sessions)
     = filter (fun kv => ~ older kv) sessions.
Proof.
  intros older. unfold cleanupOldSessions.
  enough (forall sessions0 m : gmap string GenerationSession,
             let r := map_fold
                        (fun sessionId session '(cleanedCount, remaining) =>
                           if olderThan Date_parse cutoffTime session
                           then (Datatypes.S cleanedCount, delete sessionId remaining)
                           else (cleanedCount, remaining))
                        (O, sessions0) m in
             fst r = size (filter older m)
             /\ forall id,
                  snd r !! id
                  = match m !! id with
                    | Some s => if olderThan Date_parse cutoffTime s then None
                                else sessions0 !! id
                    | None => sessions0 !! id
                    end) as Hfold.
  { destruct (Hfold sessions sessions) as [Hcount Hrest]. split; [done |].
    apply map_eq. intros id. rewrite Hrest, map_lookup_filter.
    destruct (sessions !! id) as [s |]; simpl; [| done].
    unfold older. simpl. destruct (olderThan _ _ s); by case_guard. }
  intros sessions0.
  apply (map_fold_weak_ind
           (fun (r : nat * gmap string GenerationSession)
                (m : gmap string GenerationSession) =>
              fst r = size (filter older m)
              /\ forall id,
                   snd r !! id
                   = match m !! id with
                     | Some s => if olderThan Date_parse cutoffTime s then None
                                 else sessions0 !! id
                     | None => sessions0 !! id
                     end)).
  - split; [by rewrite map_filter_empty, map_size_empty |].
    intros id. by rewrite lookup_empty.
  - intros i x m [n rest] Hi [Hcount Hrest]. simpl in *.
    destruct (olderThan Date_parse cutoffTime x) eqn:Hx; simpl.
    + split.
      * rewrite map_filter_insert_True by done.
        rewrite map_size_insert_None; [by rewrite Hcount |].
        by rewrite map_lookup_filter, Hi.
      * intros id. destruct (decide (id = i)) as [-> | Hne].
        -- by rewrite lookup_delete_eq, lookup_insert_eq, Hx.
        -- by rewrite lookup_delete_ne, lookup_insert_ne, Hrest.
    + split.
      * rewrite map_filter_insert_not'; [done | |].
        -- unfold older. simpl. by rewrite Hx.
        -- intros y. by rewrite Hi.
      * intros id. destruct (decide (id = i)) as [-> | Hne].
        -- by rewrite lookup_insert_eq, Hx, Hrest, Hi.
        -- by rewrite lookup_insert_ne, Hrest.
Qed.

End Sweep.

(** X9. [cleanupOldSessions] removes exactly the sessions whose
    creation time parses and lies strictly before a cutoff that is a
    valid date; it leaves every other session as it is, and returns the
    number it removed. A session created exactly at the cutoff stays, a
    session whose creation time does not parse is never removed, and
    nothing is removed when the cutoff is an invalid date. *)
Theorem cleanupOldSessions_removes_old (Date_parse : string -> option Z)
    (cutoffTime : option Z) (sessions : gmap string GenerationSession) :
  let cleanedCount := fst (cleanupOldSessions Date_parse cutoffTime sessions) in
  let remaining := snd (cleanupOldSessions Date_parse cutoffTime sessions) in
  (forall id s,
      remaining !! id = Some s
      <-> sessions !! id = Some s
          /\ ~ (exists sessionTime cutoff,
                  Date_parse (createdAt s) = Some sessionTime
                  /\ cutoffTime = Some cutoff
                  /\ sessionTime < cutoff))
  /\ (cleanedCount + getSessionCount remaining = getSessionCount sessions)%nat
  /\ (forall id s, sessions !! id = Some s -> Date_parse (createdAt s) = cutoffTime ->
        remaining !! id = Some s)
  /\ (forall id s, sessions !! id = Some s -> Date_parse (createdAt s) = None ->
        remaining !! id = Some s)
  /\ (cutoffTime = None -> cleanedCount = O /\ remaining = sessions).
Proof.
  intros cleanedCount remaining.
  destruct (cleanupOldSessions_spec Date_parse cutoffTime sessions) as [Hcount Hrest].
  fold cleanedCount in Hcount. fold remaining in Hrest.
  assert (forall s,
             olderThan Date_parse cutoffTime s = true
             <-> exists sessionTime cutoff,
                   Date_parse (createdAt s) = Some sessionTime
                   /\ cutoffTime = Some cutoff
                   /\ sessionTime < cutoff) as Holder.
  { intros s. unfold olderThan.
    destruct (Date_parse (createdAt s)) as [sessionTime |], cutoffTime as [cutoff |]; split;
      try done; try (by intros (? & ? & ? & ? & ?)).
    - intros Hlt. exists sessionTime, cutoff. by apply Z.ltb_lt in Hlt.
    - intros (? & ? & [= <-] & [= <-] & Hlt). by apply Z.ltb_lt. }
  assert (forall id,
             remaining !! id
             = s ← sessions !! id; if olderThan Date_parse cutoffTime s then None else Some s)
    as Hlookup.
  { intros id. rewrite Hrest, map_lookup_filter.
    destruct (sessions !! id) as [s |]; simpl; [| done].
    destruct (olderThan _ _ s); by case_guard. }
  assert (forall id s,
             remaining !! id = Some s
             <-> sessions !! id = Some s /\ olderThan Date_parse cutoffTime s = false)
    as Hkept.
  { intros id s. rewrite Hlookup. destruct (sessions !! id) as [s0 |]; simpl.
    - destruct (olderThan Date_parse cutoffTime s0) eqn:Hs0; split.
      + done.
      + intros [[= ->] Hs]. congruence.
      + intros [= ->]. done.
      + by intros [[= ->] _].
    - split; [done | by intros [? _]]. }
  assert (cleanedCount + getSessionCount remaining = getSessionCount sessions)%nat as Hsize.
  { unfold getSessionCount. rewrite Hcount, Hrest.
    rewrite <- map_size_disj_union by apply map_disjoint_filter_complement.
    by rewrite map_filter_union_complement. }
  split.
  { intros id s. rewrite Hkept, <- Holder, not_true_iff_false. done. }
  split; [done |]. split; [| split].
  - intros id s Hs Hparse. apply Hkept. split; [done |].
    apply not_true_iff_false. rewrite Holder.
    intros (sessionTime & cutoff & Htime & Hcutoff & Hlt).
    rewrite Hparse, Hcutoff in Htime. injection Htime as ->. lia.
  - intros id s Hs Hparse. apply Hkept. split; [done |].
    unfold olderThan. by rewrite Hparse.
  - intros ->.
    assert (remaining = sessions) as Hsame.
    { apply map_eq. intros id. rewrite Hlookup.
      destruct (sessions !! id) as [s |]; simpl; [| done].
      unfold olderThan. by destruct (Date_parse _). }
    split; [| done]. rewrite Hsame in Hsize. lia.
Qed.

Lemma cleanupOldSessions_removes_old_witness :
  cleanupOldSessions exampleDates (Some 1735776000000) sweepStore
  = (1%nat, delete "old" sweepStore)
  /\ snd (cleanupOldSessions exampleDates (Some 1735862400000) sweepStore) !! "new"
     = sweepStore !! "new"
  /\ snd (cleanupOldSessions exampleDates (Some 1735776000000) sweepStore) !! "odd"
     = sweepStore !! "odd"
  /\ cleanupOldSessions exampleDates None sweepStore = (O, sweepStore).
Proof.
  destruct (cleanupOldSessions_removes_old exampleDates (Some 1735776000000) sweepStore)
    as (_ & _ & _ & Hodd & _).
  destruct (cleanupOldSessions_removes_old exampleDates (Some 1735862400000) sweepStore)
    as (_ & _ & Hsame & _).
  destruct (cleanupOldSessions_removes_old exampleDates None sweepStore)
    as (_ & _ & _ & _ & Hnone).
  split; [by vm_compute |]. split; [| split].
  - apply (Hsame "new"); reflexivity.
  - apply (Hodd "odd"); reflexivity.
  - destruct (Hnone eq_refl) as [Hcount Hsame'].
    by rewrite (surjective_pairing (cleanupOldSessions _ _ _)), Hcount, Hsame'.
Defined.

(** ** FFmpeg commands *)

(** X10. The crossfade filter of [n] videos. Fewer than two videos
    give the null filter. Otherwise the chain has [n - 1] steps: it
    starts from input 0, step [i] fades in input [i + 1] at offset
    [i * sceneDuration], each step reads the output of the one before,
    and only the last step writes the output label. *)
Theorem crossfade_chain (videoCount : nat) (transitionDuration sceneDuration : Q) :
  ((videoCount < 2)%nat ->
   buildCrossfadeVideoFilter videoCount transitionDuration sceneDuration = VNull)
  /\ ((2 <= videoCount)%nat ->
      exists steps,
        buildCrossfadeVideoFilter videoCount transitionDuration sceneDuration = VXfade steps
        /\ length steps = (videoCount - 1)%nat
        /\ xf_prev <$> steps !! O = Some "[0:v]"
        /\ xf_output <$> last steps = Some "[outv]"
        /\ (forall (i : nat) step,
              steps !! i = Some step ->
              xf_next step = "[" +:+ pretty (i + 1)%nat +:+ ":v]"
              /\ xf_duration step = transitionDuration
              /\ xf_offset step = (inject_Z (Z.of_nat i) * sceneDuration)%Q)
        /\ (forall (i : nat) step next,
              steps !! i = Some step -> steps !! Datatypes.S i = Some next ->
              xf_prev next = xf_output step /\ xf_output step <> "[outv]")).
Proof.
  unfold buildCrossfadeVideoFilter. split.
  - intros Hn. by apply Nat.ltb_lt in Hn as ->.
  - intros Hn. assert ((videoCount <? 2)%nat = false) as -> by (apply Nat.ltb_ge; lia).
    eexists. split; [done |].
    split; [by rewrite length_fmap, length_seq |].
    split.
    { rewrite list_lookup_fmap, lookup_seq_lt by lia. done. }
    split.
    { rewrite last_lookup, length_fmap, length_seq, list_lookup_fmap, lookup_seq_lt by lia.
      simpl. replace (Init.Nat.pred (videoCount - 1)) with (videoCount - 2)%nat by lia.
      by rewrite Nat.eqb_refl. }
    split.
    + intros i step. rewrite list_lookup_fmap. intros Hi.
      apply fmap_Some in Hi as (j & [-> Hj]%lookup_seq & ->). done.
    + intros i step next. rewrite !list_lookup_fmap. intros Hi Hnext.
      apply fmap_Some in Hi as (j & [-> Hj]%lookup_seq & ->).
      apply fmap_Some in Hnext as (k & [-> Hk]%lookup_seq & ->). simpl.
      assert ((i =? videoCount - 2)%nat = false) as -> by (apply Nat.eqb_neq; lia).
      split; [by replace (i + 1)%nat with (Datatypes.S i) by lia | done].
Qed.

Section AudioMix.
Context (env : Env).

(** Whether [checkVideoHasAudio] finds an audio stream: a failed probe
    counts as none. *)
Lemma checkVideoHasAudio_run videoPath x :
  checkVideoHasAudio env videoPath x
  = (Ok (match ffprobe env x videoPath with inr b => b | inl _ => false end),
     logEvent (EvProbe videoPath) x).
Proof.
  unfold checkVideoHasAudio, try_catch, call, ret.
  by destruct (ffprobe env x videoPath).
Qed.

End AudioMix.



(** X12. When none of the audio files named in the options is on disk
    (say the music path of the artifacts points to a file that is gone),
    [addAudioToVideo] does not fail: it runs FFmpeg on the video alone,
    with no audio filter and the streams mapped as they are, and returns
    the output path when FFmpeg ends. *)
Theorem addAudioToVideo_without_audio_files (env : Env) (videoPath : string)
    (audioOptions : AudioMixOptions) (x : Ext) :
  (forall p, voiceoverPath audioOptions = Some p -> files x !! p = None) ->
  (forall p, am_musicPath audioOptions = Some p -> files x !! p = None) ->
  let command :=
    mkFFmpegCommand [videoPath] None [] ["0:v"; "0:a?"] None (am_outputPath audioOptions) in
  let probed := logEvent (EvProbe videoPath) x in
  addAudioToVideo env videoPath audioOptions x
  = match ffmpeg_run env probed command with
    | FFEnd bytes =>
        (Ok (am_outputPath audioOptions),
         writeBytes (am_outputPath audioOptions) bytes (logEvent (EvFFmpeg command) probed))
    | FFError msg =>
        (Throw (TRaw (newError ("Audio mixing failed: " +:+ msg))),
         logEvent (EvFFmpeg command) probed)
    end.
Proof.
  intros Hvoice Hmusic command probed.
  assert (forall path, (forall p, path = Some p -> files x !! p = None) ->
                       provided probed path = []) as Hnone.
  { intros [p |] Hp; [| done]. unfold provided, existsSync. simpl.
    rewrite (Hp p eq_refl). rewrite bool_decide_eq_false_2 by (by intros []).
    by rewrite andb_false_r. }
  unfold addAudioToVideo.
  rewrite (bind_run _ _ _ _ _ (checkVideoHasAudio_run env videoPath x)).
  fold probed. unfold bind at 1. unfold get at 1. cbv beta iota zeta.
  rewrite (Hnone _ Hvoice), (Hnone _ Hmusic). simpl app. cbv beta iota.
  unfold bind, runCommand. fold command.
  by destruct (ffmpeg_run env probed command).
Qed.

Lemma addAudioToVideo_without_audio_files_witness :
  exists x',
    addAudioToVideo exampleEnv "/app/runs/session-1/merged_scenes.mp4"
      (mkAudioMixOptions None (Some "/app/runs/session-1/audio/background_music.mp3")
         "/app/runs/session-1/final_video.mp4" (Some (1 # 2)%Q) None) (ext silentWorld)
    = (Ok "/app/runs/session-1/final_video.mp4", x')
    /\ events x'
       = [EvFFmpeg (mkFFmpegCommand ["/app/runs/session-1/merged_scenes.mp4"] None []
                      ["0:v"; "0:a?"] None "/app/runs/session-1/final_video.mp4");
          EvProbe "/app/runs/session-1/merged_scenes.mp4"].
Proof.
  eexists.
  rewrite (addAudioToVideo_without_audio_files exampleEnv
             "/app/runs/session-1/merged_scenes.mp4"
             (mkAudioMixOptions None (Some "/app/runs/session-1/audio/background_music.mp3")
                "/app/runs/session-1/final_video.mp4" (Some (1 # 2)%Q) None)
             (ext silentWorld)).
  - simpl. split; reflexivity.
  - intros p [=].
  - intros p [= <-]. by vm_compute.
Defined.

Lemma find_first_missing (x : Ext) (before after : list string) (first : string) :
  Forall (fun videoPath => is_Some (files x !! videoPath)) before ->
  files x !! first = None ->
  List.find (fun videoPath => negb (existsSync x videoPath)) (before ++ first :: after)
  = Some first.
Proof.
  intros Hbefore Hfirst. induction Hbefore as [| videoPath rest Hpath _ IH]; simpl.
  - unfold existsSync. rewrite Hfirst.
    by rewrite bool_decide_eq_false_2 by (by intros []).
  - unfold existsSync at 1. by rewrite bool_decide_eq_true_2.
Qed.

(** X13. A missing input does not stop [concatenateVideos] from
    starting FFmpeg. When some video path is not on disk, the promise is
    rejected with 'Video file not found' for the first such path; the
    command is still built and started, on the inputs that exist and
    with a filter that counts every path given, the missing ones too.
    When the caller sees the rejection, nothing has been written. *)
Theorem concatenateVideos_missing_input (env : Env) (options : VideoMergeOptions) (x : Ext)
    (before after : list string) (first : string) :
  videoPaths options = (before ++ first :: after)%list ->
  Forall (fun videoPath => is_Some (files x !! videoPath)) before ->
  files x !! first = None ->
  let videoCount := length (videoPaths options) in
  let command :=
    mkFFmpegCommand
      (before ++ List.filter (fun videoPath => bool_decide (is_Some (files x !! videoPath)))
                   after)
      (Some match fadeTransition options with
            | Some true =>
                buildCrossfadeVideoFilter videoCount
                  (num_or (transitionDuration options) (1 # 2))
                  (num_or (sceneDuration options) 5)
            | _ =>
                VConcat ((fun i : nat => "[" +:+ pretty i +:+ ":v]") <$> seq 0 videoCount)
                  videoCount
            end)
      [] ["[outv]"] (resolution options) (vm_outputPath options) in
  concatenateVideos env options x
  = (Throw (TRaw (newError ("Video file not found: " +:+ first))),
     mkExt (files x) (docs x) (EvFFmpeg command :: events x))
  /\ (first ∉ ff_inputs command)
  /\ (length (ff_inputs command) < videoCount)%nat.
Proof.
  intros Hpaths Hbefore Hfirst videoCount command.
  assert (List.filter (existsSync x) (videoPaths options) = ff_inputs command) as Hinputs.
  { rewrite Hpaths, List.filter_app. simpl. f_equal.
    - clear Hpaths command. induction Hbefore as [| videoPath rest Hpath _ IH]; simpl; [done |].
      unfold existsSync at 1. by rewrite bool_decide_eq_true_2, IH.
    - unfold existsSync at 1. rewrite Hfirst.
      by rewrite bool_decide_eq_false_2 by (by intros []). }
  split; [| split].
  - assert (List.find (fun videoPath => negb (existsSync x videoPath)) (videoPaths options)
            = Some first) as Hfind
      by (rewrite Hpaths; by apply find_first_missing).
    unfold concatenateVideos, bind, get. rewrite Hinputs, Hfind. reflexivity.
  - simpl. rewrite elem_of_app. intros [Hin | Hin].
    + rewrite Forall_forall in Hbefore. apply Hbefore in Hin.
      rewrite Hfirst in Hin. by destruct Hin.
    + apply list_elem_of_In, List.filter_In in Hin as [_ Hexists].
      apply bool_decide_eq_true in Hexists. rewrite Hfirst in Hexists. by destruct Hexists.
  - subst videoCount. rewrite Hpaths. simpl. rewrite !length_app. simpl.
    pose proof (List.filter_length_le
                  (fun videoPath => bool_decide (is_Some (files x !! videoPath))) after).
    lia.
Qed.

Lemma concatenateVideos_missing_input_witness :
  concatenateVideos exampleEnv
    (mkVideoMergeOptions
       ["/app/video/session-1/scene-1.mp4"; "/app/video/session-1/scene-2.mp4"]
       "/app/runs/session-1/merged_scenes.mp4" None (Some false) None None) gapExt
  = (Throw (TRaw (newError "Video file not found: /app/video/session-1/scene-2.mp4")),
     mkExt (files gapExt) (docs gapExt)
       [EvFFmpeg
          (mkFFmpegCommand ["/app/video/session-1/scene-1.mp4"]
             (Some (VConcat ["[0:v]"; "[1:v]"] 2)) [] ["[outv]"] None
             "/app/runs/session-1/merged_scenes.mp4")])
  /\ files gapExt !! "/app/runs/session-1/merged_scenes.mp4" = None.
Proof.
  destruct (concatenateVideos_missing_input exampleEnv
              (mkVideoMergeOptions
                 ["/app/video/session-1/scene-1.mp4"; "/app/video/session-1/scene-2.mp4"]
                 "/app/runs/session-1/merged_scenes.mp4" None (Some false) None None) gapExt
              ["/app/video/session-1/scene-1.mp4"] []
              "/app/video/session-1/scene-2.mp4")
    as (Hrun & _ & _).
  - reflexivity.
  - apply Forall_singleton. vm_compute. eexists. reflexivity.
  - vm_compute. reflexivity.
  - split; [exact Hrun | vm_compute; reflexivity].
Defined.

(** ** What the services write *)

(** Calls that only log: they keep every property of the outside state
    that logging keeps. *)
Section Quiet.
Context (env : Env) (Q : Ext -> Prop).
Hypothesis Hlog : forall ev x, Q x -> Q (logEvent ev x).

Lemma quiet_call {A} (ev : Event) (answer : Ext -> RawError + A) :
  preserves Q (call ev answer).
Proof. intros x o x' HQ. unfold call. destruct (answer x); intros [= <- <-]; auto. Qed.

Lemma quiet_fsCall {A} (op : FsOp) (effect : Ext -> Outcome A * Ext) :
  preserves Q effect -> preserves Q (fsCall env op effect).
Proof.
  intros Heffect x o x' HQ. unfold fsCall.
  destruct (fs_fault env x op); [intros [= <- <-]; auto |].
  apply Heffect. auto.
Qed.

Lemma quiet_ensureDir path : preserves Q (ensureDir env path).
Proof. apply quiet_fsCall. by intros x o x' HQ [= <- <-]. Qed.

Lemma quiet_readFile path : preserves Q (readFile env path).
Proof.
  apply quiet_fsCall. intros x o x' HQ.
  by destruct (files x !! path); intros [= <- <-].
Qed.

Lemma quiet_readJson path : preserves Q (readJson env path).
Proof.
  apply quiet_fsCall. intros x o x' HQ.
  by destruct (docs x !! path); intros [= <- <-].
Qed.

Lemma quiet_extractUrl output : preserves Q (extractUrl output).
Proof.
  unfold extractUrl.
  destruct output as [| s | [| first rest] | url | url |]; try destruct (truthy _);
    (apply preserves_ret || apply preserves_throw).
Qed.

Lemma quiet_runImageModel scene reference original options :
  preserves Q (runImageModel env scene reference original options).
Proof.
  unfold runImageModel.
  apply preserves_bind; [apply quiet_readFile | intros b].
  apply preserves_bind.
  { destruct (includeOriginalAnchor options) as [[|] |]; try apply preserves_ret.
    apply preserves_bind; [apply quiet_readFile | intros ?; apply preserves_ret]. }
  intros anchor. destruct (provider options);
    (apply preserves_bind; [apply quiet_call | intros ?; apply quiet_extractUrl]).
Qed.

Lemma quiet_kling_generateVideo imageUrl prompt duration :
  preserves Q (KlingService.generateVideo env imageUrl prompt duration).
Proof.
  unfold KlingService.generateVideo. apply preserves_withRetry.
  apply preserves_bind; [apply quiet_call | intros url].
  destruct (truthy_opt url); [apply preserves_ret | apply preserves_throw].
Qed.

End Quiet.

Section SavedFiles.
Context (env : Env).

(** A scene image: the file is written on return, and nothing is
    written when the generation or the download fails. *)
Lemma generateSingleSceneImage_files scene reference original sid (n : nat) options x o x' :
  generateSingleSceneImage env scene reference original sid n options x = (o, x') ->
  docs x' = docs x
  /\ match o with
     | Ok p =>
         p = sceneImagePath env sid n
         /\ exists bytes, files x' = <[sceneImagePath env sid n := bytes]> (files x)
     | Throw _ => files x' = files x
     end.
Proof.
  unfold generateSingleSceneImage.
  set (Q := fun y : Ext => docs y = docs x /\ files y = files x).
  assert (forall ev y, Q y -> Q (logEvent ev y)) as Hlog by done.
  assert (Q x) as HQ by done.
  unfold bind at 1.
  destruct (ensureDir env (sceneImageDir env sid) x) as [[[] | t] x1] eqn:Hdir.
  2: { intros [= <- <-]. by eapply (quiet_ensureDir env Q Hlog) in Hdir. }
  eapply (quiet_ensureDir env Q Hlog) in Hdir as HQ1; [| done].
  unfold bind at 1.
  destruct (withRetry _ REPLICATE_RETRY_OPTIONS x1) as [[url | t] x2] eqn:Hmodel.
  2: { intros [= <- <-].
       eapply (preserves_withRetry Q) in Hmodel; [done | | done].
       by apply quiet_runImageModel. }
  eapply (preserves_withRetry Q) in Hmodel as HQ2; [| by apply quiet_runImageModel | done].
  unfold bind at 1.
  destruct (call (EvFetch url) (fun y => fetch env y url) x2) as [[response | t] x3] eqn:Hfetch.
  2: { intros [= <- <-]. by eapply (quiet_call Q Hlog) in Hfetch. }
  eapply (quiet_call Q Hlog) in Hfetch as [Hd3 Hf3]; [| done].
  destruct (negb (ok response)); [by intros [= <- <-] |].
  unfold bind, writeFile, fsCall, ret.
  destruct (fs_fault env x3 _); intros [= <- <-]; simpl; [done |].
  split; [done |]. split; [done |]. exists (body response). by rewrite Hf3.
Qed.

Lemma generateSceneImages_from_files original sid options remaining :
  forall (i : nat) acc prev x o x',
  generateSceneImages_from env remaining i acc prev original sid options x = (o, x') ->
  docs x' = docs x
  /\ (forall q, is_Some (files x !! q) -> is_Some (files x' !! q))
  /\ (forall q, (forall k : nat, q <> sceneImagePath env sid k) ->
                files x' !! q = files x !! q)
  /\ (forall paths, o = Ok paths ->
        forall k : nat, (k < length remaining)%nat ->
                  is_Some (files x' !! sceneImagePath env sid (i + k + 1))).
Proof.
  induction remaining as [| scene rest IH]; intros i acc prev x o x'; simpl.
  - intros [= <- <-]. repeat split; try done. intros paths _ k Hk. lia.
  - unfold bind at 1.
    destruct (generateSingleSceneImage env scene prev original sid (i + 1) options x)
      as [[p | t] x1] eqn:Hscene;
      apply generateSingleSceneImage_files in Hscene as [Hdocs Hfiles].
    + destruct Hfiles as (-> & bytes & Hfiles). intros Hrest.
      apply IH in Hrest as (Hd & Hgrow & Hother & Hsaved).
      split; [by rewrite Hd |]. split; [| split].
      * intros q Hq. apply Hgrow. rewrite Hfiles.
        destruct (decide (sceneImagePath env sid (i + 1) = q)) as [<- | Hne];
          [by rewrite lookup_insert_eq | by rewrite lookup_insert_ne].
      * intros q Hq. rewrite (Hother q Hq), Hfiles. by rewrite lookup_insert_ne.
      * intros paths Hok [| k] Hk.
        -- rewrite Nat.add_0_r. apply Hgrow. by rewrite Hfiles, lookup_insert_eq.
        -- replace (i + Datatypes.S k + 1)%nat with (i + 1 + k + 1)%nat by lia.
           apply (Hsaved paths Hok). lia.
    + intros [= <- <-]. rewrite Hfiles. done.
Qed.

End SavedFiles.

(** X14. What the image stage leaves on disk. [generateSceneImages]
    writes scene-image files only: every other file, the uploaded
    character image among them, and every JSON document stay as they
    were, and no file is removed. A scene whose generation or download
    fails writes nothing; when the run returns, every path it returns
    names a file that exists. *)
Theorem generated_images_are_saved (env : Env) (scenePrompts : list ScenePrompts)
    (original sid : string) (options : ImageGenerationOptions) (x : Ext) :
  let run := generateSceneImages env scenePrompts original sid options x in
  docs (snd run) = docs x
  /\ (forall q, is_Some (files x !! q) -> is_Some (files (snd run) !! q))
  /\ (forall q, (forall k : nat, q <> sceneImagePath env sid k) ->
                files (snd run) !! q = files x !! q)
  /\ (forall paths, fst run = Ok paths ->
        length paths = length scenePrompts
        /\ Forall (fun p => is_Some (files (snd run) !! p)) paths).
Proof.
  intros run. destruct run as [o x'] eqn:Hrun. subst run. simpl.
  unfold generateSceneImages in Hrun.
  pose proof (generateSceneImages_from_files env _ _ _ _ _ _ _ _ _ _ Hrun)
    as (Hdocs & Hgrow & Hother & Hsaved).
  split; [done |]. split; [done |]. split; [done |].
  intros paths ->.
  destruct (generateSceneImages_from_chain env _ _ _ _ _ _ _ _ _ _ Hrun) as [-> _].
  simpl. split; [by rewrite length_fmap, length_seq |].
  apply Forall_fmap, Forall_forall. intros k [_ Hk]%elem_of_seq. simpl.
  replace (Datatypes.S k) with (0 + k + 1)%nat by lia.
  apply (Hsaved _ eq_refl). lia.
Qed.

Section SavedVideos.
Context (env : Env).

(** The body of the loop of [generateSceneVideos] for scene [i + 1]. *)
Lemma sceneVideo_files (sceneImagePaths : list string) (sid : string) (duration : Z)
    (videoPrompt : option string) (i : nat) x o x' :
  try_catch
    (let* imageBuffer :=
       match sceneImagePaths !! i with
       | Some imagePath => readFile env imagePath
       | None =>
           throw (TRaw (newError
             "The path argument must be of type string. Received undefined"))
       end in
     let* videoUrl := KlingService.generateVideo env imageBuffer videoPrompt duration in
     let videoPath := sceneVideoPath env sid (i + 1) in
     let* _ := downloadVideo env videoUrl videoPath in
     ret videoPath)
    (fun error =>
       throw (TRaw (newError ("Scene " +:+ pretty (i + 1)%nat
                              +:+ " video generation failed: " +:+ messageOf error))))
    x = (o, x') ->
  docs x' = docs x
  /\ match o with
     | Ok p =>
         p = sceneVideoPath env sid (i + 1)
         /\ is_Some (sceneImagePaths !! i)
         /\ exists bytes, files x' = <[sceneVideoPath env sid (i + 1) := bytes]> (files x)
     | Throw t =>
         files x' = files x
         /\ exists msg,
              t = TRaw (newError ("Scene " +:+ pretty (i + 1)%nat
                                  +:+ " video generation failed: " +:+ msg))
     end.
Proof.
  set (Q := fun y : Ext => docs y = docs x /\ files y = files x).
  assert (forall ev y, Q y -> Q (logEvent ev y)) as Hlog by done.
  assert (Q x) as HQ by done.
  unfold try_catch, throw. unfold bind at 1.
  destruct (sceneImagePaths !! i) as [imagePath |] eqn:Himage.
  2: { intros [= <- <-]. simpl. split; [done |]. split; [done |]. eauto. }
  destruct (readFile env imagePath x) as [[buffer | t] x1] eqn:Hread.
  2: { intros [= <- <-]. eapply (quiet_readFile env Q Hlog) in Hread as [? ?]; [| done].
       split; [done |]. split; [done |]. eauto. }
  eapply (quiet_readFile env Q Hlog) in Hread as HQ1; [| done].
  unfold bind at 1.
  destruct (KlingService.generateVideo env buffer videoPrompt duration x1)
    as [[url | t] x2] eqn:Hkling.
  2: { intros [= <- <-].
       eapply (quiet_kling_generateVideo env Q Hlog) in Hkling as [? ?]; [| done].
       split; [done |]. split; [done |]. eauto. }
  eapply (quiet_kling_generateVideo env Q Hlog) in Hkling as HQ2; [| done].
  unfold bind at 1. unfold downloadVideo. unfold bind at 1.
  destruct (call (EvFetch url) (fun y => fetch env y url) x2) as [[response | t] x3] eqn:Hfetch.
  2: { intros [= <- <-]. eapply (quiet_call Q Hlog) in Hfetch as [? ?]; [| done].
       split; [done |]. split; [done |]. eauto. }
  eapply (quiet_call Q Hlog) in Hfetch as [Hd3 Hf3]; [| done].
  destruct (negb (ok response)).
  { intros [= <- <-]. split; [done |]. split; [done |]. eauto. }
  unfold writeFile, fsCall, ret.
  destruct (fs_fault env x3 _); intros [= <- <-]; simpl.
  - split; [done |]. split; [done |]. eauto.
  - split; [done |]. split; [done |]. split; [done |]. exists (body response). by rewrite Hf3.
Qed.

Lemma generateSceneVideos_from_files sceneImagePaths sid duration remaining :
  forall (i : nat) acc x o x',
  generateSceneVideos_from env remaining i acc sceneImagePaths sid duration x = (o, x') ->
  docs x' = docs x
  /\ (forall q, is_Some (files x !! q) -> is_Some (files x' !! q))
  /\ (forall q, (forall k : nat, q <> sceneVideoPath env sid k) ->
                files x' !! q = files x !! q)
  /\ match o with
     | Ok paths =>
         paths = (acc ++ ((fun k => sceneVideoPath env sid (k + 1))
                            <$> seq i (length remaining)))%list
         /\ ((0 < length remaining)%nat ->
             (i + length remaining <= length sceneImagePaths)%nat)
         /\ forall k : nat, (k < length remaining)%nat ->
                      is_Some (files x' !! sceneVideoPath env sid (i + k + 1))
     | Throw t =>
         exists (k : nat) msg,
           (i < k <= i + length remaining)%nat
           /\ t = TRaw (newError ("Scene " +:+ pretty k
                                  +:+ " video generation failed: " +:+ msg))
     end.
Proof.
  induction remaining as [| videoPrompt rest IH]; intros i acc x o x'; simpl.
  - intros [= <- <-]. repeat split; try done; [by rewrite app_nil_r | lia | lia].
  - unfold bind at 1.
    match goal with
    | |- context [try_catch ?m ?h x] => destruct (try_catch m h x) as [[p | t] x1] eqn:Hscene
    end; apply sceneVideo_files in Hscene as [Hdocs Hfiles].
    + destruct Hfiles as (-> & Himage & bytes & Hfiles). intros Hrest.
      apply IH in Hrest as (Hd & Hgrow & Hother & Hout).
      split; [by rewrite Hd |]. split; [| split].
      * intros q Hq. apply Hgrow. rewrite Hfiles.
        destruct (decide (sceneVideoPath env sid (i + 1) = q)) as [<- | Hne];
          [by rewrite lookup_insert_eq | by rewrite lookup_insert_ne].
      * intros q Hq. rewrite (Hother q Hq), Hfiles. by rewrite lookup_insert_ne.
      * destruct o as [paths | t].
        -- destruct Hout as (-> & Hlen & Hsaved).
           split; [| split].
           ++ rewrite <- app_assoc. simpl.
              by replace (Datatypes.S i) with (i + 1)%nat by lia.
           ++ intros _. apply lookup_lt_is_Some in Himage.
              destruct rest; simpl in *; lia.
           ++ intros [| k] Hk.
              ** rewrite Nat.add_0_r. apply Hgrow. by rewrite Hfiles, lookup_insert_eq.
              ** replace (i + Datatypes.S k + 1)%nat with (i + 1 + k + 1)%nat by lia.
                 apply Hsaved. lia.
        -- destruct Hout as (k & msg & Hk & ->). exists k, msg. split; [lia | done].
    + intros [= <- <-]. destruct Hfiles as (Hfiles & msg & ->).
      rewrite Hfiles. repeat split; try done.
      exists (i + 1)%nat, msg. split; [lia | done].
Qed.

End SavedVideos.

(** X15. What the video stage leaves on disk. [generateSceneVideos]
    writes scene-video files only; every other file and every JSON
    document stay as they were and no file is removed. When it returns,
    it returns the paths of scenes 1..N in order, each naming a file
    that exists, and there was an image path for every scene. *)
Theorem generated_videos_are_saved (env : Env) (scenePrompts : list (option string))
    (sceneImagePaths : list string) (sid : string) (duration : Z) (x : Ext) :
  let run := generateSceneVideos env scenePrompts sceneImagePaths sid duration x in
  docs (snd run) = docs x
  /\ (forall q, is_Some (files x !! q) -> is_Some (files (snd run) !! q))
  /\ (forall q, (forall k : nat, q <> sceneVideoPath env sid k) ->
                files (snd run) !! q = files x !! q)
  /\ (forall paths, fst run = Ok paths ->
        paths = (fun k => sceneVideoPath env sid (k + 1)) <$> seq 0 (length scenePrompts)
        /\ (length scenePrompts <= length sceneImagePaths)%nat
        /\ Forall (fun p => is_Some (files (snd run) !! p)) paths).
Proof.
  intros run. destruct run as [o x'] eqn:Hrun. subst run. simpl.
  unfold generateSceneVideos in Hrun. unfold bind in Hrun.
  set (Q := fun y : Ext => docs y = docs x /\ files y = files x).
  assert (forall ev y, Q y -> Q (logEvent ev y)) as Hlog by done.
  destruct (ensureDir env (videosDir env sid) x) as [[[] | t] x1] eqn:Hdir;
    eapply (quiet_ensureDir env Q Hlog) in Hdir as [Hd1 Hf1]; try done.
  2: { injection Hrun as <- <-. rewrite Hd1, Hf1. by repeat split. }
  apply generateSceneVideos_from_files in Hrun as (Hdocs & Hgrow & Hother & Hout).
  rewrite Hd1 in Hdocs. rewrite Hf1 in Hgrow, Hother.
  split; [done |]. split; [done |]. split; [done |].
  intros paths ->. destruct Hout as (-> & Hlen & Hsaved). simpl in *.
  split; [done |]. split; [destruct scenePrompts; simpl in *; lia |].
  apply Forall_fmap, Forall_forall. intros k [_ Hk]%elem_of_seq. simpl.
  apply Hsaved. lia.
Qed.

(** X16. Every error of a scene's video comes out of
    [generateSceneVideos] as a new plain [Error], 'Scene k video
    generation failed: ...': the code, the path and the HTTP status of
    the original error are gone, so the stage executor can classify it
    by its message only. The one error thrown as it is comes from
    creating the videos directory. *)
Theorem video_errors_are_wrapped (env : Env) (scenePrompts : list (option string))
    (sceneImagePaths : list string) (sid : string) (duration : Z) (x x' : Ext)
    (t : Thrown) :
  generateSceneVideos env scenePrompts sceneImagePaths sid duration x = (Throw t, x') ->
  (exists e, t = TRaw e /\ fs_fault env x (OpEnsureDir (videosDir env sid)) = Some e)
  \/ (exists (k : nat) msg e,
        (1 <= k <= length scenePrompts)%nat
        /\ e = newError ("Scene " +:+ pretty k +:+ " video generation failed: " +:+ msg)
        /\ t = TRaw e
        /\ code e = None /\ raw_path e = None /\ response_status e = None
        /\ forall options, isRetryable (mergeOptions options) t
                           = match p_retryableErrors options with
                             | Some p => p t
                             | None => false
                             end).
Proof.
  unfold generateSceneVideos, bind. unfold ensureDir, fsCall.
  destruct (fs_fault env x _) as [e |] eqn:Hfault.
  { intros [= <- <-]. left. eauto. }
  simpl. intros Hrun.
  apply generateSceneVideos_from_files in Hrun as (_ & _ & _ & k & msg & Hk & ->).
  right. exists k, msg, (newError ("Scene " +:+ pretty k +:+ " video generation failed: "
                                   +:+ msg)).
  split; [lia |]. repeat split; try done.
  intros options. unfold isRetryable, mergeOptions. simpl.
  by destruct (p_retryableErrors options).
Qed.

Lemma video_errors_are_wrapped_witness :
  fst (generateSceneVideos noVideoEnv [Some "slow zoom"; Some "pan left"]
         ["/app/images/session-1/scene-1.png"; "/app/images/session-1/scene-2.png"]
         "session-1" 5 imagesExt)
  = Throw (TRaw (newError
      "Scene 1 video generation failed: No video URL returned from Fal.ai Kling API")).
Proof.
  destruct (generateSceneVideos noVideoEnv [Some "slow zoom"; Some "pan left"]
              ["/app/images/session-1/scene-1.png"; "/app/images/session-1/scene-2.png"]
              "session-1" 5 imagesExt) as [o x'] eqn:Hrun.
  assert (o = Throw (TRaw (newError
            "Scene 1 video generation failed: No video URL returned from Fal.ai Kling API")))
    as Ho.
  { change o with (fst (o, x')). rewrite <- Hrun. by vm_compute. }
  rewrite Ho in Hrun.
  destruct (video_errors_are_wrapped _ _ _ _ _ _ _ _ Hrun)
    as [(e & _ & Hfault) | (k & msg & e & _ & _ & _ & Hcode & _)].
  - discriminate Hfault.
  - exact Ho.
Defined.

Lemma klingCalls_app (new2 new1 : list Event) :
  klingCalls (new2 ++ new1) = (klingCalls new1 ++ klingCalls new2)%list.
Proof. unfold klingCalls. by rewrite List.filter_app, rev_app_distr. Qed.

Lemma klingCalls_none (new : list Event) :
  Forall (fun ev => match ev with EvKling _ => False | _ => True end) new ->
  klingCalls new = [].
Proof.
  unfold klingCalls. induction 1 as [| ev new Hev _ IH]; simpl; [done |].
  destruct ev; simpl; done.
Qed.

Section VideoInputs.
Context (env : Env) (scenePrompts : list (option string)) (sceneImagePaths : list string)
  (duration : Z).

Lemma kling_generateVideo_emits (k : nat) buffer prompt :
  sceneImagePaths !! k = Some (buf_path buffer) ->
  scenePrompts !! k = Some prompt ->
  emits (KlingService.generateVideo env buffer prompt duration)
    (fun o new =>
       Forall (sceneCall scenePrompts sceneImagePaths duration k) (klingCalls new)
       /\ (forall url, o = Ok url -> klingCalls new <> [])).
Proof.
  intros Himage Hprompt. unfold KlingService.generateVideo, withRetry.
  apply (emits_withRetry_loop _ _ (fun o new => klingCalls new <> [])).
  - by constructor.
  - intros new1 new2 H1 H2. rewrite klingCalls_app. by apply Forall_app.
  - eapply emits_bind.
    + apply (emits_call _ _ (fun o new => new = [EvKling (mkKlingInput buffer prompt
                                                            (if duration =? 5 then "5" else "10"))])).
      done.
    + intros t new ->. split; [| done]. by apply Forall_singleton.
    + intros url new ->.
      destruct (truthy_opt url); [apply emits_ret | apply emits_throw]; simpl.
      * split; [by apply Forall_singleton | done].
      * split; [by apply Forall_singleton | done].
  - intros a new1 new2 Hsome _. rewrite klingCalls_app.
    intros [_ Hnil]%app_eq_nil. done.
Qed.

Lemma sceneVideo_emits (sid : string) (videoPrompt : option string) (i : nat) :
  scenePrompts !! i = Some videoPrompt ->
  emits
    (try_catch
       (let* imageBuffer :=
          match sceneImagePaths !! i with
          | Some imagePath => readFile env imagePath
          | None =>
              throw (TRaw (newError
                "The path argument must be of type string. Received undefined"))
          end in
        let* videoUrl := KlingService.generateVideo env imageBuffer videoPrompt duration in
        let videoPath := sceneVideoPath env sid (i + 1) in
        let* _ := downloadVideo env videoUrl videoPath in
        ret videoPath)
       (fun error =>
          throw (TRaw (newError ("Scene " +:+ pretty (i + 1)%nat
                                 +:+ " video generation failed: " +:+ messageOf error)))))
    (fun o new =>
       Forall (sceneCall scenePrompts sceneImagePaths duration i) (klingCalls new)
       /\ (forall p, o = Ok p -> klingCalls new <> [])).
Proof.
  intros Hprompt.
  eapply emits_try_catch with
    (R1 := fun o new =>
             Forall (sceneCall scenePrompts sceneImagePaths duration i) (klingCalls new)
             /\ (forall p, o = Ok p -> klingCalls new <> [])).
  2: { by intros a new. }
  2: { intros t new1 [Hcalls _]. apply emits_throw. by split. }
  destruct (sceneImagePaths !! i) as [imagePath |] eqn:Himage.
  2: { intros y o y'. unfold bind, throw. intros [= <- <-]. exists [].
       split; [done |]. split; [by constructor | done]. }
  eapply emits_bind.
  { apply (emits_readFile env imagePath
             (fun o new => new = [EvFs (OpReadFile imagePath)]
                           /\ forall b, o = Ok b -> buf_path b = imagePath)).
    - intros t. by split.
    - intros bytes. split; [done |]. by intros b [= <-]. }
  { intros t new [-> _]. split; [by constructor | done]. }
  intros buffer new1 [-> Hbuffer]. specialize (Hbuffer _ eq_refl).
  eapply emits_bind.
  { apply (kling_generateVideo_emits i); [| done]. by rewrite Hbuffer. }
  { intros t new [Hcalls _]. split; [| done].
    rewrite klingCalls_app. simpl. done. }
  intros url new2 [Hcalls Hsome]. specialize (Hsome _ eq_refl).
  assert (forall o (new : list Event),
             Forall (fun ev => match ev with EvKling _ => False | _ => True end) new ->
             Forall (sceneCall scenePrompts sceneImagePaths duration i)
               (klingCalls (new ++ new2 ++ [EvFs (OpReadFile imagePath)]))
             /\ (forall p : string, o = Ok p ->
                   klingCalls (new ++ new2 ++ [EvFs (OpReadFile imagePath)]) <> []))
    as Hdone.
  { intros o new Hnew. rewrite !klingCalls_app, (klingCalls_none new Hnew), app_nil_r.
    simpl. done. }
  unfold downloadVideo.
  eapply emits_bind.
  { eapply emits_bind.
    - apply (emits_call _ _ (fun o new => new = [EvFetch url])). done.
    - intros t new ->. instantiate (1 := fun o new =>
        Forall (fun ev => match ev with EvKling _ => False | _ => True end) new).
      by repeat constructor.
    - intros response new ->. destruct (negb (ok response)).
      + apply emits_throw. by repeat constructor.
      + apply emits_writeFile. intros o. by repeat constructor. }
  { intros t new Hnew. rewrite <- app_assoc. by apply Hdone. }
  intros [] new Hnew. apply emits_ret. simpl. rewrite <- app_assoc. by apply Hdone.
Qed.

Lemma generateSceneVideos_from_emits sid remaining :
  forall (i : nat) acc,
  (forall (j : nat) v, remaining !! j = Some v -> scenePrompts !! (i + j)%nat = Some v) ->
  emits (generateSceneVideos_from env remaining i acc sceneImagePaths sid duration)
    (fun o new =>
       exists groups,
         klingCalls new = concat groups
         /\ (length groups <= length remaining)%nat
         /\ (forall (j : nat) group,
               groups !! j = Some group ->
               Forall (sceneCall scenePrompts sceneImagePaths duration (i + j)) group)
         /\ (forall paths, o = Ok paths ->
               length groups = length remaining
               /\ Forall (fun group => group <> []) groups)).
Proof.
  induction remaining as [| videoPrompt rest IH]; intros i acc Hprompts; simpl.
  - apply emits_ret. exists []. split; [done |]. split; [done |].
    split; [intros j group Hnil; by rewrite lookup_nil in Hnil | done].
  - eapply emits_bind.
    + apply (sceneVideo_emits sid videoPrompt i).
      rewrite <- (Nat.add_0_r i). by apply Hprompts.
    + intros t new [Hcalls _]. exists [klingCalls new]. simpl.
      split; [by rewrite app_nil_r |]. split; [lia |]. split; [| done].
      intros [| j] group; simpl; [| intros Hnil; by rewrite lookup_nil in Hnil].
      intros [= <-]. by rewrite Nat.add_0_r.
    + intros p new1 [Hcalls1 Hsome1]. specialize (Hsome1 _ eq_refl).
      eapply emits_weaken.
      * apply IH. intros j v Hj.
        replace (i + 1 + j)%nat with (i + Datatypes.S j)%nat by lia. by apply Hprompts.
      * intros o new2 (groups & Hconcat & Hlen & Hgroups & Hok).
        exists (klingCalls new1 :: groups). simpl.
        split; [by rewrite klingCalls_app, Hconcat |]. split; [lia |]. split.
        -- intros [| j] group; simpl.
           ++ intros [= <-]. by rewrite Nat.add_0_r.
           ++ intros Hgroup. replace (i + Datatypes.S j)%nat with (i + 1 + j)%nat by lia.
              by apply Hgroups.
        -- intros paths ->. destruct (Hok _ eq_refl) as [Hall Hnonempty].
           split; [by rewrite Hall | by apply Forall_cons].
Qed.

End VideoInputs.

(** X17. Each video is made from its own scene. The Kling calls of
    [generateSceneVideos], in the order they were made, fall into
    consecutive groups, one per scene from the first scene on: every
    call of group [k] carries the image read from the image path of
    scene [k] together with the video prompt of scene [k], and the
    scene duration as "5" or "10". A run that returns made at least one
    call for every scene; a run that throws has groups for the first
    scenes only. *)
Theorem video_inputs_pair_image_and_prompt (env : Env) (scenePrompts : list (option string))
    (sceneImagePaths : list string) (sid : string) (duration : Z) (x : Ext) :
  let run := generateSceneVideos env scenePrompts sceneImagePaths sid duration x in
  exists new groups,
    events (snd run) = (new ++ events x)%list
    /\ klingCalls new = concat groups
    /\ (length groups <= length scenePrompts)%nat
    /\ (forall (k : nat) group,
          groups !! k = Some group ->
          Forall (sceneCall scenePrompts sceneImagePaths duration k) group)
    /\ (forall paths, fst run = Ok paths ->
          length groups = length scenePrompts
          /\ Forall (fun group => group <> []) groups).
Proof.
  intros run. destruct run as [o x'] eqn:Hrun. subst run. simpl.
  revert Hrun. unfold generateSceneVideos.
  enough (emits (let* _ := ensureDir env (videosDir env sid) in
                 generateSceneVideos_from env scenePrompts 0 [] sceneImagePaths sid duration)
            (fun o new =>
               exists groups,
                 klingCalls new = concat groups
                 /\ (length groups <= length scenePrompts)%nat
                 /\ (forall (k : nat) group,
                       groups !! k = Some group ->
                       Forall (sceneCall scenePrompts sceneImagePaths duration k) group)
                 /\ (forall paths, o = Ok paths ->
                       length groups = length scenePrompts
                       /\ Forall (fun group => group <> []) groups)))
    as Hemits.
  { intros Hrun. destruct (Hemits _ _ _ Hrun) as (new & Hnew & groups & Hgroups). eauto. }
  eapply emits_bind.
  - apply (emits_ensureDir env _
             (fun o new => new = [EvFs (OpEnsureDir (videosDir env sid))])). done.
  - intros t new ->. exists []. split; [done |]. split; [simpl; lia |].
    split; [intros k group Hnil; by rewrite lookup_nil in Hnil | done].
  - intros _ new1 ->. eapply emits_weaken.
    + by apply (generateSceneVideos_from_emits env scenePrompts sceneImagePaths duration sid
                  scenePrompts 0%nat []).
    + intros o2 new2 (groups & Hconcat & Hrest). exists groups.
      split; [| done]. rewrite klingCalls_app. simpl. done.
Qed.



(** ** The stages of a run and the session store *)

Section Ends.
Context (env : Env).
Implicit Types (J P : gmap string GenerationSession -> Prop).

Lemma ends_weaken {A} J P P' (m : M World A) :
  ends J P m -> (forall sessions, J sessions -> P sessions -> P' sessions) -> ends J P' m.
Proof.
  intros Hm HP w o w' HJ Hrun. destruct (Hm _ _ _ HJ Hrun) as [HJ' HP'].
  split; [done |]. intros a Ho. eauto.
Qed.

Lemma ends_ret {A} J (a : A) : ends J J (ret a).
Proof. intros w o w' HJ [= <- <-]. by split. Qed.

Lemma ends_throw {A} J P (t : Thrown) : ends J P (@throw World A t).
Proof. intros w o w' HJ [= <- <-]. by split. Qed.

Lemma ends_bind {A B} J P1 P (m : M World A) (k : A -> M World B) :
  ends J P1 m -> (forall a, ends J P (k a)) -> ends J P (bind m k).
Proof.
  intros Hm Hk w o w' HJ. unfold bind.
  destruct (m w) as [[a | t] w1] eqn:Hrun; destruct (Hm _ _ _ HJ Hrun) as [HJ1 _].
  - by apply Hk.
  - intros [= <- <-]. by split.
Qed.

Lemma ends_try_catch {A} J P (m : M World A) (h : Thrown -> M World A) :
  ends J P m -> (forall t, ends J P (h t)) -> ends J P (try_catch m h).
Proof.
  intros Hm Hh w o w' HJ. unfold try_catch.
  destruct (m w) as [[a | t] w1] eqn:Hrun; destruct (Hm _ _ _ HJ Hrun) as [HJ1 HP1].
  - intros [= <- <-]. split; [done |]. intros a' [= <-]. eauto.
  - by apply Hh.
Qed.

Lemma ends_liftExt {A} J (m : M Ext A) : ends J J (liftExt m).
Proof.
  intros w o w' HJ Hrun. apply liftExt_inv in Hrun as (x' & _ & ->). by split.
Qed.

Lemma ends_saveSessionArtifacts J sid artifacts :
  ends J J (saveSessionArtifacts env sid artifacts).
Proof.
  intros w o w' HJ Hrun. apply saveSessionArtifacts_inv in Hrun as (_ & _ & -> & _).
  by split.
Qed.

Lemma ends_sm_updateStageStatus J P sid stage newStatus message pct err :
  (forall timestamp sessions,
      J sessions ->
      J (updateStageStatus sid stage newStatus message pct err timestamp sessions)
      /\ P (updateStageStatus sid stage newStatus message pct err timestamp sessions)) ->
  ends J P (sm_updateStageStatus env sid stage newStatus message pct err).
Proof.
  intros Hwrite w o w' HJ Hrun.
  apply sm_updateStageStatus_inv in Hrun as (_ & _ & _ & _ & t & ->).
  destruct (Hwrite t _ HJ). by split.
Qed.

Lemma ends_sm_updateSessionFinalVideo J sid videoPath :
  (forall timestamp sessions,
      J sessions -> J (updateSessionFinalVideo sid videoPath timestamp sessions)) ->
  ends J J (sm_updateSessionFinalVideo env sid videoPath).
Proof.
  intros Hwrite w o w' HJ Hrun.
  apply sm_updateSessionFinalVideo_inv in Hrun as (_ & _ & _ & _ & t & ->).
  split; [by apply Hwrite |]. intros _ _. by apply Hwrite.
Qed.

Lemma ends_executeWithRetry {A} J P (operation : M World A) (stage sid : string)
    (maxRetries : Z) :
  ends J P operation -> ends J P (executeWithRetry operation stage sid maxRetries).
Proof.
  intros Hop. unfold executeWithRetry.
  generalize (Z.to_nat maxRetries) 1 TNullish.
  induction n as [| n IH]; intros attempt last; simpl.
  - apply ends_throw.
  - apply ends_try_catch; [done |]. intros t.
    eapply ends_bind with (P1 := J).
    + destruct t; simpl; [apply ends_ret .. | apply ends_throw].
    + intros a. destruct (negb _); [apply ends_throw | apply IH].
Qed.

End Ends.

(** The writes of one stage of one session. *)
Section StageRuns.
Context (env : Env) (session : GenerationSession) (stage : ProcessingStage).
Context (J P : gmap string GenerationSession -> Prop).
Hypothesis Hstage :
  forall newStatus message pct err timestamp sessions,
    J sessions ->
    J (updateStageStatus (sessionId session) stage newStatus message pct err timestamp
         sessions).
Hypothesis Hfinal :
  forall videoPath timestamp sessions,
    J sessions -> J (updateSessionFinalVideo (sessionId session) videoPath timestamp sessions).
Hypothesis Hcompleted :
  forall message timestamp sessions,
    J sessions ->
    P (updateStageStatus (sessionId session) stage st_completed message None None timestamp
         sessions).

Lemma ends_completed message :
  ends J P (sm_updateStageStatus env (sessionId session) stage st_completed message None None).
Proof. apply ends_sm_updateStageStatus. intros t sessions HJ. split; auto. Qed.

Lemma ends_stageBody startMessage failMessage work :
  ends J P work ->
  ends J P (stageBody env (sessionId session) stage startMessage failMessage work).
Proof.
  intros Hwork. unfold stageBody.
  eapply ends_bind with (P1 := J).
  { apply ends_sm_updateStageStatus. intros t sessions HJ. split; auto. }
  intros _. apply ends_try_catch; [done |]. intros t.
  eapply ends_bind with (P1 := J); [| intros _; apply ends_throw].
  apply ends_sm_updateStageStatus. intros t' sessions HJ. split; auto.
Qed.

End StageRuns.

Section StageMethods.
Context (env : Env) (session : GenerationSession).

(** Each stage method is a stage body whose work ends with the
    'completed' write of its stage. *)
Lemma stageMethod_shape stage method :
  (stage, method) ∈ stageMethods env session ->
  exists startMessage failMessage work,
    method = stageBody env (sessionId session) stage startMessage failMessage work
    /\ forall J P : gmap string GenerationSession -> Prop,
         (forall videoPath timestamp sessions,
             J sessions ->
             J (updateSessionFinalVideo (sessionId session) videoPath timestamp sessions)) ->
         (forall message timestamp sessions,
             J sessions ->
             J (updateStageStatus (sessionId session) stage st_completed message None None
                  timestamp sessions)
             /\ P (updateStageStatus (sessionId session) stage st_completed message None None
                     timestamp sessions)) ->
         ends J P work.
Proof.
  intros Hin. unfold stageMethods in Hin.
  repeat (apply elem_of_cons in Hin as [[= -> ->] | Hin]); [.. | by apply elem_of_nil in Hin].
  all: do 3 eexists; split; [reflexivity |]; intros J P Hfinal Hcompleted.
  all: assert (forall message,
                  ends J P (sm_updateStageStatus env (sessionId session) _ st_completed
                              message None None)) as Hlast
         by (intros message; apply ends_sm_updateStageStatus; intros; apply Hcompleted;
             assumption).
  - eapply ends_bind; [apply ends_liftExt | intros generated].
    eapply ends_bind; [apply ends_saveSessionArtifacts | intros _]. apply Hlast.
  - eapply ends_bind; [apply ends_liftExt | intros artifacts].
    destruct (a_prompts artifacts); [| apply ends_throw].
    eapply ends_bind; [apply ends_liftExt | intros imagePaths].
    eapply ends_bind; [apply ends_saveSessionArtifacts | intros _]. apply Hlast.
  - eapply ends_bind; [apply ends_liftExt | intros artifacts].
    destruct (a_prompts artifacts); [| apply ends_throw].
    destruct (a_imagePaths artifacts); [| apply ends_throw].
    eapply ends_bind; [apply ends_liftExt | intros videoPaths].
    eapply ends_bind; [apply ends_saveSessionArtifacts | intros _]. apply Hlast.
  - eapply ends_bind; [apply ends_liftExt | intros artifacts].
    destruct (a_prompts artifacts); [| apply ends_throw].
    eapply ends_bind with (P1 := J).
    { destruct (_ && _); [| apply ends_ret].
      eapply ends_bind; [apply ends_liftExt | intros ?; apply ends_ret]. }
    intros audioPaths.
    eapply ends_bind; [apply ends_saveSessionArtifacts | intros _]. apply Hlast.
  - eapply ends_bind; [apply ends_liftExt | intros artifacts].
    destruct (a_videoPaths artifacts) as [[| v vs] |]; try apply ends_throw.
    eapply ends_bind; [apply ends_liftExt | intros ?].
    eapply ends_bind with (P1 := J).
    { destruct (hasAudioPaths _); [| apply ends_liftExt].
      destruct (_ ≫= _) as [music |]; [| apply ends_ret].
      destruct (truthy music); [| apply ends_ret].
      eapply ends_bind; [apply ends_liftExt | intros ?; apply ends_ret]. }
    intros _.
    eapply ends_bind with (P1 := J);
      [apply ends_sm_updateSessionFinalVideo; intros; by apply Hfinal | intros _].
    eapply ends_bind; [apply ends_saveSessionArtifacts | intros _]. apply Hlast.
Qed.

End StageMethods.

Lemma updateSessionFinalVideo_status sessions sid videoPath timestamp sid' :
  status <$> (updateSessionFinalVideo sid videoPath timestamp sessions !! sid')
  = status <$> (sessions !! sid').
Proof.
  unfold updateSessionFinalVideo.
  destruct (sessions !! sid) as [s |] eqn:Hs; [| done].
  destruct (decide (sid = sid')) as [<- | Hne].
  - by rewrite lookup_insert_eq, Hs.
  - by rewrite lookup_insert_ne.
Qed.

Lemma updateStageStatus_status sessions sid stage newStatus message pct err timestamp sid' :
  status <$> (updateStageStatus sid stage newStatus message pct err timestamp sessions !! sid')
  = status <$> (sessions !! sid').
Proof.
  pose proof (updateStageStatus_lookup sessions sid stage newStatus message pct err timestamp
                sid') as Hlookup.
  destruct (sessions !! sid') as [s |].
  - destruct Hlookup as (s' & -> & Hstatus & _). simpl. by rewrite Hstatus.
  - by rewrite Hlookup.
Qed.

(** X19. The status of a stage tells how its last run ended. Whichever
    of the five stage methods runs, for a session that has the stage:
    when it returns, the stage is 'completed'; when it throws, the stage
    is in 'error', with the message of the error thrown and an end time.
    The run changes no other stage of the session, nor the status of the
    session. *)
Theorem stage_status_reflects_outcome (env : Env) (session : GenerationSession)
    (stage : ProcessingStage) (method : M World unit) (w : World) :
  (stage, method) ∈ stageMethods env session ->
  is_Some (stageOf (store w) (sessionId session) stage) ->
  let sid := sessionId session in
  let run := method w in
  match fst run with
  | Ok _ => ss_status <$> stageOf (store (snd run)) sid stage = Some st_completed
  | Throw t =>
      exists st,
        stageOf (store (snd run)) sid stage = Some st
        /\ ss_status st = st_error
        /\ ss_error st = Some (messageOf t)
        /\ is_Some (endTime st)
  end
  /\ (forall stage', stage' <> stage ->
        stageOf (store (snd run)) sid stage' = stageOf (store w) sid stage')
  /\ status <$> (store (snd run) !! sid) = status <$> (store w !! sid).
Proof.
  intros Hin Hhas sid run.
  set (J := fun sessions : gmap string GenerationSession =>
              is_Some (stageOf sessions sid stage)
              /\ (forall stage', stage' <> stage ->
                    stageOf sessions sid stage' = stageOf (store w) sid stage')
              /\ status <$> (sessions !! sid) = status <$> (store w !! sid)).
  set (P := fun sessions : gmap string GenerationSession =>
              ss_status <$> stageOf sessions sid stage = Some st_completed).
  assert (forall newStatus message pct err timestamp sessions,
             J sessions ->
             J (updateStageStatus sid stage newStatus message pct err timestamp sessions))
    as Hstage.
  { intros newStatus message pct err timestamp sessions (Hs & Hframe & Hstatus).
    split; [| split].
    - rewrite stageOf_updateStageStatus, bool_decide_eq_true_2 by done.
      by apply fmap_is_Some.
    - intros stage' Hne.
      rewrite stageOf_updateStageStatus, bool_decide_eq_false_2 by done. by apply Hframe.
    - by rewrite updateStageStatus_status. }
  assert (forall videoPath timestamp sessions,
             J sessions -> J (updateSessionFinalVideo sid videoPath timestamp sessions))
    as Hfinal.
  { intros videoPath timestamp sessions (Hs & Hframe & Hstatus).
    split; [| split].
    - by rewrite stageOf_updateSessionFinalVideo.
    - intros stage' Hne. rewrite stageOf_updateSessionFinalVideo. by apply Hframe.
    - by rewrite updateSessionFinalVideo_status. }
  assert (J (store w)) as HJ by done.
  destruct (stageMethod_shape env session stage method Hin)
    as (startMessage & failMessage & work & -> & Hwork).
  specialize (Hwork J P Hfinal).
  assert (ends J P work) as Hends.
  { apply Hwork. intros message timestamp sessions HJs. split; [by apply Hstage |].
    unfold P. rewrite stageOf_updateStageStatus, bool_decide_eq_true_2 by done.
    destruct HJs as ([st Hst] & _). by rewrite Hst. }
  clear Hwork. destruct run as [o w'] eqn:Hrun0. subst run. simpl.
  unfold stageBody in Hrun0. fold sid in Hrun0. unfold bind at 1 in Hrun0.
  destruct (sm_updateStageStatus env sid stage st_processing (Some startMessage) None None w)
    as [o1 w1] eqn:Hstart.
  apply sm_updateStageStatus_inv in Hstart as (-> & _ & _ & _ & t1 & Hs1).
  assert (J (store w1)) as HJ1 by (rewrite Hs1; by apply Hstage).
  unfold try_catch in Hrun0.
  destruct (work w1) as [[[] | t] w2] eqn:Hrun; destruct (Hends _ _ _ HJ1 Hrun) as [HJ2 HP2].
  - injection Hrun0 as <- <-. split; [by apply (HP2 tt) |]. by destruct HJ2 as (_ & ? & ?).
  - unfold bind in Hrun0.
    destruct (sm_updateStageStatus env sid stage st_error (Some failMessage) None
                (Some (messageOf t)) w2) as [o3 w3] eqn:Hfail.
    apply sm_updateStageStatus_inv in Hfail as (-> & _ & _ & _ & t3 & Hs3).
    injection Hrun0 as <- <-.
    assert (J (store w3)) as HJ3 by (rewrite Hs3; by apply Hstage).
    split; [| by destruct HJ3 as (_ & ? & ?)].
    rewrite Hs3, stageOf_updateStageStatus, bool_decide_eq_true_2 by done.
    destruct HJ2 as ([st Hst] & _). rewrite Hst. simpl.
    eexists. split; [done |]. by repeat split.
Qed.

Lemma stage_status_reflects_outcome_witness :
  fst (generateImages exampleEnv silentSession silentWorld)
  = Throw (TRaw (newError "No scene prompts found in artifacts"))
  /\ exists st,
       stageOf (store (snd (generateImages exampleEnv silentSession silentWorld)))
         "session-1" images = Some st
       /\ ss_status st = st_error
       /\ ss_error st = Some "No scene prompts found in artifacts".
Proof.
  assert (fst (generateImages exampleEnv silentSession silentWorld)
          = Throw (TRaw (newError "No scene prompts found in artifacts"))) as Hout
    by (by vm_compute).
  split; [exact Hout |].
  destruct (stage_status_reflects_outcome exampleEnv silentSession images
              (generateImages exampleEnv silentSession) silentWorld) as (Hstatus & _).
  { unfold stageMethods. apply elem_of_cons. right. apply elem_of_cons. by left. }
  { by vm_compute; eexists. }
  simpl in Hstatus. rewrite Hout in Hstatus.
  destruct Hstatus as (st & Hst & Herror & Hmsg & _). eauto.
Defined.

(** ** A completed session *)

Lemma find_stage_NoDup (l : list StageStatus) :
  NoDup (ss_stage <$> l) ->
  (forall stage, stage ∈ (ss_stage <$> l) ->
     ss_status <$> List.find (fun s => bool_decide (ss_stage s = stage)) l
     = Some st_completed) ->
  Forall (fun st => ss_status st = st_completed) l.
Proof.
  induction l as [| st l IH]; simpl; [done |].
  intros [Hnotin Hnodup]%NoDup_cons Hall. apply Forall_cons. split.
  - specialize (Hall (ss_stage st)). rewrite bool_decide_eq_true_2 in Hall by done.
    simpl in Hall. injection Hall as Hst; [done |]. apply elem_of_cons. by left.
  - apply IH; [done |]. intros stage Hin.
    specialize (Hall stage). rewrite bool_decide_eq_false_2 in Hall.
    + apply Hall. apply elem_of_cons. by right.
    + intros Heq. apply Hnotin. by rewrite Heq.
Qed.

Lemma find_stage_is_Some (l : list StageStatus) (stage : ProcessingStage) :
  stage ∈ (ss_stage <$> l) ->
  is_Some (List.find (fun s => bool_decide (ss_stage s = stage)) l).
Proof.
  induction l as [| st l IH]; simpl; [by intros ?%elem_of_nil |].
  intros [-> | Hin]%elem_of_cons.
  - by rewrite bool_decide_eq_true_2.
  - destruct (bool_decide _); [done | by apply IH].
Qed.

Ltac stage_method :=
  unfold stageMethods;
  first [ apply list_elem_of_here
        | do 1 apply list_elem_of_further; apply list_elem_of_here
        | do 2 apply list_elem_of_further; apply list_elem_of_here
        | do 3 apply list_elem_of_further; apply list_elem_of_here
        | do 4 apply list_elem_of_further; apply list_elem_of_here ].

Section CompletedRun.
Context (env : Env) (session : GenerationSession) (names : list ProcessingStage).

Lemma names_kept sessions w :
  (exists s, sessions !! sessionId session = Some s /\ ss_stage <$> stages s = names) ->
  exists s, applySessionWrite sessions w !! sessionId session = Some s
            /\ ss_stage <$> stages s = names.
Proof.
  intros (s & Hs & Hnames).
  pose proof (applySessionWrite_identity sessions w (sessionId session)) as Hid.
  rewrite Hs in Hid.
  destruct (applySessionWrite sessions w !! sessionId session) as [s' |]; [| done].
  injection Hid as _ _ _ _ Hstages. exists s'. split; [done | congruence].
Qed.

Lemma stagesDone_updateStageStatus done stage newStatus message pct err timestamp sessions :
  stage ∉ done ->
  stagesDone (sessionId session) names done sessions ->
  stagesDone (sessionId session) names done
    (updateStageStatus (sessionId session) stage newStatus message pct err timestamp sessions).
Proof.
  intros Hnot [Hnames Hdone]. split.
  - by apply (names_kept sessions
                (WStageStatus (sessionId session)
                   (mkStageWrite stage newStatus message pct err timestamp))).
  - intros stage' Hin. rewrite stageOf_updateStageStatus, bool_decide_eq_false_2.
    + by apply Hdone.
    + by intros ->.
Qed.

Lemma stagesDone_updateSessionFinalVideo done videoPath timestamp sessions :
  stagesDone (sessionId session) names done sessions ->
  stagesDone (sessionId session) names done
    (updateSessionFinalVideo (sessionId session) videoPath timestamp sessions).
Proof.
  intros [Hnames Hdone]. split.
  - by apply (names_kept sessions (WFinalVideo (sessionId session) videoPath timestamp)).
  - intros stage' Hin. rewrite stageOf_updateSessionFinalVideo. by apply Hdone.
Qed.

Lemma stagesDone_updateSessionStatus done newStatus err details timestamp sessions :
  stagesDone (sessionId session) names done sessions ->
  stagesDone (sessionId session) names done
    (updateSessionStatus (sessionId session) newStatus err details timestamp sessions).
Proof.
  intros [Hnames Hdone]. split.
  - by apply (names_kept sessions
                (WSessionStatus (sessionId session) newStatus err details timestamp)).
  - intros stage' Hin. rewrite stageOf_updateSessionStatus. by apply Hdone.
Qed.

Lemma stagesDone_completed done stage message timestamp sessions :
  stage ∈ names -> stage ∉ done ->
  stagesDone (sessionId session) names done sessions ->
  stagesDone (sessionId session) names (stage :: done)
    (updateStageStatus (sessionId session) stage st_completed message None None timestamp
       sessions).
Proof.
  intros Hin Hnot HJ.
  destruct (stagesDone_updateStageStatus done stage st_completed message None None timestamp
              sessions Hnot HJ) as [Hnames Hdone].
  split; [done |]. intros stage' [-> | Hin']%elem_of_cons; [| by apply Hdone].
  rewrite stageOf_updateStageStatus, bool_decide_eq_true_2 by done.
  destruct HJ as [(s & Hs & Hs') _].
  unfold stageOf. rewrite Hs.
  destruct (find_stage_is_Some (stages s) stage) as [st ->]; [by rewrite Hs' | done].
Qed.

Lemma stagesDone_method done stage method (name : string) :
  (stage, method) ∈ stageMethods env session ->
  stage ∈ names -> stage ∉ done ->
  ends (stagesDone (sessionId session) names done)
       (stagesDone (sessionId session) names (stage :: done))
       (executeWithRetry method name (sessionId session) 3).
Proof.
  intros Hmethod Hin Hnot. apply ends_executeWithRetry.
  destruct (stageMethod_shape env session stage method Hmethod)
    as (startMessage & failMessage & work & -> & Hwork).
  apply ends_stageBody.
  - intros. by apply stagesDone_updateStageStatus.
  - apply Hwork.
    + intros. by apply stagesDone_updateSessionFinalVideo.
    + intros. split; [by apply stagesDone_updateStageStatus | by apply stagesDone_completed].
Qed.

Lemma ends_Ok {A} J P (m : M World A) w a w' :
  ends J P m -> J (store w) -> m w = (Ok a, w') -> P (store w').
Proof. intros Hm HJ Hrun. destruct (Hm _ _ _ HJ Hrun) as [_ HP]. by eapply HP. Qed.

(** When the pipeline returns, every stage of the session is completed. *)
Lemma executeGenerationPipeline_completes w w' :
  names = ([prompts; images; videos]
           ++ (if includeVoiceover (request session) || includeMusic (request session)
               then [audio] else [])
           ++ [merge])%list ->
  stagesDone (sessionId session) names [] (store w) ->
  executeGenerationPipeline env session w = (Ok tt, w') ->
  stagesDone (sessionId session) names names (store w').
Proof.
  intros Hnames HJ Hrun. unfold executeGenerationPipeline in Hrun.
  assert (forall stage, stage ∈ [prompts; images; videos; merge] -> stage ∈ names) as Hin.
  { intros stage Hstage. rewrite Hnames.
    repeat (apply elem_of_cons in Hstage as [-> | Hstage]);
      [| | | | by apply elem_of_nil in Hstage];
      destruct (_ || _); compute_done. }
  apply bind_Ok_inv in Hrun as ([] & w1 & H1 & Hrun).
  eapply ends_Ok in H1; [| apply (stagesDone_method [] prompts) | done];
    [| stage_method | apply Hin; compute_done | compute_done].
  apply bind_Ok_inv in Hrun as ([] & w2 & H2 & Hrun).
  eapply ends_Ok in H2; [| apply (stagesDone_method [prompts] images) | done];
    [| stage_method | apply Hin; compute_done | compute_done].
  apply bind_Ok_inv in Hrun as ([] & w3 & H3 & Hrun).
  eapply ends_Ok in H3; [| apply (stagesDone_method [images; prompts] videos) | done];
    [| stage_method | apply Hin; compute_done | compute_done].
  apply bind_Ok_inv in Hrun as ([] & w4 & H4 & Hrun).
  destruct (includeVoiceover (request session) || includeMusic (request session)).
  - eapply ends_Ok in H4;
      [| apply (stagesDone_method [videos; images; prompts] audio) | done];
      [| stage_method | rewrite Hnames; compute_done | compute_done].
    eapply ends_Ok in Hrun;
      [| apply (stagesDone_method [audio; videos; images; prompts] merge) | done];
      [| stage_method | apply Hin; compute_done | compute_done].
    destruct Hrun as [Hn Hdone]. split; [done |]. intros stage Hstage. apply Hdone.
    rewrite Hnames in Hstage. simpl in Hstage.
    repeat (apply elem_of_cons in Hstage as [-> | Hstage]);
      [| | | | | by apply elem_of_nil in Hstage]; compute_done.
  - injection H4 as <-.
    eapply ends_Ok in Hrun;
      [| apply (stagesDone_method [videos; images; prompts] merge) | done];
      [| stage_method | apply Hin; compute_done | compute_done].
    destruct Hrun as [Hn Hdone]. split; [done |]. intros stage Hstage. apply Hdone.
    rewrite Hnames in Hstage. simpl in Hstage.
    repeat (apply elem_of_cons in Hstage as [-> | Hstage]);
      [| | | | by apply elem_of_nil in Hstage]; compute_done.
Qed.

End CompletedRun.

Section CompletedSession.
Context (env : Env).

Lemma ensureSessionDirectories_store sid w o w' :
  ensureSessionDirectories env sid w = (o, w') -> store w' = store w.
Proof.
  intros Hrun.
  assert (ends (fun sessions => sessions = store w) (fun sessions => sessions = store w)
            (ensureSessionDirectories env sid)) as Hends.
  { unfold ensureSessionDirectories.
    eapply ends_bind; [apply ends_liftExt | intros _].
    eapply ends_bind; [apply ends_liftExt | intros _]. apply ends_liftExt. }
  by destruct (Hends w o w' eq_refl Hrun).
Qed.

Lemma attemptGeneration_completes request characterImagePath w sid sid' w' :
  attemptGeneration env request characterImagePath w = (sid, Completed sid', w') ->
  sid' = sid
  /\ exists s,
       store w' !! sid = Some s
       /\ status s = completed
       /\ ss_stage <$> stages s
          = ([prompts; images; videos]
             ++ (if includeVoiceover request || includeMusic request then [audio] else [])
             ++ [merge])%list
       /\ Forall (fun st => ss_status st = st_completed) (stages s).
Proof.
  unfold attemptGeneration. rewrite sm_createSession_run.
  set (sid0 := uuidv4 env (ext w)).
  set (session := newSession sid0 _ request characterImagePath).
  set (wA := mkWorld _ _).
  change (sessionId session) with sid0.
  set (names := ([prompts; images; videos]
                 ++ (if includeVoiceover request || includeMusic request
                     then [audio] else [])
                 ++ [merge])%list).
  assert (stagesDone sid0 names [] (store wA)) as HJ.
  { split; [| by intros stage ?%elem_of_nil].
    exists session. split; [apply lookup_insert_eq |].
    unfold session, newSession, names. simpl. by destruct (_ || _). }
  match goal with
  | |- context [bind ?m ?k wA] => destruct (bind m k wA) as [[[] | error] w1] eqn:Hbody
  end.
  2: { match goal with
       | |- context [bind ?m ?k w1] => by destruct (bind m k w1) as [[[? ?] | ?] ?]
       end. }
  intros [= <- <- <-]. split; [done |].
  apply bind_Ok_inv in Hbody as ([] & wB & HB & Hbody).
  apply ensureSessionDirectories_store in HB.
  apply bind_Ok_inv in Hbody as ([] & wC & HC & Hbody).
  apply sm_updateSessionStatus_inv in HC as (_ & _ & _ & _ & tC & HsC).
  apply bind_Ok_inv in Hbody as ([] & wD & HD & HE).
  apply (executeGenerationPipeline_completes env session names) in HD; [| done |].
  2: { rewrite HsC, HB. by apply (stagesDone_updateSessionStatus session). }
  apply sm_updateSessionStatus_inv in HE as (_ & _ & _ & _ & tE & HsE).
  destruct HD as [(s & Hs & Hnames) Hdone].
  change (store wD !! sid0 = Some s) in Hs.
  rewrite HsE. unfold updateSessionStatus. rewrite Hs, lookup_insert_eq.
  eexists. split; [done |]. simpl. split; [done |]. split; [done |].
  apply find_stage_NoDup.
  - rewrite Hnames. unfold names. destruct (_ || _); compute_done.
  - intros stage Hstage. rewrite Hnames in Hstage.
    specialize (Hdone stage Hstage). unfold stageOf in Hdone.
    change (sessionId session) with sid0 in Hdone. by rewrite Hs in Hdone.
Qed.

End CompletedSession.

(** X20. A run of [generateVideo] that returns leaves a session in
    which every stage is completed, not only the last one: the stage
    list is the one the request asked for, each of its stages is
    'completed', and the progress reported for the session is 100. *)
Theorem completed_session_has_every_stage_completed (env : Env) (fuel : nat)
    (request : GenerationRequest) (characterImagePath sid : string) (w w' : World) :
  generateVideo env fuel request characterImagePath w = Some (Ok sid, w') ->
  exists s,
    store w' !! sid = Some s
    /\ status s = completed
    /\ ss_stage <$> stages s
       = ([prompts; images; videos]
          ++ (if includeVoiceover request || includeMusic request then [audio] else [])
          ++ [merge])%list
    /\ Forall (fun st => ss_status st = st_completed) (stages s)
    /\ progress (getSessionProgress sid (store w')) = JNum 100.
Proof.
  revert w. induction fuel as [| fuel IH]; intros w; simpl; [done |].
  destruct (attemptGeneration env request characterImagePath w)
    as [[sid0 result] w1] eqn:Hattempt.
  destruct result as [sid1 | appError [|] | t]; [| by apply IH | done | done].
  intros [= -> ->].
  apply attemptGeneration_completes in Hattempt as (-> & s & Hs & Hstatus & Hnames & Hall).
  exists s. split; [done |]. split; [done |]. split; [done |]. split; [done |].
  unfold getSessionProgress. rewrite Hs. simpl.
  rewrite (proj2 (filter_length_all _ (stages s)) Hall).
  assert (length (stages s) = 4%nat \/ length (stages s) = 5%nat) as [-> | ->]; [| done ..].
  rewrite <- (length_fmap ss_stage), Hnames. destruct (_ || _); simpl; auto.
Qed.

Lemma completed_session_has_every_stage_completed_witness :
  exists w' s,
    generateVideo exampleEnv 1 twoSceneRequest "uploads/face.png" (mkWorld ∅ exampleExt)
    = Some (Ok "session-1", w')
    /\ store w' !! "session-1" = Some s
    /\ status s = completed
    /\ ss_stage <$> stages s = [prompts; images; videos; audio; merge]
    /\ Forall (fun st => ss_status st = st_completed) (stages s)
    /\ progress (getSessionProgress "session-1" (store w')) = JNum 100.
Proof.
  destruct (generateVideo exampleEnv 1 twoSceneRequest "uploads/face.png"
              (mkWorld ∅ exampleExt)) as [[out w'] |] eqn:Hrun.
  - assert (out = Ok "session-1") as ->.
    { change out with (fst (out, w')).
      apply (inj Some). change (Some (fst (out, w'))) with (fst <$> Some (out, w')).
      rewrite <- Hrun. vm_compute. reflexivity. }
    destruct (completed_session_has_every_stage_completed exampleEnv 1 twoSceneRequest
                "uploads/face.png" "session-1" (mkWorld ∅ exampleExt) w' Hrun)
      as (s & Hs & Hstatus & Hnames & Hall & Hprogress).
    exists w', s. split; [reflexivity |]. split; [exact Hs |]. split; [exact Hstatus |].
    split; [exact Hnames |]. split; [exact Hall | exact Hprogress].
  - exfalso. assert (is_Some (generateVideo exampleEnv 1 twoSceneRequest "uploads/face.png"
                                (mkWorld ∅ exampleExt))) as [? Hsome]
      by (vm_compute; eexists; reflexivity).
    rewrite Hrun in Hsome. discriminate Hsome.
Defined.

(** ** The prompts the OpenAI service accepts *)

Lemma validateScenes_accepts scenes validated :
  validateScenes scenes = inr validated ->
  length validated = length scenes
  /\ Forall (fun scene => imagePrompt scene <> "" /\ videoPrompt scene <> "") validated.
Proof.
  revert validated. induction scenes as [| scene rest IH]; simpl; intros validated.
  - by intros [= <-].
  - destruct (sj_sceneNumber scene); try done.
    destruct (sj_imagePrompt scene) as [image |]; [| done].
    destruct (sj_videoPrompt scene) as [video |]; [| by rewrite andb_false_r].
    simpl. destruct (truthy image) eqn:Himage; [| done].
    destruct (truthy video) eqn:Hvideo; [| done]. simpl.
    destruct (validateScenes rest) as [| validated']; [done |].
    intros [= <-]. destruct (IH _ eq_refl) as [Hlen Hall]. simpl. split; [by rewrite Hlen |].
    apply Forall_cons. split; [| done]. simpl.
    split; intros ->; [discriminate Himage | discriminate Hvideo].
Qed.

(** X21. What [generatePrompts] of the OpenAI service returns has
    passed its validation: exactly [sceneCount] scenes, each with a
    non-empty image prompt and a non-empty video prompt, and a non-empty
    voiceover script and music prompt when they were requested. It made
    one chat-completion call to get them and touched no file. *)
Theorem accepted_prompts_are_well_formed (env : Env) (sceneCount : Z) (description : string)
    (includeVoiceover includeMusic : bool) (sessionId : string) (x x' : Ext)
    (generated : GeneratedPrompts) :
  OpenAIService.generatePrompts env sceneCount description includeVoiceover includeMusic
    sessionId x = (Ok generated, x') ->
  Z.of_nat (length (scenePrompts generated)) = sceneCount
  /\ Forall (fun scene => imagePrompt scene <> "" /\ videoPrompt scene <> "")
            (scenePrompts generated)
  /\ (includeVoiceover = true ->
      exists script, voiceoverScript generated = Some script /\ script <> "")
  /\ (includeMusic = true ->
      exists prompt, musicPrompt generated = Some prompt /\ prompt <> "")
  /\ x' = logEvent (EvOpenAI sceneCount description includeVoiceover includeMusic) x.
Proof.
  unfold OpenAIService.generatePrompts, bind, call.
  destruct (chat_completions_create env x _ _ _ _) as [| content]; [done |].
  destruct (negb (truthy_opt content)); [done |].
  destruct (JSON_parse env _) as [| | parsed]; try done.
  unfold validatePrompts.
  destruct (pj_scenePrompts parsed) as [scenes |]; [| done].
  destruct (Z.of_nat (length scenes) =? sceneCount) eqn:Hcount; [| done]. simpl.
  destruct (validateScenes scenes) as [| validated] eqn:Hscenes; [done |].
  apply validateScenes_accepts in Hscenes as [Hlen Hall].
  destruct (includeVoiceover && _) eqn:Hvoice; [done |].
  destruct (includeMusic && _) eqn:Hmusic; [done |].
  intros [= <- <-]. simpl.
  split; [rewrite Hlen; by apply Z.eqb_eq |]. split; [done |].
  assert (forall o, truthy_opt o = true -> exists s, o = Some s /\ s <> "") as Htruthy.
  { intros [s |]; [| done]. simpl. intros Hs. exists s. split; [done |]. by intros ->. }
  split; [| split; [| done]].
  - intros ->. apply Htruthy. simpl in Hvoice. by apply negb_false_iff.
  - intros ->. apply Htruthy. simpl in Hmusic. by apply negb_false_iff.
Qed.

Lemma accepted_prompts_are_well_formed_witness :
  exists generated x',
    OpenAIService.generatePrompts exampleEnv 2 "a calm morning" false true "session-1"
      exampleExt = (Ok generated, x')
    /\ Z.of_nat (length (scenePrompts generated)) = 2
    /\ Forall (fun scene => imagePrompt scene <> "" /\ videoPrompt scene <> "")
              (scenePrompts generated)
    /\ (exists prompt, musicPrompt generated = Some prompt /\ prompt <> "")
    /\ x' = logEvent (EvOpenAI 2 "a calm morning" false true) exampleExt.
Proof.
  destruct (OpenAIService.generatePrompts exampleEnv 2 "a calm morning" false true
              "session-1" exampleExt) as [[generated | t] x'] eqn:Hrun.
  - destruct (accepted_prompts_are_well_formed exampleEnv 2 "a calm morning" false true
                "session-1" exampleExt x' generated Hrun)
      as (Hcount & Hall & _ & Hmusic & Hx).
    exists generated, x'. split; [reflexivity |]. split; [exact Hcount |].
    split; [exact Hall |]. split; [exact (Hmusic eq_refl) | exact Hx].
  - exfalso. vm_compute in Hrun. discriminate Hrun.
Defined.

(** ** A stage whose artifacts file is missing *)

Section MissingArtifacts.
Context (env : Env).

Lemma stageBody_read_fails sid stage startMessage failMessage path
    (k : Artifacts -> M World unit) w :
  is_Some (stageOf (store w) sid stage) ->
  (forall x, fs_fault env x (OpReadJson path) = None) ->
  docs (ext w) !! path = None ->
  exists w',
    stageBody env sid stage startMessage failMessage
      (let* artifacts := liftExt (readJson env path) in k artifacts) w
    = (Throw (TRaw (ENOENT path)), w')
    /\ files (ext w') = files (ext w) /\ docs (ext w') = docs (ext w)
    /\ events (ext w') = ([EvClock; EvFs (OpReadJson path); EvClock] ++ events (ext w))%list
    /\ exists st,
         stageOf (store w') sid stage = Some st
         /\ ss_status st = st_error
         /\ ss_error st = Some ("ENOENT: no such file or directory, open '" +:+ path +:+ "'").
Proof.
  intros [st Hst] Hfault Hmissing.
  unfold stageBody, sm_updateStageStatus, try_catch, bind, get, liftExt, newTimestamp,
    modify, readJson, fsCall, throw.
  rewrite Hst. simpl. rewrite Hfault. simpl. rewrite Hmissing.
  cbn [store]. rewrite stageOf_updateStageStatus, bool_decide_eq_true_2, Hst by done. simpl.
  eexists. split; [done |]. simpl. repeat (split; [done |]).
  rewrite !stageOf_updateStageStatus, bool_decide_eq_true_2, Hst by done. simpl.
  eexists. split; [done |]. done.
Qed.

End MissingArtifacts.

(** X22. A stage that finds no artifacts file where it looks for one
    fails with ENOENT before it calls any service: it makes no call but
    the read, changes no file, and leaves its stage in 'error' with the
    ENOENT message. The image stage looks under [cwd]/runs, the video,
    audio and merge stages under the configured runs directory. *)
Theorem stage_without_artifacts_fails (env : Env) (session : GenerationSession)
    (stage : ProcessingStage) (method : M World unit) (w : World) :
  (stage, method) ∈ stageMethods env session ->
  stage <> prompts ->
  is_Some (stageOf (store w) (sessionId session) stage) ->
  (forall x,
     fs_fault env x (OpReadJson (artifactsRead env (sessionId session) stage)) = None) ->
  docs (ext w) !! artifactsRead env (sessionId session) stage = None ->
  exists w',
    method w = (Throw (TRaw (ENOENT (artifactsRead env (sessionId session) stage))), w')
    /\ files (ext w') = files (ext w) /\ docs (ext w') = docs (ext w)
    /\ events (ext w')
       = ([EvClock; EvFs (OpReadJson (artifactsRead env (sessionId session) stage)); EvClock]
          ++ events (ext w))%list
    /\ exists st,
         stageOf (store w') (sessionId session) stage = Some st
         /\ ss_status st = st_error
         /\ ss_error st
            = Some ("ENOENT: no such file or directory, open '"
                    +:+ artifactsRead env (sessionId session) stage +:+ "'").
Proof.
  intros Hmethod Hstage Hexists Hfault Hmissing.
  unfold stageMethods in Hmethod.
  repeat (apply elem_of_cons in Hmethod as [[= -> ->] | Hmethod]);
    [done | | | | | by apply elem_of_nil in Hmethod];
    unfold artifactsRead in *.
  - unfold generateImages. by apply stageBody_read_fails.
  - unfold generateVideos. by apply stageBody_read_fails.
  - unfold generateAudio. by apply stageBody_read_fails.
  - unfold mergeVideoContent. by apply stageBody_read_fails.
Qed.

Lemma stage_without_artifacts_fails_witness :
  is_Some (docs (ext relocatedWorld) !! artifactsPath relocatedEnv "session-1")
  /\ exists w' st,
       generateImages relocatedEnv silentSession relocatedWorld
       = (Throw (TRaw (ENOENT "/app/runs/session-1/artifacts.json")), w')
       /\ events (ext w')
          = [EvClock; EvFs (OpReadJson "/app/runs/session-1/artifacts.json"); EvClock]
       /\ stageOf (store w') "session-1" images = Some st
       /\ ss_status st = st_error
       /\ ss_error st
          = Some "ENOENT: no such file or directory, open '/app/runs/session-1/artifacts.json'".
Proof.
  split; [vm_compute; eexists; reflexivity |].
  destruct (stage_without_artifacts_fails relocatedEnv silentSession images
              (generateImages relocatedEnv silentSession) relocatedWorld)
    as (w' & Hrun & _ & _ & Hevents & st & Hst & Hstatus & Herror).
  - apply elem_of_cons. right. apply elem_of_cons. left. reflexivity.
  - discriminate.
  - vm_compute. eexists. reflexivity.
  - intros x. reflexivity.
  - vm_compute. reflexivity.
  - exists w', st. split; [exact Hrun |]. split; [exact Hevents |]. split; [exact Hst |].
    split; [exact Hstatus | exact Herror].
Defined.

(** ** The audio stage of a request without music *)

Section QuietAudio.
Context (env : Env) (x0 : Ext).






End QuietAudio.

Section ExactRuns.
Context (env : Env).




End ExactRuns.



(** ** The artifacts document *)


